(** * Agent orchestration and request-execution engine: a shallow embedding

    The development follows the TypeScript sources:
    - the API client ([APICache], [RateLimiter], [EnhancedOpenAIClient]);
    - the application reducer ([appReducer], workflow slice);
    - the two chat handlers ([MultiAgentChatHandler] and
      [EnhancedMultiAgentChatHandler]).

    JavaScript strings are sequences of UTF-16 code units, times are the
    integer milliseconds returned by [Date.now()], and every reading of the
    clock is an explicit argument of the operation that performs it.
    Part I holds the embedding, Part II the properties. *)

From Stdlib Require Import ZArith List String Ascii Lia Bool.
From Stdlib Require QArith Qround.
From stdpp Require Import gmap strings list pretty.

Set Default Proof Using "Type".

(** * Part I: the embedding *)

(** ** JavaScript strings *)

(** A string is the list of its UTF-16 code units. *)
Abbreviation jsstring := (list N).

Definition utf16_encode (cp : N) : jsstring :=
  if (cp <? 0x10000)%N then [cp]
  else
    let c := (cp - 0x10000)%N in
    [(0xD800 + N.shiftr c 10)%N; (0xDC00 + N.land c 0x3FF)%N].

Definition cont (a : ascii) : N := N.land (N_of_ascii a) 0x3F.

(** A source literal (UTF-8 bytes) read as the JavaScript string it
    denotes. *)
Fixpoint js (s : string) : jsstring :=
  match s with
  | EmptyString => []
  | String a s1 =>
      let b := N_of_ascii a in
      if (b <? 0x80)%N then b :: js s1
      else if (b <? 0xE0)%N then
        match s1 with
        | String a2 s2 =>
            utf16_encode (N.shiftl (N.land b 0x1F) 6 + cont a2) ++ js s2
        | _ => []
        end
      else if (b <? 0xF0)%N then
        match s1 with
        | String a2 (String a3 s3) =>
            utf16_encode
              (N.shiftl (N.land b 0x0F) 12 + N.shiftl (cont a2) 6 + cont a3)
            ++ js s3
        | _ => []
        end
      else
        match s1 with
        | String a2 (String a3 (String a4 s4)) =>
            utf16_encode
              (N.shiftl (N.land b 0x07) 18 + N.shiftl (cont a2) 12
               + N.shiftl (cont a3) 6 + cont a4)
            ++ js s4
        | _ => []
        end
  end.

(** Literals made of ASCII characters only, one unit per character. *)
Fixpoint ascii_units (s : string) : jsstring :=
  match s with
  | EmptyString => []
  | String a s' => N_of_ascii a :: ascii_units s'
  end.

(** Decimal rendering of an array index, as a template literal does. *)
Definition nat_to_js (n : nat) : jsstring := ascii_units (pretty n).

(** The line feed, [\n]. *)
Definition nl : jsstring := [10%N].

(** [Array.prototype.join]. *)
Fixpoint join (sep : jsstring) (parts : list jsstring) : jsstring :=
  match parts with
  | [] => []
  | [p] => p
  | p :: rest => p ++ sep ++ join sep rest
  end.

Fixpoint starts_with (pat s : jsstring) : bool :=
  match pat, s with
  | [], _ => true
  | _ :: _, [] => false
  | p :: pat', c :: s' => if N.eqb p c then starts_with pat' s' else false
  end.

(** [String.prototype.indexOf]. *)
Fixpoint index_of (pat s : jsstring) : option nat :=
  if starts_with pat s then Some 0
  else match s with
       | [] => None
       | _ :: s' => S <$> index_of pat s'
       end.

(** [String.prototype.includes]. *)
Definition includes (s pat : jsstring) : bool :=
  match index_of pat s with Some _ => true | None => false end.

(** White space and line terminators, the units [trim] removes. *)
Definition is_js_space (c : N) : bool :=
  ((9 <=? c) && (c <=? 13) || (c =? 32) || (c =? 0xA0) || (c =? 0x1680)
   || (0x2000 <=? c) && (c <=? 0x200A) || (c =? 0x2028) || (c =? 0x2029)
   || (c =? 0x202F) || (c =? 0x205F) || (c =? 0x3000) || (c =? 0xFEFF))%N.

Fixpoint trimStart (s : jsstring) : jsstring :=
  match s with
  | c :: s' => if is_js_space c then trimStart s' else s
  | [] => []
  end.

Definition trimEnd (s : jsstring) : jsstring := rev (trimStart (rev s)).

(** [String.prototype.trim]. *)
Definition trim (s : jsstring) : jsstring := trimEnd (trimStart s).

(** [a || b] on strings: the empty string is falsy. *)
Definition or_else (a b : jsstring) : jsstring :=
  match a with [] => b | _ => a end.

(** ASCII letters folded to lower case: how a pattern of ASCII letters
    compares under the [i] flag. *)
Definition fold_ascii (c : N) : N :=
  if ((65 <=? c) && (c <=? 90))%N then (c + 32)%N else c.

(** [/(a1|a2|...)/i.test(s)] for alternatives that are plain lower-case
    ASCII words. *)
Definition test_alternatives_i (alts : list jsstring) (s : jsstring) : bool :=
  existsb (includes (fold_ascii <$> s)) alts.

(** ** [Map]: keyed entries kept in insertion order *)

Module JSMap.
Section JSMap.
Context {V : Type}.

Definition t := list (jsstring * V).

Definition size (m : t) : nat := length m.

Fixpoint get (k : jsstring) (m : t) : option V :=
  match m with
  | [] => None
  | (k', v) :: m' => if decide (k' = k) then Some v else get k m'
  end.

(** [Map.prototype.set] overwrites in place when the key is present and
    appends otherwise. *)
Fixpoint set (k : jsstring) (v : V) (m : t) : t :=
  match m with
  | [] => [(k, v)]
  | (k', v') :: m' =>
      if decide (k' = k) then (k, v) :: m' else (k', v') :: set k v m'
  end.

Fixpoint delete (k : jsstring) (m : t) : t :=
  match m with
  | [] => []
  | (k', v) :: m' => if decide (k' = k) then m' else (k', v) :: delete k m'
  end.

(** [m.keys().next().value]; [None] is [undefined]. *)
Definition firstKey (m : t) : option jsstring := fst <$> head m.

Definition keys (m : t) : list jsstring := fst <$> m.

End JSMap.
Arguments t : clear implicits.
End JSMap.

(** ** [APICache] *)

Module APICache.

Record CacheEntry (T : Type) := mkEntry {
  data : T;
  timestamp : Z;
  expires : Z
}.
Arguments mkEntry {T}.
Arguments data {T}.
Arguments timestamp {T}.
Arguments expires {T}.

Definition maxSize : nat := 100.
Definition defaultTTL : Z := 5 * 60 * 1000.

Section Ops.
Context {T : Type}.

Definition cache := JSMap.t (CacheEntry T).

Definition empty : cache := [].

(** [set(key, data, ttl)]; [now1] and [now2] are the two readings of the
    clock, in evaluation order. *)
Definition set (key : jsstring) (d : T) (ttl : Z) (now1 now2 : Z)
    (c : cache) : cache :=
  let c1 :=
    if (maxSize <=? JSMap.size c)%nat then
      match JSMap.firstKey c with
      | Some firstKey => JSMap.delete firstKey c
      | None => c
      end
    else c in
  JSMap.set key (mkEntry d now1 (now2 + ttl)%Z) c1.

(** [get(key)] at clock reading [now]: the value ([None] is [null]) and
    the cache left behind. *)
Definition get (key : jsstring) (now : Z) (c : cache) : option T * cache :=
  match JSMap.get key c with
  | None => (None, c)
  | Some entry =>
      if (expires entry <? now)%Z then (None, JSMap.delete key c)
      else (Some (data entry), c)
  end.

Definition clear (c : cache) : cache := [].

(** One [set] call with its arguments and clock readings. *)
Record SetOp := mkSetOp {
  op_key : jsstring;
  op_data : T;
  op_ttl : Z;
  op_now1 : Z;
  op_now2 : Z
}.

(** The entry a [set] call stores. *)
Definition stored (o : SetOp) : jsstring * CacheEntry T :=
  (op_key o, mkEntry (op_data o) (op_now1 o) (op_now2 o + op_ttl o)%Z).

Definition apply_set (c : cache) (o : SetOp) : cache :=
  set (op_key o) (op_data o) (op_ttl o) (op_now1 o) (op_now2 o) c.

Definition run_sets (ops : list SetOp) (c : cache) : cache :=
  fold_left apply_set ops c.

End Ops.
Arguments cache : clear implicits.
Arguments SetOp : clear implicits.

End APICache.

(** ** [RateLimiter] *)

Module RateLimiter.

Definition windowMs : Z := 60000.
Definition maxRequests : nat := 60.

(** [requests]: identifier to recorded timestamps, oldest first. *)
Abbreviation t := (gmap jsstring (list Z)).

Definition empty : t := ∅.

(** [if (!requests.has(identifier)) requests.set(identifier, [])]. *)
Definition ensure (identifier : jsstring) (r : t) : t :=
  match r !! identifier with
  | Some _ => r
  | None => <[identifier := []]> r
  end.

Definition times (identifier : jsstring) (r : t) : list Z :=
  default [] (r !! identifier).

Definition canMakeRequest (now : Z) (identifier : jsstring) (r : t)
    : bool * t :=
  let windowStart := (now - windowMs)%Z in
  let r1 := ensure identifier r in
  let requestTimes := times identifier r1 in
  let validRequests := filter (λ time, (windowStart < time)%Z) requestTimes in
  (bool_decide (length validRequests < maxRequests),
   <[identifier := validRequests]> r1).

Definition recordRequest (now : Z) (identifier : jsstring) (r : t) : t :=
  let r1 := ensure identifier r in
  <[identifier := times identifier r1 ++ [now]]> r1.

(** The timestamps of [l] that a check at [now] counts. *)
Definition inside (now : Z) (l : list Z) : list Z :=
  filter (λ time, (now - windowMs < time)%Z) l.

(** A timestamp that every check between [t_start] and [t_end] treats
    the same way: already outside the window at [t_start], or still
    inside it at [t_end]. *)
Definition stable (t_start t_end : Z) (time : Z) : Prop :=
  (time ≤ t_start - windowMs)%Z ∨ (t_end - windowMs < time)%Z.

(** An admission check at [p.1] followed, when it passes, by the
    recording at [p.2]; [rounds] repeats it. *)
Definition round (identifier : jsstring) (p : Z * Z) (r : t) : bool * t :=
  let '(allowed, r1) := canMakeRequest p.1 identifier r in
  (allowed, if allowed then recordRequest p.2 identifier r1 else r1).

Fixpoint rounds (identifier : jsstring) (ps : list (Z * Z)) (r : t)
    : list bool * t :=
  match ps with
  | [] => ([], r)
  | p :: ps' =>
      let '(allowed, r1) := round identifier p r in
      let '(rest, r2) := rounds identifier ps' r1 in
      (allowed :: rest, r2)
  end.

End RateLimiter.

(** ** Base64 and the cache key *)

Definition b64_alphabet : jsstring :=
  ascii_units
    "ABCDEFGHIJKLMNOPQRSTUVWXYZabcdefghijklmnopqrstuvwxyz0123456789+/".

Definition b64_digit (i : N) : N := nth (N.to_nat i) b64_alphabet 61%N.

(** Base64 of a sequence of bytes, with [=] padding (code 61). *)
Fixpoint base64 (l : list N) : jsstring :=
  match l with
  | [] => []
  | [a] =>
      [b64_digit (N.shiftr a 2); b64_digit (N.shiftl (N.land a 3) 4);
       61; 61]%N
  | [a; b] =>
      [b64_digit (N.shiftr a 2);
       b64_digit (N.lor (N.shiftl (N.land a 3) 4) (N.shiftr b 4));
       b64_digit (N.shiftl (N.land b 15) 2); 61]%N
  | a :: b :: c :: rest =>
      [b64_digit (N.shiftr a 2);
       b64_digit (N.lor (N.shiftl (N.land a 3) 4) (N.shiftr b 4));
       b64_digit (N.lor (N.shiftl (N.land b 15) 2) (N.shiftr c 6));
       b64_digit (N.land c 63)] ++ base64 rest
  end.

(** [btoa]: defined on strings whose units are all below U+0100; [None]
    is the [InvalidCharacterError] it throws otherwise. *)
Definition btoa (s : jsstring) : option jsstring :=
  if forallb (λ c, (c <=? 255)%N) s then Some (base64 s) else None.

(** Numbers are floating-point values; the client only renders them
    inside a template literal and passes them on. *)
Class JSNumber := {
  Number : Type;
  numberToString : Number → jsstring;
  number_0_7 : Number
}.

(** ** [EnhancedOpenAIClient] *)

Inductive Role := system | user | assistant.

Record Message := mkMessage { role : Role; content : jsstring }.

Record ChoiceMessage := mkChoiceMessage {
  cm_role : Role;
  cm_content : option jsstring
}.

Record Choice := mkChoice {
  choice_index : N;
  choice_message : ChoiceMessage;
  finish_reason : jsstring
}.

Record Usage := mkUsage {
  prompt_tokens : N;
  completion_tokens : N;
  total_tokens : N
}.

(** What the provider returns. *)
Record Completion := mkCompletion {
  c_id : jsstring;
  c_object : jsstring;
  c_created : Z;
  c_model : jsstring;
  c_choices : list Choice;
  c_usage : option Usage
}.

(** What the client keeps of it. *)
Record Response := mkResponse {
  r_id : jsstring;
  r_choices : list Choice;
  r_usage : option Usage;
  r_model : jsstring
}.

(** The value of a call: [{ fromCache: true, ...cached }] or the fresh
    response. *)
Inductive Result :=
  | FromCache (r : Response)
  | Fresh (r : Response).

(** The fields of a thrown provider error that [handleError] reads; an
    absent message is the empty string. *)
Record ProviderError := mkProviderError {
  err_status : option Z;
  err_code : option jsstring;
  err_message : jsstring
}.

Inductive Failure :=
  | InvalidCharacterError
  | Error (message : jsstring).

Inductive Settled :=
  | Resolved (r : Result)
  | Rejected (f : Failure).

(** [error.status >= 500]; an absent status compares false. *)
Definition status_at_least (error : ProviderError) (n : Z) : bool :=
  match err_status error with
  | Some s => bool_decide (n ≤ s)%Z
  | None => false
  end.

Definition handleError (error : ProviderError) : Failure :=
  if bool_decide (err_status error = Some 429%Z) then
    Error (js "Rate limit exceeded. Please wait a moment before trying again.")
  else if bool_decide (err_status error = Some 401%Z) then
    Error (js "Invalid API key. Please check your OpenAI configuration.")
  else if status_at_least error 500 then
    Error (js "OpenAI service is temporarily unavailable. Please try again later.")
  else if bool_decide (err_code error = Some (js "ENOTFOUND"))
          || bool_decide (err_code error = Some (js "ECONNREFUSED")) then
    Error (js "Network connection failed. Please check your internet connection.")
  else
    Error (or_else (err_message error)
             (js "An unexpected error occurred with the AI service.")).

Module Client.
Section Client.
Context `{JSNumber}.

Definition generateCacheKey (messages : list Message) (model : jsstring)
    (temperature : Number) : option jsstring :=
  let content := join (js "|") (content <$> messages) in
  encoded ← btoa content;
  Some (js "chat:" ++ model ++ js ":" ++ numberToString temperature
        ++ js ":" ++ take 50 encoded).

Record Params := mkParams {
  p_model : option jsstring;
  p_messages : list Message;
  p_temperature : option Number;
  p_max_tokens : option N;
  p_useCache : option bool
}.

(** The request sent to [client.chat.completions.create]. *)
Record ProviderRequest := mkProviderRequest {
  q_model : jsstring;
  q_messages : list Message;
  q_temperature : Number;
  q_max_tokens : N
}.

(** A closure waiting in [requestQueue], with what it captured. *)
Record Queued := mkQueued {
  q_request : ProviderRequest;
  q_useCache : bool;
  q_cacheKey : jsstring
}.

(** The client's fields, and the log of the requests handed to the
    provider.  The [processing] flag only ensures that a single worker
    loop runs; the worker is [processQueue] below. *)
Record t := mkClient {
  cache : APICache.cache Response;
  rateLimiter : RateLimiter.t;
  requestQueue : list Queued;
  providerCalls : list ProviderRequest
}.

Definition new : t := mkClient APICache.empty RateLimiter.empty [] [].

Definition identifier : jsstring := js "openai-chat".

Definition rate_limit_message : jsstring :=
  js "Rate limit exceeded. Please wait before making another request.".

Inductive Submitted :=
  | Settled_now (s : Settled)
  | Enqueued.

(** [createChatCompletion] up to the point where it returns its promise:
    [t_get] is the clock read by [cache.get], [t_check] the one read by
    [canMakeRequest]. *)
Definition createChatCompletion (params : Params) (t_get t_check : Z)
    (st : t) : Submitted * t :=
  let model := default (js "gpt-4o-mini") (p_model params) in
  let messages := p_messages params in
  let temperature := default number_0_7 (p_temperature params) in
  let max_tokens := default 800%N (p_max_tokens params) in
  let useCache := default true (p_useCache params) in
  match generateCacheKey messages model temperature with
  | None => (Settled_now (Rejected InvalidCharacterError), st)
  | Some cacheKey =>
      let '(cached, cache1) :=
        if useCache then APICache.get cacheKey t_get (cache st)
        else (None, cache st) in
      match cached with
      | Some r =>
          (Settled_now (Resolved (FromCache r)),
           mkClient cache1 (rateLimiter st) (requestQueue st)
             (providerCalls st))
      | None =>
          let '(allowed, limiter1) :=
            RateLimiter.canMakeRequest t_check identifier (rateLimiter st) in
          if allowed then
            let request :=
              mkQueued (mkProviderRequest model messages temperature
                          max_tokens) useCache cacheKey in
            (Enqueued,
             mkClient cache1 limiter1 (requestQueue st ++ [request])
               (providerCalls st))
          else
            (Settled_now (Rejected (Error rate_limit_message)),
             mkClient cache1 limiter1 (requestQueue st) (providerCalls st))
      end
  end.

(** What the environment supplies while one queued request runs: the
    clock read by [recordRequest], the provider's answer, and the two
    clocks read by [cache.set]. *)
Record Tick := mkTick {
  t_record : Z;
  reply : Completion + ProviderError;
  t_set1 : Z;
  t_set2 : Z
}.

Definition response_of (completion : Completion) : Response :=
  mkResponse (c_id completion) (c_choices completion) (c_usage completion)
    (c_model completion).

(** The body of the queued closure. *)
Definition request (q : Queued) (tk : Tick) (st : t) : Settled * t :=
  let limiter1 :=
    RateLimiter.recordRequest (t_record tk) identifier (rateLimiter st) in
  let calls1 := providerCalls st ++ [q_request q] in
  match reply tk with
  | inl completion =>
      let response := response_of completion in
      let cache1 :=
        if q_useCache q then
          APICache.set (q_cacheKey q) response APICache.defaultTTL
            (t_set1 tk) (t_set2 tk) (cache st)
        else cache st in
      (Resolved (Fresh response),
       mkClient cache1 limiter1 (requestQueue st) calls1)
  | inr error =>
      (Rejected (handleError error),
       mkClient (cache st) limiter1 (requestQueue st) calls1)
  end.

(** [processQueue]: the worker shifts the queue and runs one request at
    a time, as long as the environment supplies ticks. *)
Fixpoint processQueue (ticks : list Tick) (st : t) : list Settled * t :=
  match ticks, requestQueue st with
  | tk :: ticks', q :: rest =>
      let '(o, st1) :=
        request q tk
          (mkClient (cache st) (rateLimiter st) rest (providerCalls st)) in
      let '(os, st2) := processQueue ticks' st1 in
      (o :: os, st2)
  | _, _ => ([], st)
  end.

(** One call awaited to completion on an idle client. *)
Record Call := mkCall {
  call_params : Params;
  call_t_get : Z;
  call_t_check : Z;
  call_tick : Tick
}.

Definition await (c : Call) (st : t) : option Settled * t :=
  match createChatCompletion (call_params c) (call_t_get c)
          (call_t_check c) st with
  | (Settled_now s, st1) => (Some s, st1)
  | (Enqueued, st1) =>
      let '(os, st2) := processQueue [call_tick c] st1 in
      (last os, st2)
  end.

(** Calls issued one after the other, each awaited before the next. *)
Fixpoint sequence (calls : list Call) (st : t) : list (option Settled) * t :=
  match calls with
  | [] => ([], st)
  | c :: calls' =>
      let '(o, st1) := await c st in
      let '(os, st2) := sequence calls' st1 in
      (o :: os, st2)
  end.

(** The cache key of a call and whether it may use the cache. *)
Definition cacheKey (params : Params) : option jsstring :=
  generateCacheKey (p_messages params)
    (default (js "gpt-4o-mini") (p_model params))
    (default number_0_7 (p_temperature params)).

Definition eligible (params : Params) : bool :=
  default true (p_useCache params).

(** The request a call sends to the provider, defaults filled in. *)
Definition provider_request (params : Params) : ProviderRequest :=
  mkProviderRequest (default (js "gpt-4o-mini") (p_model params))
    (p_messages params) (default number_0_7 (p_temperature params))
    (default 800%N (p_max_tokens params)).

(** The clocks of a call's admission check and of its recording. *)
Definition call_round (c : Call) : Z * Z :=
  (call_t_check c, t_record (call_tick c)).

(** How a request that reached the provider settles. *)
Definition provider_answer (tk : Tick) : Settled :=
  match reply tk with
  | inl completion => Resolved (Fresh (response_of completion))
  | inr e => Rejected (handleError e)
  end.

(** Outcomes decided before the rate limiter is consulted: a cache hit,
    or the failure of the key computation. *)
Definition before_limiter (s : Settled) : bool :=
  match s with
  | Resolved (FromCache _) => true
  | Rejected InvalidCharacterError => true
  | _ => false
  end.

Definition reached_limiter (o : option Settled) : Prop :=
  match o with
  | Some s => before_limiter s = false
  | None => True
  end.

Definition submitted_reached_limiter (s : Submitted) : Prop :=
  match s with
  | Settled_now s => before_limiter s = false
  | Enqueued => True
  end.

End Client.
End Client.

(** ** Object literals read by key *)

(** The properties every object literal inherits from [Object.prototype],
    each with the [name] of the function it holds; ["__proto__"] is an
    accessor that returns [Object.prototype] itself, which has no
    [name]. *)
Definition prototype_properties : list (jsstring * option jsstring) :=
  [ (js "constructor", Some (js "Object"));
    (js "__defineGetter__", Some (js "__defineGetter__"));
    (js "__defineSetter__", Some (js "__defineSetter__"));
    (js "hasOwnProperty", Some (js "hasOwnProperty"));
    (js "__lookupGetter__", Some (js "__lookupGetter__"));
    (js "__lookupSetter__", Some (js "__lookupSetter__"));
    (js "isPrototypeOf", Some (js "isPrototypeOf"));
    (js "propertyIsEnumerable", Some (js "propertyIsEnumerable"));
    (js "toString", Some (js "toString"));
    (js "valueOf", Some (js "valueOf"));
    (js "toLocaleString", Some (js "toLocaleString"));
    (js "__proto__", None) ].

(** What [obj[key]] finds in an object literal: the entry written under
    [key], else the value inherited under that name, which is an object
    and so truthy, else [undefined]. *)
Inductive Property (V : Type) :=
  | Own (v : V)
  | Inherited (name : option jsstring)
  | Missing.
Arguments Own {V} v.
Arguments Inherited {V} name.
Arguments Missing {V}.

Definition read_property {V} (key : jsstring) (obj : JSMap.t V)
    : Property V :=
  match JSMap.get key obj with
  | Some v => Own v
  | None =>
      match JSMap.get key prototype_properties with
      | Some name => Inherited name
      | None => Missing
      end
  end.

(** [`${x}`] for a string that may be [undefined]. *)
Definition interpolate (x : option jsstring) : jsstring :=
  default (js "undefined") x.

(** ** JSON values *)

(** A number as [JSON.parse] returns it: a finite double, which is a
    rational, or an infinity when the literal is out of range. *)
Inductive JsonNumber :=
  | JFinite (q : QArith_base.Q)
  | JInfinite (negative : bool).

(** A value as [JSON.parse] returns it; an object is given by its
    properties, each name once. *)
#[warnings="-register-all"] Inductive Json :=
  | JNull
  | JBool (b : bool)
  | JNumber (x : JsonNumber)
  | JString (s : jsstring)
  | JArray (elements : list Json)
  | JObject (properties : list (jsstring * Json)).

Definition is_null (v : Json) : bool :=
  match v with
  | JNull => true
  | _ => false
  end.

(** Whether a value counts as true in a condition. *)
Definition truthy (v : Json) : bool :=
  match v with
  | JNull => false
  | JBool b => b
  | JNumber (JFinite q) => negb (QArith_base.Qnum q =? 0)%Z
  | JNumber (JInfinite _) => true
  | JString s => negb (bool_decide (s = []))
  | JArray _ | JObject _ => true
  end.

(** Whether [...v] iterates: strings and arrays do, anything else makes
    the spread throw a [TypeError]. *)
Definition iterable (v : Json) : bool :=
  match v with
  | JString _ | JArray _ => true
  | _ => false
  end.

(** Whether converting a value to a primitive throws a [TypeError], as
    it does for an operand of [+] or [/]: an object that has a property
    [toString] of its own, which is never a function, cannot be
    converted, and an array, which is converted by joining its elements,
    cannot when one of its elements cannot. *)
Fixpoint unconvertible (v : Json) : bool :=
  match v with
  | JObject properties =>
      match JSMap.get (js "toString") properties with
      | Some _ => true
      | None => false
      end
  | JArray elements => existsb unconvertible elements
  | _ => false
  end.

(** [v.name] on a value other than [null], for a name that no prototype
    defines, as [title], [recommendations], [confidence] and
    [qualityScore]: the property of an object when it has one,
    [undefined] otherwise. *)
Definition property (name : jsstring) (v : Json) : option Json :=
  match v with
  | JObject properties => JSMap.get name properties
  | _ => None
  end.

(** ** Workflow steps and the application reducer *)

Inductive Status := pending | active | completed | error.

Global Instance Status_eq_dec : EqDecision Status.
Proof. solve_decision. Defined.

(** The four texts of a step are declared as strings, but
    [createWorkflowSteps] reads them through index signatures, which
    are not checked at run time: [None] is a text that is [undefined]. *)
Record WorkflowStep := mkStep {
  step_id : jsstring;
  step_name : option jsstring;
  step_status : Status;
  step_dependencies : list jsstring;
  step_estimatedTime : option jsstring;
  step_details : option jsstring;
  step_agent : option jsstring
}.

(** [Partial<WorkflowStep> & { id: string }]. *)
Record StepUpdate := mkUpdate {
  u_id : jsstring;
  u_name : option jsstring;
  u_status : option Status;
  u_dependencies : option (list jsstring);
  u_estimatedTime : option jsstring;
  u_details : option jsstring;
  u_agent : option jsstring
}.

(** The payload [{ id, status }] the handlers dispatch. *)
Definition set_status (i : jsstring) (s : Status) : StepUpdate :=
  mkUpdate i None (Some s) None None None None.

(** [{ ...step, ...payload }]. *)
Definition merge (step : WorkflowStep) (u : StepUpdate) : WorkflowStep :=
  mkStep (u_id u)
    (match u_name u with
     | Some name => Some name
     | None => step_name step
     end)
    (default (step_status step) (u_status u))
    (default (step_dependencies step) (u_dependencies u))
    (match u_estimatedTime u with
     | Some estimatedTime => Some estimatedTime
     | None => step_estimatedTime step
     end)
    (match u_details u with
     | Some details => Some details
     | None => step_details step
     end)
    (match u_agent u with
     | Some agent => Some agent
     | None => step_agent step
     end).

Inductive Action :=
  | SET_PROCESSING (payload : bool)
  | SET_THINKING_STEPS (payload : list jsstring)
  | ADD_THINKING_STEP (payload : jsstring)
  | CLEAR_THINKING_STEPS
  | UPDATE_WORKFLOW_STEP (payload : StepUpdate)
  | SET_WORKFLOW (payload : list WorkflowStep)
  | RESET_WORKFLOW.

(** The slice of [AppState] these actions read and write. *)
Record AppState := mkApp {
  workflow : list WorkflowStep;
  isProcessing : bool;
  thinkingSteps : list jsstring
}.

Definition appReducer (state : AppState) (action : Action) : AppState :=
  match action with
  | SET_PROCESSING b => mkApp (workflow state) b (thinkingSteps state)
  | SET_THINKING_STEPS l => mkApp (workflow state) (isProcessing state) l
  | ADD_THINKING_STEP x =>
      mkApp (workflow state) (isProcessing state) (thinkingSteps state ++ [x])
  | CLEAR_THINKING_STEPS => mkApp (workflow state) (isProcessing state) []
  | UPDATE_WORKFLOW_STEP payload =>
      let newWorkflow :=
        (λ step, if decide (step_id step = u_id payload)
                 then merge step payload else step) <$> workflow state in
      let isStillProcessing :=
        existsb (λ step, bool_decide (step_status step = active)
                         || bool_decide (step_status step = pending))
          newWorkflow in
      let allCompleted :=
        forallb (λ step, bool_decide (step_status step = completed))
          newWorkflow in
      mkApp newWorkflow (if allCompleted then false else isStillProcessing)
        (thinkingSteps state)
  | SET_WORKFLOW steps => mkApp steps true (thinkingSteps state)
  | RESET_WORKFLOW => mkApp [] false (thinkingSteps state)
  end.

(** The transitions the specification names as the allowed ones, for
    comparison with what the reducer does. *)
Definition allowed_transition (old new : Status) : bool :=
  match old, new with
  | pending, active | active, completed | active, error => true
  | _, _ => false
  end.

(** The workflow updates among the actions of a log. *)
Definition updates_of (log : list Action) : list StepUpdate :=
  omap (λ a, match a with
             | UPDATE_WORKFLOW_STEP payload => Some payload
             | _ => None
             end) log.

(** The state after a sequence of dispatches. *)
Definition dispatch_all (state : AppState) (log : list Action) : AppState :=
  fold_left appReducer log state.

(** ** What both chat handlers share *)

(** Built-in or regex-heavy functions the handlers call and whose
    definition is outside this development: [String.prototype.toLowerCase],
    [sanitizeUserInput], [JSON.parse] ([None] when it throws), and the
    message of the [TypeError] that [agent.capabilities.join(', ')]
    throws when [agent.capabilities] is [undefined], which differs
    between engines. *)
Class Builtins := {
  toLowerCase : jsstring → jsstring;
  sanitizeUserInput : jsstring → jsstring;
  jsonParse : jsstring → option Json;
  joinOfUndefined : jsstring
}.

(** The fields of an agent record the control flow reads (the system
    prompt only goes into the request). *)
Record AgentConfig := mkAgent {
  agent_name : jsstring;
  agent_emoji : jsstring;
  agent_specialty : jsstring;
  agent_keywords : list jsstring
}.

(** A value thrown at the handler: an [Error] with its message, or
    anything else. *)
Inductive Thrown :=
  | ThrownError (message : jsstring)
  | ThrownOther.

(** The outcome of the [n]-th request a handler issues, after reading
    [completion.choices[0].message.content ?? ""] from it: the text, or
    what was thrown on the way (by the call, or by the read when the
    completion has no first choice). *)
Definition Answers := nat → jsstring + Thrown.

Definition report_open : jsstring := js "[REPORT_DATA]".
Definition report_close : jsstring := js "[/REPORT_DATA]".

(** [s.match(/\[REPORT_DATA\]([\s\S]*?)\[\/REPORT_DATA\]/)]: the text
    before the match, the captured group and the text after it. *)
Definition find_report (s : jsstring)
    : option (jsstring * jsstring * jsstring) :=
  i ← index_of report_open s;
  let rest := drop (i + length report_open) s in
  j ← index_of report_close rest;
  Some (take i s, take j rest, drop (j + length report_close) rest).

(** [s.replace(/\[REPORT_DATA\][\s\S]*?\[\/REPORT_DATA\]/, '')]. *)
Definition strip_report (s : jsstring) : jsstring :=
  match find_report s with
  | Some (before, _, after) => before ++ after
  | None => s
  end.

(** [JSON.parse(reportMatch[1].trim())] when a report block is found
    and its text parses. *)
Definition report_data `{Builtins} (s : jsstring) : option Json :=
  match find_report s with
  | Some (_, inner, _) => jsonParse (trim inner)
  | None => None
  end.

(** Whether a report block is found and its trimmed text parses. *)
Definition report_extracted `{Builtins} (s : jsstring) : bool :=
  match report_data s with
  | Some _ => true
  | None => false
  end.

(** An inherited value in the place of an agent record, as the template
    literals of the handlers render it: its [name] is the function's, or
    [undefined]; it has no [emoji] and no [specialty], and its keywords
    are never read. *)
Definition inherited_agent (name : option jsstring) : AgentConfig :=
  mkAgent (interpolate name) (js "undefined") (js "undefined") [].

(** The two nested loops over the agents and their keywords: the first
    agent other than [general] with a keyword the message includes, and
    that keyword. *)
Fixpoint keyword_match (agents : list (jsstring * AgentConfig))
    (lowerMessage : jsstring) : option (jsstring * AgentConfig * jsstring) :=
  match agents with
  | [] => None
  | (agentKey, agent) :: rest =>
      if decide (agentKey = js "general") then keyword_match rest lowerMessage
      else
        match find (includes lowerMessage) (agent_keywords agent) with
        | Some keyword => Some (agentKey, agent, keyword)
        | None => keyword_match rest lowerMessage
        end
  end.

(** What a handler's run leaves behind: the value returned ([None] when
    the promise is rejected), the actions dispatched and the agents whose
    request was issued, both in order.  The report object and the
    performance counters are left out. *)
Record HandlerResult := mkResult {
  response : jsstring;
  agentType : jsstring
}.

Record Run := mkRun {
  returned : option HandlerResult;
  dispatched : list Action;
  requested : list jsstring
}.

Record LoopState := mkLoop {
  ls_log : list Action;
  ls_requested : list jsstring;
  ls_finalResponse : jsstring;
  ls_finalAgentType : jsstring
}.

Inductive StepOutcome :=
  | Continue (s : LoopState)
  | Return (r : HandlerResult) (s : LoopState)
  | Throw (s : LoopState).

Definition stepId (i : nat) : jsstring := js "step-" ++ nat_to_js (i + 1).

(** The updates of a run whose steps [i], ..., [i + n - 1] completed. *)
Definition progress (i n : nat) : list StepUpdate :=
  flat_map (λ j, [set_status (stepId j) active;
                  set_status (stepId j) completed]) (seq i n).

(** ** [MultiAgentChatHandler] *)

Module MultiAgentChatHandler.
Section Handler.
Context `{Builtins}.

Definition AGENTS : list (jsstring * AgentConfig) :=
  [ (js "eda",
     mkAgent (js "EDA Agent") (js "🔬") (js "Data Explorer")
       (js <$> ["explore"; "eda"; "analyze"; "distribution"; "pattern";
                "correlation"; "outlier"; "statistics"; "summary";
                "data quality"]));
    (js "forecasting",
     mkAgent (js "Forecasting Agent") (js "📈") (js "Future Predictor")
       (js <$> ["forecast"; "predict"; "future"; "projection"; "trend";
                "time series"; "arima"; "prophet"; "prediction"]));
    (js "whatif",
     mkAgent (js "What-If Agent") (js "🎯") (js "Scenario Planner")
       (js <$> ["what if"; "scenario"; "simulate"; "impact"; "sensitivity";
                "assumption"; "compare scenarios"; "outcome"]));
    (js "comparative",
     mkAgent (js "Comparative Agent") (js "⚖️") (js "Performance Comparer")
       (js <$> ["compare"; "comparison"; "benchmark"; "versus"; "vs";
                "difference"; "performance gap"; "relative"]));
    (js "general",
     mkAgent (js "General Assistant") (js "🤖")
       (js "Your Business Assistant") []) ].

Definition AGENTS_general : AgentConfig :=
  mkAgent (js "General Assistant") (js "🤖") (js "Your Business Assistant") [].

(** The keys [AGENTS] has an entry for. *)
Definition known (agentKey : jsstring) : Prop :=
  is_Some (JSMap.get agentKey AGENTS).

(** [selectAgent]: the thinking step it dispatches and the agents. *)
Definition selectAgent (userMessage : jsstring) : list Action * list jsstring :=
  let lowerMessage := toLowerCase userMessage in
  if test_alternatives_i
       (js <$> ["forecast"; "predict"; "train"; "process"; "clean"])
       lowerMessage
  then
    ([ADD_THINKING_STEP (js "🔄 Dynamic workflow for forecasting triggered")],
     [js "eda"; js "forecasting"])
  else
    match keyword_match AGENTS lowerMessage with
    | Some (agentKey, agent, _) =>
        ([ADD_THINKING_STEP
            (agent_emoji agent ++ js " " ++ agent_name agent
             ++ js " selected")],
         [agentKey])
    | None =>
        ([ADD_THINKING_STEP
            (agent_emoji AGENTS_general ++ js " General Assistant selected")],
         [js "general"])
    end.

(** [workflowMap]: name, time and details per agent key. *)
Definition workflowMap : list (jsstring * (jsstring * jsstring * jsstring)) :=
  [ (js "eda",
     (js "Analyzing Your Data", js "15-30s",
      js "Examining patterns, trends, and data quality"));
    (js "forecasting",
     (js "Generating Forecast", js "20-40s",
      js "Creating predictions based on historical patterns"));
    (js "whatif",
     (js "Running Scenarios", js "15-25s",
      js "Comparing different business scenarios"));
    (js "comparative",
     (js "Comparing Performance", js "15-30s",
      js "Benchmarking and identifying gaps"));
    (js "general",
     (js "Processing Request", js "10-20s",
      js "Understanding and responding to your query")) ].

Definition workflowMap_general : jsstring * jsstring * jsstring :=
  (js "Processing Request", js "10-20s",
   js "Understanding and responding to your query").

(** [workflowMap[key] || workflowMap.general], by the [name], [time]
    and [details] read from it: an inherited value is truthy, so it is
    the one read, and it has no [time] and no [details]. *)
Definition config_texts (key : jsstring)
    : option jsstring * option jsstring * option jsstring :=
  match read_property key workflowMap with
  | Own config => (Some config.1.1, Some config.1.2, Some config.2)
  | Inherited name => (name, None, None)
  | Missing =>
      (Some workflowMap_general.1.1, Some workflowMap_general.1.2,
       Some workflowMap_general.2)
  end.

(** [(AGENTS[key] || AGENTS.general).name]. *)
Definition agent_text (key : jsstring) : option jsstring :=
  match read_property key AGENTS with
  | Own agent => Some (agent_name agent)
  | Inherited name => name
  | Missing => Some (agent_name AGENTS_general)
  end.

Definition createWorkflowSteps (agentKeys : list jsstring)
    : list WorkflowStep :=
  imap
    (λ index key,
       let config := config_texts key in
       mkStep (js "step-" ++ nat_to_js (index + 1))
         config.1.1
         (if decide (index = 0) then active else pending)
         (if decide (0 < index) then [js "step-" ++ nat_to_js index] else [])
         config.1.2
         config.2
         (agent_text key))
    agentKeys.

(** The thinking steps [buildSystemPrompt] dispatches; [hasData] is
    [context.selectedLob?.hasData]. *)
Definition buildSystemPrompt_dispatches (hasData : bool) : list Action :=
  ADD_THINKING_STEP (js "📋 Building context...")
  :: (if hasData then [ADD_THINKING_STEP (js "✓ Context loaded")] else []).

Definition apology : jsstring :=
  js "Sorry, I'm having trouble connecting right now. Please try again.".

(** [AGENTS[agentKey]] as the loop reads it; with [undefined] in its
    place [buildSystemPrompt] throws. *)
Definition agent_of (agentKey : jsstring) : option AgentConfig :=
  match read_property agentKey AGENTS with
  | Own agent => Some agent
  | Inherited name => Some (inherited_agent name)
  | Missing => None
  end.

(** One iteration of the loop of [generateResponse] for the agent at
    index [i]. *)
Definition iteration (answers : Answers) (hasData : bool) (i : nat)
    (agentKey : jsstring) (s : LoopState) : StepOutcome :=
  match agent_of agentKey with
  | None =>
      Throw (mkLoop (ls_log s ++ buildSystemPrompt_dispatches hasData)
               (ls_requested s) (ls_finalResponse s) agentKey)
  | Some agent =>
      let currentStepId := stepId i in
      let before :=
        buildSystemPrompt_dispatches hasData
        ++ [UPDATE_WORKFLOW_STEP (set_status currentStepId active);
            ADD_THINKING_STEP
              (js "🔗 Connecting to AI for " ++ agent_name agent ++ js "...");
            ADD_THINKING_STEP
              (agent_emoji agent ++ js " " ++ agent_name agent
               ++ js " processing...")] in
      match answers (length (ls_requested s)) with
      | inl aiResponse =>
          Continue
            (mkLoop
               (ls_log s ++ before
                ++ [ADD_THINKING_STEP
                      (js "✅ " ++ agent_name agent ++ js " analysis complete");
                    UPDATE_WORKFLOW_STEP (set_status currentStepId completed)]
                ++ (if report_extracted aiResponse
                    then [ADD_THINKING_STEP (js "📄 Report data extracted")]
                    else []))
               (ls_requested s ++ [agentKey])
               (ls_finalResponse s ++ aiResponse ++ nl)
               agentKey)
      | inr _ =>
          Return (mkResult apology (js "general"))
            (mkLoop
               (ls_log s ++ before
                ++ [UPDATE_WORKFLOW_STEP (set_status currentStepId error);
                    CLEAR_THINKING_STEPS])
               (ls_requested s ++ [agentKey])
               (ls_finalResponse s)
               agentKey)
      end
  end.

Fixpoint loop (answers : Answers) (hasData : bool) (i : nat)
    (agentsToUse : list jsstring) (s : LoopState) : Run :=
  match agentsToUse with
  | [] =>
      mkRun
        (Some (mkResult
                 (or_else (trim (ls_finalResponse s))
                    (js "Sorry, I couldn't generate a response."))
                 (ls_finalAgentType s)))
        (ls_log s ++ [CLEAR_THINKING_STEPS])
        (ls_requested s)
  | agentKey :: rest =>
      match iteration answers hasData i agentKey s with
      | Continue s' => loop answers hasData (S i) rest s'
      | Return r s' => mkRun (Some r) (ls_log s') (ls_requested s')
      | Throw s' => mkRun None (ls_log s') (ls_requested s')
      end
  end.

(** [generateResponse] once the agents are selected. *)
Definition run_agents (answers : Answers) (hasData : bool)
    (selection : list Action * list jsstring) : Run :=
  let workflowSteps := createWorkflowSteps selection.2 in
  loop answers hasData 0 selection.2
    (mkLoop
       ([ADD_THINKING_STEP (js "🔍 Analyzing request...")] ++ selection.1
        ++ [SET_WORKFLOW workflowSteps])
       [] [] (js "general")).

Definition generateResponse (answers : Answers) (userMessage : jsstring)
    (hasData : bool) : Run :=
  run_agents answers hasData (selectAgent userMessage).

End Handler.
End MultiAgentChatHandler.

(** ** [EnhancedMultiAgentChatHandler] *)

Module EnhancedMultiAgentChatHandler.
Section Handler.
Context `{Builtins}.

Definition ENHANCED_AGENTS : list (jsstring * AgentConfig) :=
  [ (js "onboarding",
     mkAgent (js "Onboarding Guide") (js "🚀") (js "User Onboarding & Setup")
       (js <$> ["start"; "begin"; "setup"; "help"; "guide"; "onboard";
                "getting started"]));
    (js "eda",
     mkAgent (js "Data Explorer") (js "🔬") (js "Exploratory Data Analysis")
       (js <$> ["explore"; "eda"; "analyze"; "distribution"; "pattern";
                "correlation"; "outlier"; "statistics"; "summary";
                "data quality"]));
    (js "preprocessing",
     mkAgent (js "Data Engineer") (js "🔧") (js "Data Processing & Cleaning")
       (js <$> ["clean"; "preprocess"; "prepare"; "missing"; "outliers";
                "transform"; "normalize"; "feature engineering"]));
    (js "modeling",
     mkAgent (js "ML Engineer") (js "🤖") (js "Model Training & Selection")
       (js <$> ["model"; "train"; "machine learning"; "algorithm"; "xgboost";
                "prophet"; "lightgbm"; "cross validation"]));
    (js "forecasting",
     mkAgent (js "Forecast Analyst") (js "📈")
       (js "Predictive Analytics & Forecasting")
       (js <$> ["forecast"; "predict"; "future"; "projection"; "trend";
                "time series"; "prediction intervals"]));
    (js "validation",
     mkAgent (js "Quality Analyst") (js "✅") (js "Model Validation & Testing")
       (js <$> ["validate"; "test"; "accuracy"; "performance"; "metrics";
                "evaluation"; "residuals"]));
    (js "insights",
     mkAgent (js "Business Analyst") (js "💡")
       (js "Business Insights & Strategy")
       (js <$> ["insights"; "business"; "strategy"; "impact";
                "recommendations"; "opportunities"; "risks"]));
    (js "general",
     mkAgent (js "BI Assistant") (js "🤖") (js "General BI Support") []) ].

(** The keys [ENHANCED_AGENTS] has an entry for. *)
Definition known (agentKey : jsstring) : Prop :=
  is_Some (JSMap.get agentKey ENHANCED_AGENTS).

(** [validateChatMessage]: the error of an invalid message. *)
Definition validateChatMessage (message : jsstring) : option jsstring :=
  if decide (message = []) then
    Some (js "Message must be a non-empty string")
  else if decide (length (trim message) = 0) then
    Some (js "Message cannot be empty")
  else if decide (10000 < Z.of_nat (length message))%Z then
    Some (js "Message is too long (max 10,000 characters)")
  else None.

Record Selection := mkSelection {
  agents : list jsstring;
  sel_workflow : list WorkflowStep;
  reasoning : jsstring
}.

Definition pending_step (i name : string) (deps : list string)
    (time details agent : string) : WorkflowStep :=
  mkStep (js i) (Some (js name)) pending (js <$> deps) (Some (js time))
    (Some (js details)) (Some (js agent)).

(** [selectOptimalAgents]; [hasData] is [context.selectedLob?.hasData]. *)
Definition selectOptimalAgents (userMessage : jsstring) (hasData : bool)
    : Selection :=
  let lowerMessage := toLowerCase userMessage in
  if test_alternatives_i
       (js <$> ["start"; "begin"; "help"; "guide"; "getting started";
                "onboard"; "setup"]) lowerMessage
     && negb hasData
  then
    mkSelection [js "onboarding"]
      [ pending_step "step-1" "Business Setup" [] "2m"
          "Select Business Unit and Line of Business" "Onboarding Guide";
        pending_step "step-2" "Data Upload" ["step-1"] "1m"
          "Upload your dataset for analysis" "Onboarding Guide";
        pending_step "step-3" "Analysis Planning" ["step-2"] "30s"
          "Plan your analysis workflow" "Onboarding Guide" ]
      (js "User needs onboarding guidance")
  else if test_alternatives_i
            (js <$> ["forecast"; "predict"; "train"; "process";
                     "complete analysis"; "end to end"]) lowerMessage
  then
    mkSelection
      (js <$> ["eda"; "preprocessing"; "modeling"; "validation";
               "forecasting"; "insights"])
      [ pending_step "step-1" "Exploratory Data Analysis" [] "45s"
          "Comprehensive statistical analysis" "Data Explorer";
        pending_step "step-2" "Data Preprocessing" ["step-1"] "30s"
          "Clean and prepare data" "Data Engineer";
        pending_step "step-3" "Model Training" ["step-2"] "2m"
          "Train multiple forecasting models" "ML Engineer";
        pending_step "step-4" "Model Validation" ["step-3"] "30s"
          "Validate model performance" "Quality Analyst";
        pending_step "step-5" "Forecast Generation" ["step-4"] "15s"
          "Generate forecasts with confidence intervals" "Forecast Analyst";
        pending_step "step-6" "Business Insights" ["step-5"] "20s"
          "Extract strategic business insights" "Business Analyst" ]
      (js "Complete forecasting workflow requested")
  else
    match keyword_match ENHANCED_AGENTS lowerMessage with
    | Some (agentKey, agent, keyword) =>
        mkSelection [agentKey]
          [ mkStep (js "step-1") (Some (agent_specialty agent)) pending []
              (Some (js "30s"))
              (Some (agent_specialty agent ++ js " analysis"))
              (Some (agent_name agent)) ]
          (agent_name agent ++ js " selected for " ++ keyword
           ++ js "-related query")
    | None =>
        mkSelection [js "general"]
          [ pending_step "step-1" "General Assistance" [] "10s"
              "Provide general help" "BI Assistant" ]
          (js "General assistant for broad query")
    end.

(** [error instanceof Error ? error.message : '...']. *)
Definition error_text (e : Thrown) : jsstring :=
  match e with
  | ThrownError m => m
  | ThrownOther => js "An unexpected error occurred"
  end.

(** What one agent adds to the multi-agent report. *)
Definition completed_section (agent : AgentConfig) (aiResponse : jsstring)
    : jsstring :=
  js "## " ++ agent_name agent ++ nl ++ strip_report aiResponse ++ nl ++ nl.

Definition failed_section (agent : AgentConfig) (e : Thrown) : jsstring :=
  js "## " ++ agent_name agent ++ nl ++ js "⚠️ " ++ error_text e ++ nl ++ nl.

(** [aggregatedInsights]: the parsed reports under their agent keys, in
    the order of the object's keys. *)
Definition Insights := JSMap.t Json.

(** [aggregatedInsights[agentKey] = reportData] when the answer holds a
    report block that parses. *)
Definition aggregate (agentKey aiResponse : jsstring) (insights : Insights)
    : Insights :=
  match report_data aiResponse with
  | Some reportData => JSMap.set agentKey reportData insights
  | None => insights
  end.

(** One iteration of the loop of [generateEnhancedResponse]; [single] is
    [agents.length === 1].  For an agent of [ENHANCED_AGENTS], building
    the context and the prompt is taken not to throw, so that what the
    [try] block can throw comes from the request.  With an inherited
    value in the agent's place the prompt cannot be built, as the value
    has no [capabilities]: the [catch] block notes the [TypeError] and no
    request is issued.  With [undefined] in its place the [catch] block
    throws in turn. *)
Definition iteration (answers : Answers) (single : bool)
    (agentKey : jsstring) (insights : Insights) (s : LoopState)
    : StepOutcome * Insights :=
  let analyzing agent :=
    [ADD_THINKING_STEP
       (agent_emoji agent ++ js " " ++ agent_name agent
        ++ js " analyzing...")] in
  match read_property agentKey ENHANCED_AGENTS with
  | Missing =>
      (Throw (mkLoop (ls_log s) (ls_requested s) (ls_finalResponse s)
                agentKey),
       insights)
  | Inherited name =>
      let agent := inherited_agent name in
      (Continue
         (mkLoop (ls_log s ++ analyzing agent)
            (ls_requested s)
            (ls_finalResponse s
             ++ failed_section agent (ThrownError joinOfUndefined))
            agentKey),
       insights)
  | Own agent =>
      match answers (length (ls_requested s)) with
      | inl aiResponse =>
          (Continue
             (mkLoop
                (ls_log s ++ analyzing agent
                 ++ [ADD_THINKING_STEP
                       (js "✅ " ++ agent_name agent ++ js " analysis complete")]
                 ++ (if report_extracted aiResponse
                     then [ADD_THINKING_STEP
                             (js "📊 Insights extracted and processed")]
                     else []))
                (ls_requested s ++ [agentKey])
                (if single then aiResponse
                 else ls_finalResponse s ++ completed_section agent aiResponse)
                agentKey),
           aggregate agentKey aiResponse insights)
      | inr e =>
          (Continue
             (mkLoop (ls_log s ++ analyzing agent)
                (ls_requested s ++ [agentKey])
                (ls_finalResponse s ++ failed_section agent e)
                agentKey),
           insights)
      end
  end.

(** The sections the loop appends for [agentKeys], the first of which
    issues request number [i]. *)
Fixpoint sections (answers : Answers) (i : nat) (agentKeys : list jsstring)
    : list jsstring :=
  match agentKeys with
  | [] => []
  | agentKey :: rest =>
      match read_property agentKey ENHANCED_AGENTS with
      | Own agent =>
          match answers i with
          | inl aiResponse => completed_section agent aiResponse
          | inr e => failed_section agent e
          end :: sections answers (S i) rest
      | Inherited name =>
          failed_section (inherited_agent name) (ThrownError joinOfUndefined)
          :: sections answers i rest
      | Missing => []
      end
  end.

(** The insights the loop adds to [insights] for [agentKeys], the first
    of which issues request number [i]. *)
Fixpoint aggregated (answers : Answers) (i : nat) (agentKeys : list jsstring)
    (insights : Insights) : Insights :=
  match agentKeys with
  | [] => insights
  | agentKey :: rest =>
      match read_property agentKey ENHANCED_AGENTS with
      | Own _ =>
          aggregated answers (S i) rest
            match answers i with
            | inl aiResponse => aggregate agentKey aiResponse insights
            | inr _ => insights
            end
      | Inherited _ => aggregated answers i rest insights
      | Missing => insights
      end
  end.

(** Whether [...data.recommendations] is reached and throws: the value
    is truthy and does not iterate. *)
Definition unspreadable (data : Json) : bool :=
  match property (js "recommendations") data with
  | Some recommendations =>
      truthy recommendations && negb (iterable recommendations)
  | None => false
  end.

(** Whether [calculateOverallConfidence] throws on [data]: a truthy
    [data.confidence] becomes an operand of [+], a truthy
    [data.qualityScore] one of [/], and either throws when the value
    cannot be converted to a primitive. *)
Definition unscorable (data : Json) : bool :=
  match property (js "confidence") data with
  | Some confidence => truthy confidence && unconvertible confidence
  | None => false
  end
  || match property (js "qualityScore") data with
     | Some qualityScore => truthy qualityScore && unconvertible qualityScore
     | None => false
     end.

(** Whether [generateComprehensiveReport] throws instead of returning a
    report.  It reads [data.title] of every insight, which throws a
    [TypeError] on [null]; [synthesizeRecommendations] then spreads
    every truthy [data.recommendations], which throws on a value that
    does not iterate; [calculateOverallConfidence] throws as described
    above.  Nothing else in the three throws on values [JSON.parse]
    returned, the limits of the engine on the size of a spread aside. *)
Definition report_throws (insights : Insights) : bool :=
  existsb is_null (snd <$> insights)
  || existsb unspreadable (snd <$> insights)
  || existsb unscorable (snd <$> insights).

(** Whether the statement after the loop throws: the comprehensive
    report is built when [agents.length > 1] and some insight was
    aggregated; [count] is [agents.length]. *)
Definition aggregation_throws (count : nat) (insights : Insights) : bool :=
  bool_decide (1 < count) && bool_decide (0 < JSMap.size insights)
  && report_throws insights.

Definition fallback : jsstring :=
  js "I apologize, but I couldn't generate a complete response. Please try again.".

(** The loop over the agents still to run and what follows it; [count]
    is [agents.length].  The comprehensive report is built outside the
    [try] block: when that throws, the promise is rejected before
    [CLEAR_THINKING_STEPS] is dispatched. *)
Fixpoint loop (answers : Answers) (count : nat) (agentKeys : list jsstring)
    (insights : Insights) (s : LoopState) : Run :=
  match agentKeys with
  | [] =>
      if aggregation_throws count insights
      then mkRun None (ls_log s) (ls_requested s)
      else
        mkRun
          (Some (mkResult (or_else (trim (ls_finalResponse s)) fallback)
                   (ls_finalAgentType s)))
          (ls_log s ++ [CLEAR_THINKING_STEPS])
          (ls_requested s)
  | agentKey :: rest =>
      match iteration answers (bool_decide (count = 1)) agentKey insights s
      with
      | (Continue s', insights') => loop answers count rest insights' s'
      | (Return r s', _) => mkRun (Some r) (ls_log s') (ls_requested s')
      | (Throw s', _) => mkRun None (ls_log s') (ls_requested s')
      end
  end.

(** [generateEnhancedResponse] once the agents are selected. *)
Definition run_selection (answers : Answers) (sel : Selection) : Run :=
  loop answers (length (agents sel)) (agents sel) []
    (mkLoop
       ([ADD_THINKING_STEP
           (js "🔍 Analyzing request with enhanced intelligence...");
         ADD_THINKING_STEP (js "🧠 Agent Selection: " ++ reasoning sel)]
        ++ (if decide (1 < length (sel_workflow sel))
            then [SET_WORKFLOW (sel_workflow sel)] else []))
       [] [] (js "general")).

Definition generateEnhancedResponse (answers : Answers)
    (userMessage : jsstring) (hasData : bool) : Run :=
  match validateChatMessage userMessage with
  | Some _ => mkRun None [] []
  | None =>
      run_selection answers
        (selectOptimalAgents (sanitizeUserInput userMessage) hasData)
  end.

End Handler.
End EnhancedMultiAgentChatHandler.

(** ** Concrete environments for the examples *)

(** Numbers given by their rendering. *)
Definition rendered_numbers : JSNumber :=
  {| Number := jsstring; numberToString := λ x, x; number_0_7 := js "0.7" |}.

(** The built-ins on ASCII text without markup, where lower-casing folds
    the letters A to Z and sanitising only trims.  Of the JSON texts only
    [null] is taken to parse, which only matters for texts that hold a
    report block; the message is the one V8 gives. *)
Definition ascii_builtins : Builtins :=
  {| toLowerCase := fmap fold_ascii;
     sanitizeUserInput := trim;
     jsonParse := λ text, if decide (text = js "null") then Some JNull
                           else None;
     joinOfUndefined :=
       js "Cannot read properties of undefined (reading 'join')" |}.

(** 101 stores under the keys ["0"] to ["100"]. *)
Definition ops101 : list (APICache.SetOp nat) :=
  (λ i, APICache.mkSetOp (nat_to_js i) i 1000 (Z.of_nat i) (Z.of_nat i))
  <$> seq 0 101.

(** A completion with one choice holding [text]. *)
Definition demo_completion (text : jsstring) : Completion :=
  mkCompletion (js "cmpl-1") (js "chat.completion") 0 (js "gpt-4o-mini")
    [mkChoice 0 (mkChoiceMessage assistant (Some text)) (js "stop")] None.

(** A call with defaults everywhere, whose only message is the decimal
    rendering of [i], issued and served at clock [i]. *)
Definition demo_call (i : nat) : @Client.Call rendered_numbers :=
  Client.mkCall
    (Client.mkParams None [mkMessage user (nat_to_js i)] None None None)
    (Z.of_nat i) (Z.of_nat i)
    (Client.mkTick (Z.of_nat i) (inl (demo_completion (js "ok")))
       (Z.of_nat i) (Z.of_nat i)).

Definition demo_calls : list (@Client.Call rendered_numbers) :=
  demo_call <$> seq 0 60.

Definition demo_rounds : list (Z * Z) :=
  (λ i, (Z.of_nat i, Z.of_nat i)) <$> seq 0 60.

(** A one-step workflow whose step is completed. *)
Definition finished_workflow : AppState :=
  mkApp [mkStep (js "step-1") (Some (js "Analyzing Your Data")) completed []
           (Some (js "15-30s"))
           (Some (js "Examining patterns, trends, and data quality"))
           (Some (js "EDA Agent"))]
    false [].

(** Every request is refused for want of valid credentials. *)
Definition answers_unauthorized : Answers :=
  λ _, inr (ThrownError
              (js "Invalid API key. Please check your OpenAI configuration.")).

(** The first request is answered, every later one fails. *)
Definition answers_second_fails : Answers :=
  λ n, match n with
       | 0 => inl (js "EDA done")
       | _ => inr (ThrownError
                     (js "Network connection failed. Please check your internet connection."))
       end.

(** A first answer that ends in a report block holding [null], every
    later one a plain text. *)
Definition answers_null_report : Answers :=
  λ n, match n with
       | 0 => inl (js "EDA done" ++ nl ++ js "[REPORT_DATA]null[/REPORT_DATA]")
       | _ => inl (js "Done")
       end.

(** A call whose provider answers with a 500. *)
Definition failing_call : @Client.Call rendered_numbers :=
  Client.mkCall
    (Client.mkParams None [mkMessage user (js "hello")] None None None)
    5 5
    (Client.mkTick 5 (inr (mkProviderError (Some 500%Z) None (js "boom")))
       5 5).

(** The first demonstration call issued again at clock 10. *)
Definition demo_repeat : @Client.Call rendered_numbers :=
  Client.mkCall (Client.call_params (demo_call 0)) 10 10
    (Client.call_tick (demo_call 0)).

(** The closure of a call with defaults and one message, and the tick
    on which the provider fails it. *)
Definition demo_queued : @Client.Queued rendered_numbers :=
  Client.mkQueued
    (Client.provider_request (Client.call_params failing_call)) true
    (js "chat:gpt-4o-mini:0.7:aGVsbG8=").

(** Two prompts that share their first 39 characters. *)
Definition shared_prefix : jsstring :=
  js "You are a helpful business intelligence".

Definition prompt_a : jsstring := shared_prefix ++ js " assistant".

Section KeyExamples.
Context `{JSNumber}.



End KeyExamples.

(** ** More of the API client *)

Module CacheOps.
Section CacheOps.
Context {T : Type}.

(** [getCacheStats()] at clock [now]: the number of entries, the number
    of entries with [now < expires], and the two operands of the
    division that gives the hit rate. *)
Record CacheStats := mkStats {
  total : nat;
  valid : nat;
  hitRate : nat * nat
}.

Definition getCacheStats (now : Z) (c : APICache.cache T) : CacheStats :=
  let valid :=
    filter (λ entry, (now < APICache.expires entry)%Z) (snd <$> c) in
  mkStats (JSMap.size c) (length valid)
    (length valid, Nat.max (JSMap.size c) 1).

(** The calls a cache instance receives. *)
Inductive Op :=
  | Set_ (key : jsstring) (d : T) (ttl now1 now2 : Z)
  | Get (key : jsstring) (now : Z)
  | Clear.

Definition step (c : APICache.cache T) (o : Op) : APICache.cache T :=
  match o with
  | Set_ key d ttl now1 now2 => APICache.set key d ttl now1 now2 c
  | Get key now => (APICache.get key now c).2
  | Clear => APICache.clear c
  end.

Definition run (ops : list Op) (c : APICache.cache T) : APICache.cache T :=
  fold_left step ops c.

(** What a JavaScript [Map] of at most [maxSize] entries looks like. *)
Definition well_formed (c : APICache.cache T) : Prop :=
  NoDup (JSMap.keys c) ∧ JSMap.size c ≤ APICache.maxSize.

End CacheOps.
Arguments CacheStats : clear implicits.
Arguments Op : clear implicits.
End CacheOps.

Module Burst.
Section Burst.
Context `{JSNumber}.

(** The client together with its worker: [inflight] holds the closure
    the worker is awaiting, and [processing] is set exactly while there
    is one. *)
Record Worker := mkWorker {
  client : Client.t;
  inflight : option Client.Queued
}.

(** The queued closure up to its first [await]: the timestamp is
    recorded and the request handed to the provider. *)
Definition start (q : Client.Queued) (t_record : Z) (st : Client.t)
    : Client.t :=
  Client.mkClient (Client.cache st)
    (RateLimiter.recordRequest t_record Client.identifier
       (Client.rateLimiter st))
    (Client.requestQueue st) (Client.providerCalls st ++ [Client.q_request q]).

(** The rest of the closure, once the provider has answered. *)
Definition finish (q : Client.Queued) (tk : Client.Tick) (st : Client.t)
    : Settled * Client.t :=
  match Client.reply tk with
  | inl completion =>
      let response := Client.response_of completion in
      let cache1 :=
        if Client.q_useCache q then
          APICache.set (Client.q_cacheKey q) response APICache.defaultTTL
            (Client.t_set1 tk) (Client.t_set2 tk) (Client.cache st)
        else Client.cache st in
      (Resolved (Fresh response),
       Client.mkClient cache1 (Client.rateLimiter st) (Client.requestQueue st)
         (Client.providerCalls st))
  | inr err => (Rejected (handleError err), st)
  end.

(** One call that is not awaited.  [createChatCompletion] pushes the
    closure and calls [processQueue]; when no worker is running, that
    call shifts the queue and runs the closure up to its first [await]
    before [createChatCompletion] returns. *)
Definition submit (c : Client.Call) (w : Worker) : Client.Submitted * Worker :=
  let '(s, st1) :=
    Client.createChatCompletion (Client.call_params c) (Client.call_t_get c)
      (Client.call_t_check c) (client w) in
  match s, inflight w, Client.requestQueue st1 with
  | Client.Enqueued, None, q :: rest =>
      (s,
       mkWorker
         (start q (Client.t_record (Client.call_tick c))
            (Client.mkClient (Client.cache st1) (Client.rateLimiter st1) rest
               (Client.providerCalls st1)))
         (Some q))
  | _, _, _ => (s, mkWorker st1 (inflight w))
  end.

(** Calls issued back to back, none of them awaited. *)
Fixpoint submit_all (calls : list Client.Call) (w : Worker)
    : list Client.Submitted * Worker :=
  match calls with
  | [] => ([], w)
  | c :: calls' =>
      let '(s, w1) := submit c w in
      let '(ss, w2) := submit_all calls' w1 in
      (s :: ss, w2)
  end.

(** The worker afterwards: the closure in flight gets its answer, then
    the queue is processed. *)
Definition drain (ticks : list Client.Tick) (w : Worker)
    : list Settled * Client.t :=
  match inflight w, ticks with
  | Some q, tk :: ticks' =>
      let '(o, st1) := finish q tk (client w) in
      let '(os, st2) := Client.processQueue ticks' st1 in
      (o :: os, st2)
  | _, _ => ([], client w)
  end.

(** [getQueueSize()]. *)
Definition getQueueSize (st : Client.t) : nat :=
  length (Client.requestQueue st).

End Burst.
End Burst.

(** Sixty-one calls with distinct messages, all issued at clock 7 on a
    client without history; the provider is reached from clock 8 on. *)
Definition burst_call (i : nat) : @Client.Call rendered_numbers :=
  Client.mkCall
    (Client.mkParams None [mkMessage user (nat_to_js i)] None None None)
    7 7
    (Client.mkTick (8 + Z.of_nat i) (inl (demo_completion (js "ok")))
       (8 + Z.of_nat i) (8 + Z.of_nat i)).

Definition burst_calls : list (@Client.Call rendered_numbers) :=
  burst_call <$> seq 0 61.

Definition idle_worker : @Burst.Worker rendered_numbers :=
  Burst.mkWorker (@Client.new rendered_numbers) None.

(** A cache of two entries, stored at clock 0 for 300 ms and at clock 5
    for 1000 ms. *)
Definition two_entries : APICache.cache nat :=
  APICache.set (js "b") 2 1000 5 5
    (APICache.set (js "a") 1 300 0 0 APICache.empty).

(** A cache at capacity: the keys ["1"] to ["100"]. *)
Definition full_cache : APICache.cache nat :=
  APICache.run_sets ops101 APICache.empty.

(** Fifty-nine timestamps recorded between clocks 1 and 59. *)
Definition busy_limiter : RateLimiter.t :=
  <[js "openai-chat" := Z.of_nat <$> seq 1 59]> RateLimiter.empty.

(** The closure of the demonstration call number 1. *)
Definition answered_queued : @Client.Queued rendered_numbers :=
  Client.mkQueued
    (Client.provider_request (Client.call_params (demo_call 1))) true
    (js "chat:gpt-4o-mini:0.7:MQ==").

(** A client whose queue holds two closures while the worker is idle:
    first the one the provider will fail, then one it will answer. *)
Definition two_queued_client : @Client.t rendered_numbers :=
  Client.mkClient APICache.empty RateLimiter.empty
    [demo_queued; answered_queued] [].

(** ** The reducer over a handler's log *)

(** Actions that neither register nor reset a workflow and do not set
    the processing flag: thinking steps and step updates. *)
Definition keeps_workflow (a : Action) : bool :=
  match a with
  | SET_WORKFLOW _ | RESET_WORKFLOW | SET_PROCESSING _ => false
  | _ => true
  end.

(** Actions that leave the thinking steps already shown in place. *)
Definition keeps_thoughts (a : Action) : bool :=
  match a with
  | SET_THINKING_STEPS _ | CLEAR_THINKING_STEPS => false
  | _ => true
  end.

(** The thinking steps among the actions of a log. *)
Definition thoughts_of (log : list Action) : list jsstring :=
  omap (λ a, match a with
             | ADD_THINKING_STEP payload => Some payload
             | _ => None
             end) log.

(** Whether a step still counts as work in progress. *)
Definition in_progress (s : Status) : bool :=
  bool_decide (s = active) || bool_decide (s = pending).

(** Two answers, each ending in white space. *)
Definition answers_both : Answers :=
  λ n, match n with
       | 0 => inl (js "EDA done ")
       | _ => inl (js "Forecast ready" ++ nl)
       end.

(** The selection [selectAgent] makes for a forecasting request. *)
Definition forecast_selection : list Action * list jsstring :=
  ([ADD_THINKING_STEP (js "🔄 Dynamic workflow for forecasting triggered")],
   [js "eda"; js "forecasting"]).

(** ** Reading Base64 back *)

(** The place of a digit in the alphabet. *)
Definition b64_value (c : N) : N :=
  match list_find (λ x, x = c) b64_alphabet with
  | Some (i, _) => N.of_nat i
  | None => 0%N
  end.

(** The bytes a Base64 text stands for; a text cut after the second
    digit of a group still gives that group's first byte. *)
Fixpoint unbase64 (s : jsstring) : list N :=
  match s with
  | x :: y :: rest1 =>
      let a := N.lor (N.shiftl (b64_value x) 2) (N.shiftr (b64_value y) 4) in
      match rest1 with
      | z :: w :: rest =>
          if (z =? 61)%N then [a]
          else
            let b :=
              N.lor (N.shiftl (N.land (b64_value y) 15) 4)
                (N.shiftr (b64_value z) 2) in
            if (w =? 61)%N then [a; b]
            else
              let c :=
                N.lor (N.shiftl (N.land (b64_value z) 3) 6) (b64_value w) in
              a :: b :: c :: unbase64 rest
      | _ => [a]
      end
  | _ => []
  end.

(** The values a byte can take. *)
Definition bytes : list N := N.of_nat <$> seq 0 256.

(** ** The conversation history of the handlers *)

Global Instance Role_eq_dec : EqDecision Role.
Proof. solve_decision. Defined.

Module History.

(** [MultiAgentChatHandler.generateResponse]: what the loop does to
    [conversationHistory], from the agent whose request is number [n]
    on.  The user's message is pushed before each request and the answer
    after it; a failing request ends the run, and so does an agent key
    under which nothing is found, for which nothing is pushed. *)
Fixpoint basic (answers : Answers) (userMessage : jsstring) (n : nat)
    (agentsToUse : list jsstring) (h : list Message) : list Message :=
  match agentsToUse with
  | [] => h
  | agentKey :: rest =>
      match MultiAgentChatHandler.agent_of agentKey with
      | None => h
      | Some _ =>
          let h1 := h ++ [mkMessage user userMessage] in
          match answers n with
          | inl aiResponse =>
              basic answers userMessage (S n) rest
                (h1 ++ [mkMessage assistant aiResponse])
          | inr _ => h1
          end
      end
  end.

(** [EnhancedMultiAgentChatHandler.generateEnhancedResponse]: the same
    for its loop, which goes on after a failing request;
    [sanitizedMessage] is the sanitised message.  With an inherited value
    in the agent's place the prompt cannot be built and nothing is
    pushed. *)
Fixpoint enhanced (answers : Answers) (sanitizedMessage : jsstring) (n : nat)
    (agents : list jsstring) (h : list Message) : list Message :=
  match agents with
  | [] => h
  | agentKey :: rest =>
      match read_property agentKey
              EnhancedMultiAgentChatHandler.ENHANCED_AGENTS
      with
      | Missing => h
      | Inherited _ => enhanced answers sanitizedMessage n rest h
      | Own _ =>
          let h1 := h ++ [mkMessage user sanitizedMessage] in
          match answers n with
          | inl aiResponse =>
              enhanced answers sanitizedMessage (S n) rest
                (h1 ++ [mkMessage assistant aiResponse])
          | inr _ => enhanced answers sanitizedMessage (S n) rest h1
          end
      end
  end.

(** [conversationHistory.slice(-10)], the history a request of the
    enhanced handler carries. *)
Definition enhanced_context (h : list Message) : list Message :=
  drop (length h - 10) h.

(** What agent number [n] adds to the history of the enhanced handler. *)
Definition exchange (answers : Answers) (sanitizedMessage : jsstring)
    (n : nat) : list Message :=
  mkMessage user sanitizedMessage
  :: match answers n with
     | inl aiResponse => [mkMessage assistant aiResponse]
     | inr _ => []
     end.

End History.

(** ** Follow-up questions: [validateResponses] *)

Module FollowUp.

Inductive QuestionType :=
  | single_choice | multiple_choice | text_input | number_input.

Record FollowUpQuestion := mkQuestion {
  fq_id : jsstring;
  fq_question : jsstring;
  fq_type : QuestionType;
  fq_options : option (list jsstring);
  fq_required : bool;
  fq_category : jsstring
}.

Section Responses.
Context `{JSNumber}.

(** [string | string[] | number]. *)
Inductive Answer :=
  | Text (s : jsstring)
  | Choices (l : list jsstring)
  | Amount (x : Number).

Record UserResponse := mkUserResponse {
  questionId : jsstring;
  answer : Answer
}.

(** [new Map(responses.map(r => [r.questionId, r]))]. *)
Definition responseMap (responses : list UserResponse)
    : JSMap.t UserResponse :=
  fold_left (λ m r, JSMap.set (questionId r) r m) responses [].

(** The errors the body of the [forEach] pushes for one question. *)
Definition check (m : JSMap.t UserResponse) (question : FollowUpQuestion)
    : list jsstring :=
  (if fq_required question
      && match JSMap.get (fq_id question) m with
         | Some _ => false
         | None => true
         end
   then [js "Please answer the required question: " ++ fq_question question]
   else [])
  ++ match JSMap.get (fq_id question) m with
     | Some response =>
         match fq_type question, fq_options question, answer response with
         | single_choice, Some options, Text s =>
             if bool_decide (s ∈ options) then []
             else [js "Invalid option selected for: " ++ fq_question question]
         | _, _, _ => []
         end
     | None => []
     end.

(** [validateResponses]: [isValid] and [errors]. *)
Definition validateResponses (questions : list FollowUpQuestion)
    (responses : list UserResponse) : bool * list jsstring :=
  let errors := flat_map (check (responseMap responses)) questions in
  (bool_decide (length errors = 0), errors).

End Responses.
End FollowUp.

(** A required single-choice question and two answers to it. *)
Definition horizon_question : FollowUp.FollowUpQuestion :=
  FollowUp.mkQuestion (js "horizon") (js "Forecast horizon?")
    FollowUp.single_choice (Some [js "30 days"; js "90 days"]) true
    (js "forecasting").

Definition answer_bad : @FollowUp.UserResponse rendered_numbers :=
  FollowUp.mkUserResponse (js "horizon") (FollowUp.Text (js "1 year")).

Definition answer_good : @FollowUp.UserResponse rendered_numbers :=
  FollowUp.mkUserResponse (js "horizon") (FollowUp.Text (js "30 days")).

(** ** The recommendations of a multi-agent report *)

Module Report.

(** [Array.from(new Set(l))] from the elements not yet in [seen]: every
    element once, at the place of its first occurrence. *)
Fixpoint distinct_from (seen l : list jsstring) : list jsstring :=
  match l with
  | [] => []
  | x :: l' =>
      if decide (x ∈ seen) then distinct_from seen l'
      else x :: distinct_from (x :: seen) l'
  end.

(** [synthesizeRecommendations] on insights given, per agent in the
    order of the object's keys, by their [recommendations]: absent, or
    an array of strings. *)
Definition synthesizeRecommendations
    (insights : JSMap.t (option (list jsstring))) : list jsstring :=
  let allRecommendations :=
    flat_map (λ data, match data with
                      | Some recommendations => recommendations
                      | None => []
                      end) (snd <$> insights) in
  take 5 (distinct_from [] allRecommendations).

End Report.

(** The insights of three agents, the last of which repeats both
    recommendations of the first, in the other order, before a new one. *)
Definition demo_insights : JSMap.t (option (list jsstring)) :=
  [ (js "eda", Some [js "Clean the data"; js "Review outliers"]);
    (js "modeling", None);
    (js "insights",
     Some [js "Review outliers"; js "Clean the data"; js "Plan capacity"]) ].

(** ** The reducer: selection and messages *)

Module Session.
Section Session.
(** Business units and lines of business; the reducer only reads the
    lines of business of a unit. *)
Context {BusinessUnit LineOfBusiness : Type}.
Context (lobs : BusinessUnit → list LineOfBusiness).

Record t := mkSession {
  app : AppState;
  selectedBu : option BusinessUnit;
  selectedLob : option LineOfBusiness
}.

Inductive SessionAction :=
  | SET_SELECTED_BU (payload : option BusinessUnit)
  | SET_SELECTED_LOB (payload : option LineOfBusiness)
  | Workflow (action : Action).

(** The cases of [appReducer] for the two selections, next to the ones
    modelled by [appReducer] above; [SET_SELECTED_LOB] also resets the
    analysed data, which is outside this slice of the state. *)
Definition reducer (state : t) (action : SessionAction) : t :=
  match action with
  | SET_SELECTED_BU payload =>
      mkSession (mkApp [] false (thinkingSteps (app state))) payload
        (bu ← payload; head (lobs bu))
  | SET_SELECTED_LOB payload =>
      let isStillProcessingOnLobChange :=
        existsb (λ step, bool_decide (step_status step = active)
                         || bool_decide (step_status step = pending))
          (workflow (app state)) in
      mkSession (mkApp [] isStillProcessingOnLobChange
                   (thinkingSteps (app state)))
        (selectedBu state) payload
  | Workflow action =>
      mkSession (appReducer (app state) action) (selectedBu state)
        (selectedLob state)
  end.

Definition dispatch_all (state : t) (log : list SessionAction) : t :=
  fold_left reducer log state.

End Session.
Arguments t : clear implicits.
Arguments SessionAction : clear implicits.
End Session.

Module Messages.

(** The fields of a chat message the reducer and the chat panel's
    submit handler read and write. *)
Record ChatMessage := mkChat {
  m_id : jsstring;
  m_role : Role;
  m_content : jsstring;
  m_isTyping : option bool;
  m_suggestions : option (list jsstring);
  m_agentType : option jsstring
}.

(** [Partial<ChatMessage>]. *)
Record ChatUpdate := mkChatUpdate {
  p_id : option jsstring;
  p_role : option Role;
  p_content : option jsstring;
  p_isTyping : option bool;
  p_suggestions : option (list jsstring);
  p_agentType : option jsstring
}.

(** [{ ...message, ...payload }]. *)
Definition merge (message : ChatMessage) (payload : ChatUpdate)
    : ChatMessage :=
  mkChat (default (m_id message) (p_id payload))
    (default (m_role message) (p_role payload))
    (default (m_content message) (p_content payload))
    (match p_isTyping payload with
     | Some b => Some b
     | None => m_isTyping message
     end)
    (match p_suggestions payload with
     | Some l => Some l
     | None => m_suggestions message
     end)
    (match p_agentType payload with
     | Some a => Some a
     | None => m_agentType message
     end).

(** Whether [m.isTyping] is truthy. *)
Definition typing (message : ChatMessage) : bool :=
  default false (m_isTyping message).

Inductive MessageAction :=
  | ADD_MESSAGE (payload : ChatMessage)
  | UPDATE_LAST_MESSAGE (payload : ChatUpdate)
  | STREAM_UPDATE_LAST_MESSAGE (contentChunk : jsstring).

(** [updatedMessages[lastMessageIndex] = f(...)] when there is a last
    message. *)
Definition update_last (f : ChatMessage → ChatMessage)
    (messages : list ChatMessage) : list ChatMessage :=
  match last messages with
  | Some lastMessage => <[length messages - 1 := f lastMessage]> messages
  | None => messages
  end.

(** The cases of [appReducer] that read and write [state.messages]. *)
Definition reducer (messages : list ChatMessage) (action : MessageAction)
    : list ChatMessage :=
  match action with
  | ADD_MESSAGE payload =>
      filter (λ m, negb (typing m) || typing payload = true) messages
      ++ [payload]
  | UPDATE_LAST_MESSAGE payload =>
      update_last (λ lastMessage, merge lastMessage payload) messages
  | STREAM_UPDATE_LAST_MESSAGE contentChunk =>
      update_last
        (λ lastMessage,
           mkChat (m_id lastMessage) (m_role lastMessage)
             (m_content lastMessage ++ contentChunk)
             (m_isTyping lastMessage) (m_suggestions lastMessage)
             (m_agentType lastMessage))
        messages
  end.

Definition dispatch_all (messages : list ChatMessage)
    (log : list MessageAction) : list ChatMessage :=
  fold_left reducer log messages.

(** What the chat panel's submit handler dispatches on [state.messages]
    before it calls the handler: the user's message and the typing
    indicator. *)
Definition submitted (id1 id2 messageText : jsstring) : list MessageAction :=
  [ADD_MESSAGE (mkChat id1 user messageText None None None);
   ADD_MESSAGE (mkChat id2 assistant [] (Some true) None None)].

(** And once the handler has returned: the reply written over the last
    message. *)
Definition replied (content : jsstring) (suggestions : list jsstring)
    (agentType : jsstring) : MessageAction :=
  UPDATE_LAST_MESSAGE
    (mkChatUpdate None None (Some content) (Some false) (Some suggestions)
       (Some agentType)).

End Messages.

(** A conversation that holds a question of the user and a typing
    indicator that was never replaced. *)
Definition pending_conversation : list Messages.ChatMessage :=
  [Messages.mkChat (js "1") user (js "hello") None None None;
   Messages.mkChat (js "2") assistant [] (Some true) None None].

(** A workflow with one step completed and one pending. *)
Definition half_done_workflow : AppState :=
  mkApp [mkStep (js "step-1") (Some (js "Analyzing Your Data")) completed []
           (Some (js "15-30s"))
           (Some (js "Examining patterns, trends, and data quality"))
           (Some (js "EDA Agent"));
         mkStep (js "step-2") (Some (js "Generating Forecast")) pending
           [js "step-1"] (Some (js "20-40s"))
           (Some (js "Creating predictions based on historical patterns"))
           (Some (js "Forecasting Agent"))]
    true [].

(** A session over units given by their lines of business, numbered. *)
Definition demo_session : Session.t (list nat) nat :=
  Session.mkSession half_done_workflow None None.

(** ** The reducer: the width of the data panel *)

Module Panel.

(** A JavaScript number: not-a-number, an infinity, or a finite value
    (every finite double is a rational). *)
Inductive JSValue :=
  | NaN
  | NegInfinity
  | Finite (q : QArith_base.Q)
  | PosInfinity.

(** [Math.round]: the nearest integer, halves towards [+Infinity]. *)
Definition round (q : QArith_base.Q) : Z :=
  Qround.Qfloor (QArith_base.Qplus q (QArith_base.Qmake 1 2)).

(** [SET_DATA_PANEL_WIDTH]: the new [dataPanelWidthPct],
    [Math.min(70, Math.max(20, Math.round(payload)))]; [None] is
    [NaN]. *)
Definition setDataPanelWidth (payload : JSValue) : option Z :=
  match payload with
  | NaN => None
  | NegInfinity => Some 20%Z
  | Finite q => Some (Z.min 70 (Z.max 20 (round q)))
  | PosInfinity => Some 70%Z
  end.

End Panel.

(** The first demonstration call repeated three times, at clocks 10, 20
    and 300010. *)
Definition demo_repeats : list (@Client.Call rendered_numbers) :=
  (λ t, Client.mkCall (Client.call_params (demo_call 0)) t t
          (Client.call_tick (demo_call 0)))
  <$> [10%Z; 20%Z; 300000%Z].

(** * Part II: properties *)

Arguments js : simpl never.

(** ** Strings *)

Example js_warning : js "⚠️ x" = [0x26A0; 0xFE0F; 32; 120]%N.
Proof. reflexivity. Qed.

Example js_lens : js "🔍" = [0xD83D; 0xDD0D]%N.
Proof. reflexivity. Qed.

Example btoa_hello : btoa (js "Hello world") = Some (js "SGVsbG8gd29ybGQ=").
Proof. reflexivity. Qed.

Example btoa_pad2 : btoa (js "a") = Some (js "YQ==").
Proof. reflexivity. Qed.

Example btoa_latin1 : btoa [0xE9; 0xFF]%N = Some (js "6f8=").
Proof. reflexivity. Qed.

Example btoa_outside_latin1 : btoa (js "📈") = None.
Proof. reflexivity. Qed.

Example trim_both : trim (js "  a b 
 ") = js "a b".
Proof. reflexivity. Qed.

Example includes_word : includes (js "please forecast sales") (js "forecast") = true.
Proof. reflexivity. Qed.

Example strip_report_block :
  strip_report (js "Summary [REPORT_DATA]{}[/REPORT_DATA] end [/REPORT_DATA]")
  = js "Summary  end [/REPORT_DATA]".
Proof. reflexivity. Qed.

Example strip_report_unclosed :
  strip_report (js "Summary [REPORT_DATA]{}") = js "Summary [REPORT_DATA]{}".
Proof. reflexivity. Qed.

Example handleError_401 :
  handleError (mkProviderError (Some 401%Z) None (js "Unauthorized"))
  = Error (js "Invalid API key. Please check your OpenAI configuration.").
Proof. reflexivity. Qed.

Example handleError_network :
  handleError (mkProviderError None (Some (js "ECONNREFUSED")) [])
  = Error (js "Network connection failed. Please check your internet connection.").
Proof. reflexivity. Qed.

Example handleError_other :
  handleError (mkProviderError (Some 400%Z) None [])
  = Error (js "An unexpected error occurred with the AI service.").
Proof. reflexivity. Qed.

Example selectAgent_forecast :
  (MultiAgentChatHandler.selectAgent (H := ascii_builtins)
     (js "Please FORECAST next month")).2
  = [js "eda"; js "forecasting"].
Proof. vm_compute. reflexivity. Qed.

Example selectAgent_keyword :
  (MultiAgentChatHandler.selectAgent (H := ascii_builtins)
     (js "compare my regions")).2
  = [js "comparative"].
Proof. vm_compute. reflexivity. Qed.

Example selectAgent_general :
  (MultiAgentChatHandler.selectAgent (H := ascii_builtins) (js "hello")).2
  = [js "general"].
Proof. vm_compute. reflexivity. Qed.

Example selectOptimalAgents_onboarding :
  EnhancedMultiAgentChatHandler.agents
    (EnhancedMultiAgentChatHandler.selectOptimalAgents (H := ascii_builtins)
       (js "help me forecast") false)
  = [js "onboarding"].
Proof. vm_compute. reflexivity. Qed.

Example selectOptimalAgents_with_data :
  EnhancedMultiAgentChatHandler.agents
    (EnhancedMultiAgentChatHandler.selectOptimalAgents (H := ascii_builtins)
       (js "help me forecast") true)
  = js <$> ["eda"; "preprocessing"; "modeling"; "validation"; "forecasting";
            "insights"].
Proof. vm_compute. reflexivity. Qed.

(** ** [Map] *)

Section JSMapFacts.
Context {V : Type}.
Implicit Types (m : JSMap.t V) (k : jsstring) (v : V).

Lemma JSMap_get_set_eq k v m : JSMap.get k (JSMap.set k v m) = Some v.
Proof.
  induction m as [|[k' v'] m IH]; simpl.
  - by rewrite decide_True.
  - destruct (decide (k' = k)) as [->|Hne]; simpl.
    + by rewrite decide_True.
    + by rewrite decide_False.
Qed.

Lemma JSMap_set_fresh k v m :
  k ∉ JSMap.keys m → JSMap.set k v m = m ++ [(k, v)].
Proof.
  induction m as [|[k' v'] m IH]; simpl; [done|].
  intros Hnotin. apply not_elem_of_cons in Hnotin as [Hne Hnotin].
  rewrite decide_False; [|done]. by rewrite IH.
Qed.

Lemma JSMap_length_set k v m :
  length (JSMap.set k v m) ≤ S (length m).
Proof.
  induction m as [|[k' v'] m IH]; simpl; [lia|].
  destruct (decide (k' = k)); simpl; lia.
Qed.

Lemma JSMap_get_delete_eq k m :
  NoDup (JSMap.keys m) → JSMap.get k (JSMap.delete k m) = None.
Proof.
  induction m as [|[k' v'] m IH]; simpl; [done|].
  intros [Hnotin Hnd]%NoDup_cons.
  destruct (decide (k' = k)) as [->|Hne]; simpl.
  - clear IH Hnd. induction m as [|[k2 v2] m IH]; simpl; [done|].
    apply not_elem_of_cons in Hnotin as [Hne Hnotin].
    rewrite decide_False; [|done]. by apply IH.
  - rewrite decide_False; [|done]. by apply IH.
Qed.

Lemma JSMap_get_None k m : k ∉ JSMap.keys m → JSMap.get k m = None.
Proof.
  induction m as [|[k' v'] m IH]; simpl; [done|].
  intros [Hne Hnotin]%not_elem_of_cons.
  rewrite decide_False; [|done]. by apply IH.
Qed.

End JSMapFacts.

(** ** [APICache] *)

Section APICacheFacts.
Context {T : Type}.
Implicit Types (c : APICache.cache T) (ops : list (APICache.SetOp T)).

Lemma maxSize_pos : 0 < APICache.maxSize.
Proof. unfold APICache.maxSize. lia. Qed.

Arguments APICache.maxSize : simpl never.

(** A [set] never leaves more than [maxSize] entries behind. *)
Lemma set_size_bound key (d : T) ttl now1 now2 c :
  JSMap.size c ≤ APICache.maxSize →
  JSMap.size (APICache.set key d ttl now1 now2 c) ≤ APICache.maxSize.
Proof.
  unfold APICache.set, JSMap.size. intros Hle.
  pose proof maxSize_pos as Hpos.
  destruct (Nat.leb_spec APICache.maxSize (length c)) as [Hfull|Hroom].
  - destruct c as [|[k0 e0] c'].
    { rewrite length_nil in Hfull. lia. }
    rewrite length_cons in Hle. simpl. rewrite decide_True; [|done].
    etrans; [apply JSMap_length_set|]. lia.
  - etrans; [apply JSMap_length_set|]. lia.
Qed.

(** When the cache is full, a [set] with a new key drops the head of the
    insertion order and appends the new entry. *)
Lemma set_full_evicts_first key (d : T) ttl now1 now2 k0 e0 c :
  APICache.maxSize ≤ S (length c) →
  key ∉ JSMap.keys c →
  APICache.set key d ttl now1 now2 ((k0, e0) :: c)
  = c ++ [(key, APICache.mkEntry d now1 (now2 + ttl)%Z)].
Proof.
  intros Hfull Hfresh. unfold APICache.set, JSMap.size.
  destruct (Nat.leb_spec APICache.maxSize (length ((k0, e0) :: c)))
    as [_|Hlt]; [|rewrite length_cons in Hlt; lia].
  simpl. rewrite decide_True; [|done]. by apply JSMap_set_fresh.
Qed.

Lemma set_room_appends key (d : T) ttl now1 now2 c :
  length c < APICache.maxSize →
  key ∉ JSMap.keys c →
  APICache.set key d ttl now1 now2 c
  = c ++ [(key, APICache.mkEntry d now1 (now2 + ttl)%Z)].
Proof.
  intros Hroom Hfresh. unfold APICache.set, JSMap.size.
  destruct (Nat.leb_spec APICache.maxSize (length c)) as [?|_]; [lia|].
  by apply JSMap_set_fresh.
Qed.

Lemma run_sets_snoc ops o c :
  APICache.run_sets (ops ++ [o]) c
  = APICache.apply_set (APICache.run_sets ops c) o.
Proof. unfold APICache.run_sets. by rewrite fold_left_app. Qed.

(** After any number of [set] calls with distinct keys on an empty
    cache, the cache holds the last [maxSize] entries, oldest first. *)
Lemma run_sets_distinct ops :
  NoDup (APICache.op_key <$> ops) →
  APICache.run_sets ops APICache.empty
  = drop (length ops - APICache.maxSize) (APICache.stored <$> ops).
Proof.
  induction ops as [|o ops IH] using rev_ind; intros Hnd; [done|].
  rewrite fmap_app in Hnd. apply NoDup_app in Hnd as (Hnd & Hfresh & _).
  rewrite run_sets_snoc, IH by done. clear IH.
  assert (APICache.op_key o ∉ APICache.op_key <$> ops) as Hnew.
  { intros Hin. apply (Hfresh _ Hin). simpl. left. }
  assert (∀ n, APICache.op_key o ∉ JSMap.keys (drop n (APICache.stored <$> ops)))
    as Hkeys.
  { intros n Hin. apply Hnew. unfold JSMap.keys in Hin.
    rewrite fmap_drop, <- list_fmap_compose in Hin.
    by apply subseteq_drop in Hin. }
  rewrite fmap_app, length_app. simpl.
  unfold APICache.apply_set. pose proof maxSize_pos as Hpos.
  destruct (decide (length ops < APICache.maxSize)) as [Hroom|Hfull].
  - replace (length ops - APICache.maxSize) with 0 by lia.
    replace (length ops + 1 - APICache.maxSize) with 0 by lia.
    rewrite !drop_0. rewrite set_room_appends; [done| |apply (Hkeys 0)].
    by rewrite length_fmap.
  - replace (length ops + 1 - APICache.maxSize)
      with (S (length ops - APICache.maxSize)) by lia.
    rewrite drop_app_le by (rewrite length_fmap; lia).
    destruct (drop (length ops - APICache.maxSize) (APICache.stored <$> ops))
      as [|[k0 e0] rest] eqn:Hdrop.
    { apply (f_equal length) in Hdrop. rewrite length_drop, length_fmap in Hdrop.
      simpl in Hdrop. lia. }
    assert (rest = drop (S (length ops - APICache.maxSize)) (APICache.stored <$> ops))
      as Hrest.
    { replace (S (length ops - APICache.maxSize))
        with (length ops - APICache.maxSize + 1) by lia.
      by rewrite <- drop_drop, Hdrop. }
    rewrite set_full_evicts_first.
    + by rewrite Hrest.
    + apply (f_equal length) in Hdrop.
      rewrite length_drop, length_fmap in Hdrop. simpl in Hdrop. lia.
    + rewrite Hrest. apply Hkeys.
Qed.

(** Whatever the keys and the starting cache, no [set] call lets the
    cache grow past [maxSize]. *)
Lemma run_sets_size_bound ops c :
  JSMap.size c ≤ APICache.maxSize →
  JSMap.size (APICache.run_sets ops c) ≤ APICache.maxSize.
Proof.
  revert c. induction ops as [|o ops IH]; intros c Hc; [done|].
  simpl. apply IH. by apply set_size_bound.
Qed.

Lemma NoDup_keys_take ops n :
  NoDup (APICache.op_key <$> ops) → NoDup (APICache.op_key <$> take n ops).
Proof.
  intros Hnd. eapply sublist_NoDup; [exact Hnd|].
  rewrite fmap_take. apply sublist_take.
Qed.

(** C2. On an empty cache, [maxSize + 1] = 101 [set] calls with distinct
    keys leave, after each call, at most [maxSize] entries: the cache
    holds the latest [maxSize] stored entries in insertion order, so what
    is dropped is always the oldest one, and after the last call exactly
    the first-inserted key is gone.  The size bound also holds from any
    starting cache within the bound. *)
Theorem cache_bounded_fifo_eviction ops :
  length ops = S APICache.maxSize →
  NoDup (APICache.op_key <$> ops) →
  (∀ n, n ≤ length ops →
     JSMap.size (APICache.run_sets (take n ops) APICache.empty)
       ≤ APICache.maxSize
     ∧ APICache.run_sets (take n ops) APICache.empty
       = drop (n - APICache.maxSize) (APICache.stored <$> take n ops))
  ∧ JSMap.keys (APICache.run_sets ops APICache.empty)
    = tail (APICache.op_key <$> ops)
  ∧ (∀ o, head ops = Some o →
       JSMap.get (APICache.op_key o) (APICache.run_sets ops APICache.empty)
       = None)
  ∧ (∀ c n, JSMap.size c ≤ APICache.maxSize →
       JSMap.size (APICache.run_sets (take n ops) c) ≤ APICache.maxSize).
Proof.
  intros Hlen Hnd. pose proof maxSize_pos as Hpos.

  assert (JSMap.keys (APICache.run_sets ops APICache.empty)
          = tail (APICache.op_key <$> ops)) as Hkeys.
  { rewrite run_sets_distinct by done. rewrite Hlen.
    replace (S APICache.maxSize - APICache.maxSize) with 1 by lia.
    unfold JSMap.keys. rewrite fmap_drop, <- list_fmap_compose.
    by destruct ops. }
  split; [|split; [done|split]].
  - intros n Hn.
    rewrite run_sets_distinct by by apply NoDup_keys_take.
    rewrite length_take, Nat.min_l by done. split; [|done].
    unfold JSMap.size. rewrite length_drop, length_fmap, length_take. lia.
  - intros o Ho. apply JSMap_get_None. rewrite Hkeys.
    destruct ops as [|o' ops]; [done|]. simplify_eq/=.
    by apply NoDup_cons in Hnd as [? _].
  - intros c n Hc. by apply run_sets_size_bound.
Qed.

(** C4. A [get] right after [set(k, v, t)] returns [v] while the clock is
    below creation + [t] (and leaves the cache as it was); once the clock
    is past the stored expiry, it returns [null]. *)
Theorem cache_get_after_set key (v : T) ttl now1 now2 now c :
  ((now1 ≤ now2)%Z → (now < now1 + ttl)%Z →
     APICache.get key now (APICache.set key v ttl now1 now2 c)
     = (Some v, APICache.set key v ttl now1 now2 c))
  ∧ ((now2 + ttl < now)%Z →
     (APICache.get key now (APICache.set key v ttl now1 now2 c)).1 = None).
Proof.
  unfold APICache.get.
  assert (JSMap.get key (APICache.set key v ttl now1 now2 c)
          = Some (APICache.mkEntry v now1 (now2 + ttl)%Z)) as ->.
  { unfold APICache.set. apply JSMap_get_set_eq. }
  simpl. split.
  - intros Hclock Hlive.
    destruct (Z.ltb_spec (now2 + ttl) now); [lia|done].
  - intros Hpast.
    destruct (Z.ltb_spec (now2 + ttl) now); [done|lia].
Qed.

(** At the expiry instant itself the entry is still returned: the test
    is [Date.now() > entry.expires]. *)
Lemma cache_get_at_expiry key (v : T) ttl now1 now2 c :
  (APICache.get key (now2 + ttl) (APICache.set key v ttl now1 now2 c)).1
  = Some v.
Proof.
  unfold APICache.get.
  assert (JSMap.get key (APICache.set key v ttl now1 now2 c)
          = Some (APICache.mkEntry v now1 (now2 + ttl)%Z)) as ->.
  { unfold APICache.set. apply JSMap_get_set_eq. }
  simpl. by rewrite Z.ltb_irrefl.
Qed.

End APICacheFacts.

Lemma cache_bounded_fifo_eviction_witness :
  JSMap.keys (APICache.run_sets ops101 APICache.empty)
  = tail (APICache.op_key <$> ops101).
Proof.
  apply (cache_bounded_fifo_eviction ops101).
  - reflexivity.
  - apply (bool_decide_unpack _). vm_compute. exact I.
Defined.

Lemma cache_get_after_set_witness :
  APICache.get (js "k") 299 (APICache.set (js "k") 7 300 0 1 APICache.empty)
  = (Some 7, APICache.set (js "k") 7 300 0 1 APICache.empty)
  ∧ (APICache.get (js "k") 302
       (APICache.set (js "k") 7 300 0 1 APICache.empty)).1 = None.
Proof.
  split.
  - apply (cache_get_after_set (js "k") 7 300 0 1 299 APICache.empty); lia.
  - apply (cache_get_after_set (js "k") 7 300 0 1 302 APICache.empty); lia.
Defined.


(** ** [RateLimiter] *)

Section RateLimiterFacts.
Implicit Types (r : RateLimiter.t) (id : jsstring) (now : Z).

Lemma times_ensure id r :
  RateLimiter.times id (RateLimiter.ensure id r) = RateLimiter.times id r.
Proof.
  unfold RateLimiter.times, RateLimiter.ensure.
  destruct (r !! id) as [l|] eqn:Hl; [by rewrite Hl|].
  by rewrite lookup_insert_eq.
Qed.

(** The check prunes the identity's window to the timestamps that are
    strictly inside it ... *)
Lemma times_canMakeRequest now id r :
  RateLimiter.times id (RateLimiter.canMakeRequest now id r).2
  = filter (λ time, (now - RateLimiter.windowMs < time)%Z)
      (RateLimiter.times id r).
Proof.
  unfold RateLimiter.canMakeRequest. simpl.
  rewrite times_ensure. unfold RateLimiter.times at 1.
  by rewrite lookup_insert_eq.
Qed.

(** ... and admits when fewer than [maxRequests] remain. *)
Lemma allowed_canMakeRequest now id r :
  (RateLimiter.canMakeRequest now id r).1
  = bool_decide
      (length (filter (λ time, (now - RateLimiter.windowMs < time)%Z)
                 (RateLimiter.times id r)) < RateLimiter.maxRequests).
Proof. unfold RateLimiter.canMakeRequest. simpl. by rewrite times_ensure. Qed.

Lemma times_recordRequest now id r :
  RateLimiter.times id (RateLimiter.recordRequest now id r)
  = RateLimiter.times id r ++ [now].
Proof.
  unfold RateLimiter.recordRequest. rewrite times_ensure.
  unfold RateLimiter.times at 1. by rewrite lookup_insert_eq.
Qed.

(** Other identities are left alone. *)
Lemma times_canMakeRequest_ne now id id' r :
  id ≠ id' →
  RateLimiter.times id' (RateLimiter.canMakeRequest now id r).2
  = RateLimiter.times id' r.
Proof.
  intros Hne. unfold RateLimiter.canMakeRequest, RateLimiter.times. simpl.
  rewrite lookup_insert_ne by done. unfold RateLimiter.ensure.
  destruct (r !! id); [done|]. by rewrite lookup_insert_ne.
Qed.

Lemma times_recordRequest_ne now id id' r :
  id ≠ id' →
  RateLimiter.times id' (RateLimiter.recordRequest now id r)
  = RateLimiter.times id' r.
Proof.
  intros Hne. unfold RateLimiter.recordRequest, RateLimiter.times.
  rewrite lookup_insert_ne by done. unfold RateLimiter.ensure.
  destruct (r !! id); [done|]. by rewrite lookup_insert_ne.
Qed.

End RateLimiterFacts.

Section Window.
Variables (id : jsstring) (t_start t_end : Z).
Implicit Types (r : RateLimiter.t) (ps : list (Z * Z)) (l : list Z).

Lemma inside_stable now l :
  (t_start ≤ now ≤ t_end)%Z →
  Forall (RateLimiter.stable t_start t_end) l →
  RateLimiter.inside now l = RateLimiter.inside t_end l.
Proof.
  intros Hnow. unfold RateLimiter.inside.
  induction 1 as [|t l Ht _ IH]; [done|].
  rewrite !filter_cons, IH. unfold RateLimiter.stable in Ht.
  destruct (decide (now - RateLimiter.windowMs < t)%Z),
    (decide (t_end - RateLimiter.windowMs < t)%Z); try done; lia.
Qed.

Lemma inside_all now l :
  Forall (λ t, (now - RateLimiter.windowMs < t)%Z) l →
  RateLimiter.inside now l = l.
Proof.
  unfold RateLimiter.inside. induction 1 as [|t l Ht _ IH]; [done|].
  by rewrite filter_cons, decide_True, IH.
Qed.

Lemma inside_none now l :
  Forall (λ t, (t ≤ now - RateLimiter.windowMs)%Z) l →
  RateLimiter.inside now l = [].
Proof.
  unfold RateLimiter.inside. induction 1 as [|t l Ht _ IH]; [done|].
  rewrite filter_cons, decide_False, IH; [done|lia].
Qed.

Lemma inside_inside now l :
  Forall (λ t, (now - RateLimiter.windowMs < t)%Z) (RateLimiter.inside now l).
Proof.
  apply Forall_forall. intros t Ht.
  by apply list_elem_of_filter in Ht as [Ht _].
Qed.

Lemma inside_is_stable l :
  Forall (RateLimiter.stable t_start t_end) (RateLimiter.inside t_end l).
Proof.
  eapply Forall_impl; [apply inside_inside|]. intros t Ht. by right.
Qed.

Lemma round_unfold p r :
  RateLimiter.round id p r
  = ((RateLimiter.canMakeRequest p.1 id r).1,
     if (RateLimiter.canMakeRequest p.1 id r).1
     then RateLimiter.recordRequest p.2 id
            (RateLimiter.canMakeRequest p.1 id r).2
     else (RateLimiter.canMakeRequest p.1 id r).2).
Proof.
  unfold RateLimiter.round.
  by destruct (RateLimiter.canMakeRequest p.1 id r).
Qed.

Lemma rounds_cons p ps r :
  RateLimiter.rounds id (p :: ps) r
  = ((RateLimiter.round id p r).1
       :: (RateLimiter.rounds id ps (RateLimiter.round id p r).2).1,
     (RateLimiter.rounds id ps (RateLimiter.round id p r).2).2).
Proof.
  change (RateLimiter.rounds id (p :: ps) r)
    with (let '(allowed, r1) := RateLimiter.round id p r in
          let '(rest, r2) := RateLimiter.rounds id ps r1 in
          (allowed :: rest, r2)).
  destruct (RateLimiter.round id p r) as [allowed r1]. cbn [fst snd].
  by destruct (RateLimiter.rounds id ps r1).
Qed.

(** A round inside the window, with room left, is admitted and adds its
    timestamp to the ones that count. *)
Lemma round_admitted p r :
  Forall (RateLimiter.stable t_start t_end) (RateLimiter.times id r) →
  length (RateLimiter.inside t_end (RateLimiter.times id r))
    < RateLimiter.maxRequests →
  (t_start ≤ p.1 ≤ t_end)%Z → (t_end - RateLimiter.windowMs < p.2)%Z →
  (RateLimiter.round id p r).1 = true
  ∧ RateLimiter.times id (RateLimiter.round id p r).2
    = RateLimiter.inside t_end (RateLimiter.times id r) ++ [p.2].
Proof.
  intros Hst Hroom Hcheck Hrec. rewrite round_unfold. cbn [fst snd].
  rewrite allowed_canMakeRequest.
  fold (RateLimiter.inside p.1 (RateLimiter.times id r)).
  rewrite inside_stable by done.
  rewrite bool_decide_eq_true_2 by done. split; [done|].
  rewrite times_recordRequest, times_canMakeRequest.
  fold (RateLimiter.inside p.1 (RateLimiter.times id r)).
  by rewrite inside_stable.
Qed.

(** After an admitted round the window is stable and holds one more
    counted timestamp. *)
Lemma round_admitted_next p r :
  Forall (RateLimiter.stable t_start t_end) (RateLimiter.times id r) →
  length (RateLimiter.inside t_end (RateLimiter.times id r))
    < RateLimiter.maxRequests →
  (t_start ≤ p.1 ≤ t_end)%Z → (t_end - RateLimiter.windowMs < p.2)%Z →
  Forall (RateLimiter.stable t_start t_end)
    (RateLimiter.times id (RateLimiter.round id p r).2)
  ∧ RateLimiter.inside t_end
      (RateLimiter.times id (RateLimiter.round id p r).2)
    = RateLimiter.inside t_end (RateLimiter.times id r) ++ [p.2].
Proof.
  intros Hst Hroom Hcheck Hrec.
  destruct (round_admitted p r) as [_ ->]; [done..|]. split.
  - apply Forall_app. split; [apply inside_is_stable|].
    apply Forall_singleton. by right.
  - apply inside_all, Forall_app. split; [apply inside_inside|].
    by apply Forall_singleton.
Qed.

Lemma rounds_window ps r :
  Forall (RateLimiter.stable t_start t_end) (RateLimiter.times id r) →
  length (RateLimiter.inside t_end (RateLimiter.times id r)) + length ps
    ≤ RateLimiter.maxRequests →
  Forall (λ p, (t_start ≤ p.1 ≤ t_end)%Z
               ∧ (t_end - RateLimiter.windowMs < p.2)%Z) ps →
  (RateLimiter.rounds id ps r).1 = replicate (length ps) true
  ∧ RateLimiter.inside t_end
      (RateLimiter.times id (RateLimiter.rounds id ps r).2)
    = RateLimiter.inside t_end (RateLimiter.times id r) ++ ps.*2
  ∧ Forall (RateLimiter.stable t_start t_end)
      (RateLimiter.times id (RateLimiter.rounds id ps r).2).
Proof.
  revert r. induction ps as [|p ps IH]; intros r Hst Hlen Hps.
  { simpl. by rewrite app_nil_r. }
  apply Forall_cons in Hps as [[Hcheck Hrec] Hps].
  rewrite length_cons in Hlen.
  destruct (round_admitted p r) as [Hok _]; [done|lia|done|done|].
  destruct (round_admitted_next p r) as [Hst' Hin]; [done|lia|done|done|].
  rewrite rounds_cons. cbn [fst snd length replicate fmap list_fmap].
  destruct (IH (RateLimiter.round id p r).2) as (IH1 & IH2 & IH3);
    [done| |done|].
  - rewrite Hin, length_app. simpl. lia.
  - rewrite Hok, IH1, IH2, Hin. split; [done|]. split; [|done].
    by rewrite <- app_assoc.
Qed.

End Window.

(** ** [EnhancedOpenAIClient] *)

Section ClientFacts.
Context `{JSNumber}.
Implicit Types (st : Client.t) (p : Client.Params) (c : Client.Call).

Lemma client_eta st :
  Client.mkClient (Client.cache st) (Client.rateLimiter st)
    (Client.requestQueue st) (Client.providerCalls st) = st.
Proof. by destruct st. Qed.

(** A live entry under the call's key is returned at once and nothing
    else in the client changes. *)
Lemma create_cache_hit p t_get t_check st key entry :
  Client.eligible p = true →
  Client.cacheKey p = Some key →
  JSMap.get key (Client.cache st) = Some entry →
  (t_get ≤ APICache.expires entry)%Z →
  Client.createChatCompletion p t_get t_check st
  = (Client.Settled_now (Resolved (FromCache (APICache.data entry))), st).
Proof.
  unfold Client.eligible, Client.cacheKey, Client.createChatCompletion.
  intros -> -> Hget Hlive. simpl. unfold APICache.get. rewrite Hget.
  destruct (Z.ltb_spec (APICache.expires entry) t_get); [lia|].
  by rewrite client_eta.
Qed.

(** A call that is not settled before the limiter is either enqueued or
    refused, as the limiter decides; the provider is not involved. *)
Lemma create_reached p t_get t_check st :
  Client.submitted_reached_limiter
    (Client.createChatCompletion p t_get t_check st).1 →
  ∃ cache1 key,
    Client.cacheKey p = Some key ∧
    Client.createChatCompletion p t_get t_check st
    = let check :=
        RateLimiter.canMakeRequest t_check Client.identifier
          (Client.rateLimiter st) in
      if check.1 then
        (Client.Enqueued,
         Client.mkClient cache1 check.2
           (Client.requestQueue st
            ++ [Client.mkQueued (Client.provider_request p)
                  (Client.eligible p) key])
           (Client.providerCalls st))
      else
        (Client.Settled_now (Rejected (Error Client.rate_limit_message)),
         Client.mkClient cache1 check.2 (Client.requestQueue st)
           (Client.providerCalls st)).
Proof.
  unfold Client.createChatCompletion, Client.cacheKey, Client.eligible,
    Client.provider_request.
  destruct (Client.generateCacheKey _ _ _) as [key|]; [|by intros [=]].
  destruct (if default true (Client.p_useCache p)
            then APICache.get key t_get (Client.cache st)
            else (None, Client.cache st)) as [[r|] cache1]; [by intros [=]|].
  intros _. exists cache1, key. split; [done|].
  by destruct (RateLimiter.canMakeRequest _ _ _) as [[] limiter1].
Qed.

Lemma request_spec q tk st :
  (Client.request q tk st).1 = Client.provider_answer tk
  ∧ Client.rateLimiter (Client.request q tk st).2
    = RateLimiter.recordRequest (Client.t_record tk) Client.identifier
        (Client.rateLimiter st)
  ∧ Client.requestQueue (Client.request q tk st).2 = Client.requestQueue st
  ∧ Client.providerCalls (Client.request q tk st).2
    = Client.providerCalls st ++ [Client.q_request q].
Proof.
  unfold Client.request, Client.provider_answer.
  by destruct (Client.reply tk).
Qed.

Lemma processQueue_one tk q cache1 limiter1 calls :
  Client.processQueue [tk] (Client.mkClient cache1 limiter1 [q] calls)
  = ([(Client.request q tk (Client.mkClient cache1 limiter1 [] calls)).1],
     (Client.request q tk (Client.mkClient cache1 limiter1 [] calls)).2).
Proof.
  change (Client.processQueue [tk] (Client.mkClient cache1 limiter1 [q] calls))
    with (let '(o, st1) :=
            Client.request q tk (Client.mkClient cache1 limiter1 [] calls) in
          let '(os, st2) := Client.processQueue [] st1 in
          (o :: os, st2)).
  by destruct (Client.request q tk _) as [o st1].
Qed.

(** One awaited call on an idle client that gets as far as the limiter:
    the limiter goes through one round, and the provider is called
    exactly when the round admits. *)
Lemma await_reached c st :
  Client.requestQueue st = [] →
  Client.reached_limiter (Client.await c st).1 →
  let rd :=
    RateLimiter.round Client.identifier (Client.call_round c)
      (Client.rateLimiter st) in
  (Client.await c st).1
  = Some (if rd.1 then Client.provider_answer (Client.call_tick c)
          else Rejected (Error Client.rate_limit_message))
  ∧ Client.rateLimiter (Client.await c st).2 = rd.2
  ∧ Client.requestQueue (Client.await c st).2 = []
  ∧ Client.providerCalls (Client.await c st).2
    = Client.providerCalls st
      ++ (if rd.1 then [Client.provider_request (Client.call_params c)]
          else []).
Proof.
  intros Hidle Hreached. cbn zeta. rewrite round_unfold.
  unfold Client.call_round. cbn [fst snd].
  unfold Client.await in *.
  destruct (create_reached (Client.call_params c) (Client.call_t_get c)
              (Client.call_t_check c) st) as (cache1 & key & _ & Hcreate).
  { by destruct (Client.createChatCompletion _ _ _ _) as [[s|] st1]. }
  rewrite Hcreate in *. clear Hcreate. cbn zeta in *.
  destruct (RateLimiter.canMakeRequest _ _ _) as [[] limiter1];
    cbn [fst snd] in *.
  - rewrite Hidle. cbn [app]. rewrite processQueue_one.
    match goal with |- context [Client.request ?q ?tk ?s] =>
      destruct (request_spec q tk s) as (Ho & Hl & Hq & Hc);
      destruct (Client.request q tk s) as [o st2] end.
    cbn [fst snd last] in *. subst o. by rewrite Hl, Hq, Hc.
  - cbn [Client.rateLimiter Client.requestQueue Client.providerCalls].
    by rewrite Hidle, app_nil_r.
Qed.

Lemma sequence_cons c calls st :
  Client.sequence (c :: calls) st
  = ((Client.await c st).1
       :: (Client.sequence calls (Client.await c st).2).1,
     (Client.sequence calls (Client.await c st).2).2).
Proof.
  change (Client.sequence (c :: calls) st)
    with (let '(o, st1) := Client.await c st in
          let '(os, st2) := Client.sequence calls st1 in
          (o :: os, st2)).
  destruct (Client.await c st) as [o st1]. cbn [fst snd].
  by destruct (Client.sequence calls st1).
Qed.

(** Awaited calls that all reach the limiter inside one window, with
    room for each of them: every one is handed to the provider. *)
Lemma sequence_window t_start t_end calls st :
  Client.requestQueue st = [] →
  Forall (RateLimiter.stable t_start t_end)
    (RateLimiter.times Client.identifier (Client.rateLimiter st)) →
  length (RateLimiter.inside t_end
            (RateLimiter.times Client.identifier (Client.rateLimiter st)))
    + length calls ≤ RateLimiter.maxRequests →
  Forall (λ c, (t_start ≤ Client.call_t_check c ≤ t_end)%Z
               ∧ (t_end - RateLimiter.windowMs
                  < Client.t_record (Client.call_tick c))%Z) calls →
  Forall Client.reached_limiter (Client.sequence calls st).1 →
  (Client.sequence calls st).1
  = (λ c, Some (Client.provider_answer (Client.call_tick c))) <$> calls
  ∧ Client.requestQueue (Client.sequence calls st).2 = []
  ∧ Client.providerCalls (Client.sequence calls st).2
    = Client.providerCalls st
      ++ ((λ c, Client.provider_request (Client.call_params c)) <$> calls)
  ∧ Forall (RateLimiter.stable t_start t_end)
      (RateLimiter.times Client.identifier
         (Client.rateLimiter (Client.sequence calls st).2))
  ∧ RateLimiter.inside t_end
      (RateLimiter.times Client.identifier
         (Client.rateLimiter (Client.sequence calls st).2))
    = RateLimiter.inside t_end
        (RateLimiter.times Client.identifier (Client.rateLimiter st))
      ++ ((λ c, Client.t_record (Client.call_tick c)) <$> calls).
Proof.
  revert st. induction calls as [|c calls IH];
    intros st Hidle Hst Hlen Hcalls Hreached.
  { simpl. by rewrite !app_nil_r. }
  rewrite sequence_cons in *. cbn [fst snd] in *.
  apply Forall_cons in Hcalls as [[Hcheck Hrec] Hcalls].
  apply Forall_cons in Hreached as [Hreached1 Hreached].
  rewrite length_cons in Hlen.
  destruct (await_reached c st Hidle Hreached1) as (Ho & Hl & Hq & Hc).
  destruct (round_admitted Client.identifier t_start t_end
              (Client.call_round c) (Client.rateLimiter st))
    as [Hok _]; [done|lia|done|done|].
  destruct (round_admitted_next Client.identifier t_start t_end
              (Client.call_round c) (Client.rateLimiter st))
    as [Hst' Hin]; [done|lia|done|done|].
  rewrite Hok in Ho, Hc. rewrite <- Hl in Hst', Hin.
  destruct (IH (Client.await c st).2) as (IH1 & IH2 & IH3 & IH4 & IH5);
    [done|done| |done|done|].
  { rewrite Hin, length_app. simpl. lia. }
  rewrite Ho, IH1, IH2, IH3, Hc, IH5, Hin, !fmap_cons, <- !app_assoc.
  done.
Qed.

Arguments RateLimiter.maxRequests : simpl never.

Lemma maxRequests_pos : 0 < RateLimiter.maxRequests.
Proof. unfold RateLimiter.maxRequests. lia. Qed.

(** Timestamps outside the window at [t_start] are stable and do not
    count at any later check. *)
Lemma outside_stable t_start t_end (l : list Z) :
  (t_start ≤ t_end)%Z →
  Forall (λ t, (t ≤ t_start - RateLimiter.windowMs)%Z) l →
  Forall (RateLimiter.stable t_start t_end) l
  ∧ RateLimiter.inside t_end l = [].
Proof.
  intros Hle Hout. split.
  - eapply Forall_impl; [exact Hout|]. intros t Ht. by left.
  - apply inside_none. eapply Forall_impl; [exact Hout|].
    intros t Ht. simpl in *. lia.
Qed.

(** C1. For every identity, 60 check-and-record rounds inside one window
    of 60000 ms are all admitted and a 61st check in that window is
    refused; on the client, 60 awaited calls that get as far as the
    limiter (not answered from the cache, key computable) are all handed
    to the provider and the 61st is rejected with the local rate-limit
    error, leaving the queue empty and the provider untouched; once
    every recorded timestamp is a full window old, a call is enqueued
    again. *)
Theorem rate_limit_window :
  (∀ (id : jsstring) (r : RateLimiter.t) (ps : list (Z * Z))
     (t_start t_end : Z),
     length ps = RateLimiter.maxRequests →
     Forall (λ t, (t ≤ t_start - RateLimiter.windowMs)%Z)
       (RateLimiter.times id r) →
     Forall (λ p : Z * Z, (t_start ≤ p.1 ≤ t_end)%Z
                          ∧ (t_end - RateLimiter.windowMs < p.2)%Z) ps →
     (RateLimiter.rounds id ps r).1 = replicate RateLimiter.maxRequests true
     ∧ (RateLimiter.canMakeRequest t_end id
          (RateLimiter.rounds id ps r).2).1 = false
     ∧ ∀ t, Forall (λ p : Z * Z, (p.2 ≤ t - RateLimiter.windowMs)%Z) ps →
         (RateLimiter.canMakeRequest t id
            (RateLimiter.canMakeRequest t_end id
               (RateLimiter.rounds id ps r).2).2).1 = true)
  ∧
  (∀ (st : Client.t) (calls : list Client.Call) (c61 : Client.Call)
     (t_start : Z),
     Client.requestQueue st = [] →
     length calls = RateLimiter.maxRequests →
     Forall (λ t, (t ≤ t_start - RateLimiter.windowMs)%Z)
       (RateLimiter.times Client.identifier (Client.rateLimiter st)) →
     Forall (λ c, (t_start ≤ Client.call_t_check c
                   ≤ Client.call_t_check c61)%Z
                  ∧ (Client.call_t_check c61 - RateLimiter.windowMs
                     < Client.t_record (Client.call_tick c))%Z) calls →
     Forall Client.reached_limiter (Client.sequence calls st).1 →
     let st60 := (Client.sequence calls st).2 in
     let r61 :=
       Client.createChatCompletion (Client.call_params c61)
         (Client.call_t_get c61) (Client.call_t_check c61) st60 in
     (Client.sequence calls st).1
     = (λ c, Some (Client.provider_answer (Client.call_tick c))) <$> calls
     ∧ Client.providerCalls st60
       = Client.providerCalls st
         ++ ((λ c, Client.provider_request (Client.call_params c)) <$> calls)
     ∧ (Client.submitted_reached_limiter r61.1 →
        r61.1 = Client.Settled_now (Rejected (Error Client.rate_limit_message))
        ∧ Client.requestQueue r61.2 = []
        ∧ Client.providerCalls r61.2 = Client.providerCalls st60
        ∧ ∀ p t_get t,
            Forall (λ c, (Client.t_record (Client.call_tick c)
                          ≤ t - RateLimiter.windowMs)%Z) calls →
            Client.submitted_reached_limiter
              (Client.createChatCompletion p t_get t r61.2).1 →
            (Client.createChatCompletion p t_get t r61.2).1
            = Client.Enqueued)).
Proof.
  pose proof maxRequests_pos as Hpos. split.
  - intros id r ps t_start t_end Hlen Hout Hps.
    assert (t_start ≤ t_end)%Z as Hle.
    { destruct ps as [|p ps]; [simpl in Hlen; lia|].
      apply Forall_cons in Hps as [[? _] _]. lia. }
    destruct (outside_stable t_start t_end _ Hle Hout) as [Hst Hnone].
    destruct (rounds_window id t_start t_end ps r) as (Hok & Hin & Hst');
      [done|rewrite Hnone; simpl; lia|done|].
    rewrite Hnone, app_nil_l in Hin. rewrite Hlen in Hok.
    split; [done|]. split.
    + rewrite allowed_canMakeRequest.
      fold (RateLimiter.inside t_end
              (RateLimiter.times id (RateLimiter.rounds id ps r).2)).
      rewrite Hin, length_fmap, Hlen. apply bool_decide_eq_false_2. lia.
    + intros t Hold. rewrite allowed_canMakeRequest, times_canMakeRequest.
      fold (RateLimiter.inside t_end
              (RateLimiter.times id (RateLimiter.rounds id ps r).2)).
      rewrite Hin.
      fold (RateLimiter.inside t ps.*2).
      rewrite inside_none; [by apply bool_decide_eq_true_2|].
      by apply Forall_fmap.
  - intros st calls c61 t_start Hidle Hlen Hout Hcalls Hreached st60 r61.
    assert (t_start ≤ Client.call_t_check c61)%Z as Hle.
    { destruct calls as [|c calls]; [simpl in Hlen; lia|].
      apply Forall_cons in Hcalls as [[? _] _]. lia. }
    destruct (outside_stable t_start (Client.call_t_check c61) _ Hle Hout)
      as [Hst Hnone].
    destruct (sequence_window t_start (Client.call_t_check c61) calls st)
      as (Hos & Hq & Hc & Hst' & Hin);
      [done|done|rewrite Hnone; simpl; lia|done|done|].
    rewrite Hnone, app_nil_l in Hin. fold st60 in Hq, Hc, Hst', Hin.
    split; [done|]. split; [done|]. intros Hr61.
    destruct (create_reached _ _ _ _ Hr61) as (cache1 & key & _ & Hcreate).
    fold r61 in Hcreate. cbn zeta in Hcreate.
    rewrite allowed_canMakeRequest in Hcreate.
    fold (RateLimiter.inside (Client.call_t_check c61)
            (RateLimiter.times Client.identifier (Client.rateLimiter st60)))
      in Hcreate.
    rewrite Hin, length_fmap, Hlen in Hcreate.
    rewrite bool_decide_eq_false_2 in Hcreate by lia.
    rewrite Hcreate. cbn [fst snd Client.requestQueue Client.providerCalls].
    split; [done|]. split; [done|]. split; [done|].
    intros p t_get t Hold Hreached'.
    destruct (create_reached _ _ _ _ Hreached')
      as (cache2 & key2 & _ & Hcreate2).
    rewrite Hcreate2. cbn zeta. cbn [Client.rateLimiter].
    rewrite allowed_canMakeRequest, times_canMakeRequest.
    fold (RateLimiter.inside (Client.call_t_check c61)
            (RateLimiter.times Client.identifier (Client.rateLimiter st60))).
    rewrite Hin.
    fold (RateLimiter.inside t
            ((λ c, Client.t_record (Client.call_tick c)) <$> calls)).
    rewrite inside_none; [|by apply Forall_fmap].
    by rewrite bool_decide_eq_true_2.
Qed.

End ClientFacts.

Section CacheAndLimiter.
Context `{JSNumber}.
Implicit Types (st : Client.t) (c : Client.Call).

(** An awaited call that resolves with a fresh response was handed to
    the provider once, and its response is stored under the call's key
    when the call may use the cache. *)
Lemma await_fresh c st r :
  Client.requestQueue st = [] →
  (Client.await c st).1 = Some (Resolved (Fresh r)) →
  ∃ key cache1,
    Client.cacheKey (Client.call_params c) = Some key
    ∧ Client.cache (Client.await c st).2
      = (if Client.eligible (Client.call_params c)
         then APICache.set key r APICache.defaultTTL
                (Client.t_set1 (Client.call_tick c))
                (Client.t_set2 (Client.call_tick c)) cache1
         else cache1)
    ∧ Client.requestQueue (Client.await c st).2 = []
    ∧ Client.providerCalls (Client.await c st).2
      = Client.providerCalls st
        ++ [Client.provider_request (Client.call_params c)].
Proof.
  intros Hidle Hfresh. unfold Client.await in *.
  destruct (create_reached (Client.call_params c) (Client.call_t_get c)
              (Client.call_t_check c) st) as (cache1 & key & Hkey & Hcreate).
  { destruct (Client.createChatCompletion _ _ _ _) as [[s|] st1]; [|done].
    cbn [fst] in *. by injection Hfresh as ->. }
  rewrite Hcreate in *. clear Hcreate. cbn zeta in *. revert Hfresh.
  destruct (RateLimiter.canMakeRequest _ _ _) as [[] limiter1];
    cbn [fst snd]; [|done].
  rewrite Hidle. cbn [app]. rewrite processQueue_one. cbn [fst snd last].
  unfold Client.request. cbn [Client.q_useCache Client.q_cacheKey
    Client.q_request Client.cache Client.requestQueue Client.providerCalls].
  destruct (Client.reply (Client.call_tick c)) as [completion|e];
    cbn [fst snd]; [|done].
  intros [= <-]. by exists key, cache1.
Qed.

(** After a fresh response was stored, a call with the same key that
    reads the cache before the entry expires is answered from it, and
    the client is left as it was. *)
Lemma second_call_hits c1 c2 st r :
  Client.requestQueue st = [] →
  Client.eligible (Client.call_params c1) = true →
  Client.eligible (Client.call_params c2) = true →
  Client.cacheKey (Client.call_params c1)
  = Client.cacheKey (Client.call_params c2) →
  (Client.await c1 st).1 = Some (Resolved (Fresh r)) →
  (Client.t_set1 (Client.call_tick c1)
   ≤ Client.t_set2 (Client.call_tick c1))%Z →
  (Client.call_t_get c2
   < Client.t_set1 (Client.call_tick c1) + APICache.defaultTTL)%Z →
  Client.await c2 (Client.await c1 st).2
  = (Some (Resolved (FromCache r)), (Client.await c1 st).2).
Proof.
  intros Hidle He1 He2 Hkeys Hfresh Hclock Hlive.
  destruct (await_fresh c1 st r Hidle Hfresh)
    as (key & cache1 & Hkey & Hcache & _ & _).
  rewrite He1 in Hcache. unfold Client.await at 1.
  rewrite (create_cache_hit _ _ _ _ key
             (APICache.mkEntry r (Client.t_set1 (Client.call_tick c1))
                (Client.t_set2 (Client.call_tick c1) + APICache.defaultTTL)%Z));
    [done|done| | |].
  - by rewrite <- Hkeys.
  - rewrite Hcache. unfold APICache.set. apply JSMap_get_set_eq.
  - simpl. lia.
Qed.

(** C3. A cache-eligible call whose key has a live entry returns the
    cached response at once: the limiter, the queue and the provider log
    are exactly as before, whatever the limiter would have answered.
    Hence of two awaited calls with the same model, temperature and
    messages, the second within the TTL of the first, only the first
    reaches the provider. *)
Theorem cache_hit_bypasses_limiter :
  (∀ (p : Client.Params) (t_get t_check : Z) st key entry,
     Client.eligible p = true →
     Client.cacheKey p = Some key →
     JSMap.get key (Client.cache st) = Some entry →
     (t_get ≤ APICache.expires entry)%Z →
     Client.createChatCompletion p t_get t_check st
     = (Client.Settled_now (Resolved (FromCache (APICache.data entry))), st))
  ∧
  (∀ c1 c2 st r,
     Client.requestQueue st = [] →
     Client.eligible (Client.call_params c1) = true →
     Client.eligible (Client.call_params c2) = true →
     Client.q_model (Client.provider_request (Client.call_params c1))
     = Client.q_model (Client.provider_request (Client.call_params c2)) →
     Client.q_temperature (Client.provider_request (Client.call_params c1))
     = Client.q_temperature (Client.provider_request (Client.call_params c2)) →
     Client.q_messages (Client.provider_request (Client.call_params c1))
     = Client.q_messages (Client.provider_request (Client.call_params c2)) →
     (Client.await c1 st).1 = Some (Resolved (Fresh r)) →
     (Client.t_set1 (Client.call_tick c1)
      ≤ Client.t_set2 (Client.call_tick c1))%Z →
     (Client.call_t_get c2
      < Client.t_set1 (Client.call_tick c1) + APICache.defaultTTL)%Z →
     (Client.sequence [c1; c2] st).1
     = [Some (Resolved (Fresh r)); Some (Resolved (FromCache r))]
     ∧ Client.providerCalls (Client.sequence [c1; c2] st).2
       = Client.providerCalls st
         ++ [Client.provider_request (Client.call_params c1)]).
Proof.
  split; [intros; by eapply create_cache_hit|].
  intros c1 c2 st r Hidle He1 He2 Hm Ht Hms Hfresh Hclock Hlive.
  assert (Client.cacheKey (Client.call_params c1)
          = Client.cacheKey (Client.call_params c2)) as Hkeys.
  { unfold Client.provider_request in Hm, Hms, Ht.
    cbn [Client.q_model Client.q_messages Client.q_temperature] in *.
    unfold Client.cacheKey. by rewrite Hm, Hms, Ht. }
  pose proof (second_call_hits c1 c2 st r Hidle He1 He2 Hkeys Hfresh
                Hclock Hlive) as Hsecond.
  destruct (await_fresh c1 st r Hidle Hfresh) as (_ & _ & _ & _ & _ & Hcalls).
  rewrite !sequence_cons. cbn [Client.sequence fst snd].
  rewrite Hsecond. cbn [fst snd]. by rewrite Hfresh, Hcalls.
Qed.

(** C9 as amended. The closure records the timestamp before it calls the
    provider, so the identity's window grows by the recording clock
    whether the provider succeeds or fails; on failure the caller gets
    the classified error and the cache is untouched. *)
Theorem timestamp_recorded_before_provider_call (q : Client.Queued)
    (tk : Client.Tick) st :
  RateLimiter.times Client.identifier
    (Client.rateLimiter (Client.request q tk st).2)
  = RateLimiter.times Client.identifier (Client.rateLimiter st)
    ++ [Client.t_record tk]
  ∧ Client.providerCalls (Client.request q tk st).2
    = Client.providerCalls st ++ [Client.q_request q]
  ∧ ∀ e, Client.reply tk = inr e →
      (Client.request q tk st).1 = Rejected (handleError e)
      ∧ Client.cache (Client.request q tk st).2 = Client.cache st.
Proof.
  destruct (request_spec q tk st) as (Ho & Hl & _ & Hc).
  rewrite Hl, times_recordRequest. split; [done|]. split; [done|].
  intros e He. unfold Client.request. by rewrite He.
Qed.

End CacheAndLimiter.

(** ** The cache key *)

Section CacheKey.
Context `{JSNumber}.



Lemma btoa_of_latin1 (s : jsstring) :
  Forall (λ c, (c ≤ 255)%N) s → btoa s = Some (base64 s).
Proof.
  intros Hs. unfold btoa.
  assert (forallb (λ c, (c <=? 255)%N) s = true) as ->; [|done].
  apply forallb_forall. intros c Hc%list_elem_of_In.
  apply N.leb_le. by eapply Forall_forall in Hs.
Qed.




End CacheKey.

Lemma cache_hit_bypasses_limiter_witness :
  (Client.sequence [demo_call 0; demo_repeat] Client.new).1
  = [Some (Resolved (Fresh (Client.response_of (demo_completion (js "ok")))));
     Some (Resolved
             (FromCache (Client.response_of (demo_completion (js "ok")))))]
  ∧ Client.providerCalls
      (Client.sequence [demo_call 0; demo_repeat] Client.new).2
    = [Client.provider_request (Client.call_params (demo_call 0))].
Proof.
  apply (proj2 (@cache_hit_bypasses_limiter rendered_numbers) (demo_call 0)
           demo_repeat Client.new
           (Client.response_of (demo_completion (js "ok")))).
  - reflexivity.
  - reflexivity.
  - reflexivity.
  - reflexivity.
  - reflexivity.
  - reflexivity.
  - vm_compute. reflexivity.
  - vm_compute. discriminate.
  - vm_compute. reflexivity.
Defined.

(** C9 as stated fails: the provider answers with a 500, the promise is
    rejected with the classified error, and yet the window of the
    identity has grown by the recorded timestamp. *)
Lemma provider_failure_still_recorded :
  (Client.await failing_call Client.new).1
  = Some (Rejected
            (Error (js "OpenAI service is temporarily unavailable. Please try again later.")))
  ∧ RateLimiter.times Client.identifier
      (Client.rateLimiter (Client.await failing_call Client.new).2)
    = [5%Z]
  ∧ RateLimiter.times Client.identifier
      (Client.rateLimiter (Client.await failing_call Client.new).2)
    ≠ RateLimiter.times Client.identifier
        (Client.rateLimiter (@Client.new rendered_numbers)).
Proof.
  split; [vm_compute; reflexivity|]. split; [vm_compute; reflexivity|].
  vm_compute. discriminate.
Qed.

Lemma timestamp_recorded_before_provider_call_witness :
  (Client.request demo_queued (Client.call_tick failing_call) Client.new).1
  = Rejected (handleError (mkProviderError (Some 500%Z) None (js "boom")))
  ∧ Client.cache
      (Client.request demo_queued (Client.call_tick failing_call)
         Client.new).2
    = Client.cache (@Client.new rendered_numbers).
Proof.
  apply (proj2 (proj2 (@timestamp_recorded_before_provider_call
                         rendered_numbers demo_queued
                         (Client.call_tick failing_call) Client.new))).
  reflexivity.
Defined.


Example key_hello :
  Client.generateCacheKey (H := rendered_numbers)
    [mkMessage user (js "Hello world")] (js "gpt-4o-mini") (js "0.7")
  = Some (js "chat:gpt-4o-mini:0.7:SGVsbG8gd29ybGQ=").
Proof. reflexivity. Qed.

Example key_prompt_a :
  Client.generateCacheKey (H := rendered_numbers)
    [mkMessage user prompt_a] (js "gpt-4o-mini") (js "0.7")
  = Some (js "chat:gpt-4o-mini:0.7:WW91IGFyZSBhIGhlbHBmdWwgYnVzaW5lc3MgaW50ZWxsaWdlbm").
Proof. reflexivity. Qed.

(** ** The reducer *)

Section ReducerFacts.
Implicit Types (state : AppState) (payload : StepUpdate).

Lemma update_workflow state payload :
  workflow (appReducer state (UPDATE_WORKFLOW_STEP payload))
  = (λ step, if decide (step_id step = u_id payload)
             then merge step payload else step) <$> workflow state.
Proof. done. Qed.

(** C7 as amended. [UPDATE_WORKFLOW_STEP] never fails and checks
    nothing: a step whose id matches takes the fields of the payload,
    so its status becomes the requested one whatever it was; the other
    steps, and the whole workflow when no id matches, stay as they
    are. *)
Theorem update_workflow_step_unchecked state payload :
  let state' := appReducer state (UPDATE_WORKFLOW_STEP payload) in
  length (workflow state') = length (workflow state)
  ∧ (∀ i step, workflow state !! i = Some step →
       workflow state' !! i
       = Some (if decide (step_id step = u_id payload)
               then merge step payload else step))
  ∧ (∀ i step new, workflow state !! i = Some step →
       step_id step = u_id payload → u_status payload = Some new →
       step_status <$> workflow state' !! i = Some new)
  ∧ ((∀ step, step ∈ workflow state → step_id step ≠ u_id payload) →
     workflow state' = workflow state).
Proof.
  cbn zeta. rewrite update_workflow. split; [by rewrite length_fmap|].
  split; [|split].
  - intros i step Hi. by rewrite list_lookup_fmap, Hi.
  - intros i step new Hi Hid Hnew. rewrite list_lookup_fmap, Hi. simpl.
    rewrite decide_True by done. unfold merge. simpl. by rewrite Hnew.
  - intros Hno. rewrite <- (list_fmap_id (workflow state)) at 2.
    apply list_fmap_ext. intros i step Hi. simpl.
    rewrite decide_False; [done|]. apply Hno.
    by eapply list_elem_of_lookup_2.
Qed.

End ReducerFacts.

(** C7 as stated fails: a completed step is sent back to [pending], a
    transition outside the allowed set, and the reducer applies it; an
    update for an id that no step has is accepted and changes nothing. *)
Lemma backward_transition_applied :
  allowed_transition completed pending = false
  ∧ step_status
    <$> workflow (appReducer finished_workflow
                    (UPDATE_WORKFLOW_STEP (set_status (js "step-1") pending)))
    = [pending]
  ∧ appReducer finished_workflow
      (UPDATE_WORKFLOW_STEP (set_status (js "step-9") active))
    = finished_workflow.
Proof. split; [done|]. split; by vm_compute. Qed.

Lemma update_workflow_step_unchecked_witness :
  step_status
  <$> workflow (appReducer finished_workflow
                  (UPDATE_WORKFLOW_STEP (set_status (js "step-1") error)))
      !! 0
  = Some error.
Proof.
  eapply (proj1 (proj2 (proj2 (update_workflow_step_unchecked
                                 finished_workflow
                                 (set_status (js "step-1") error))))).
  - reflexivity.
  - reflexivity.
  - reflexivity.
Defined.

(** ** Step identifiers *)

Lemma ascii_units_inj (s1 s2 : string) :
  ascii_units s1 = ascii_units s2 → s1 = s2.
Proof.
  revert s2. induction s1 as [|a s1 IH]; intros [|b s2]; simpl; try done.
  intros [= Hab Hs]. f_equal; [|by apply IH].
  by rewrite <- (ascii_N_embedding a), <- (ascii_N_embedding b), Hab.
Qed.

Lemma stepId_inj (i j : nat) : stepId i = stepId j → i = j.
Proof.
  unfold stepId, nat_to_js. intros Heq.
  apply app_inv_head, ascii_units_inj in Heq.
  apply (inj pretty) in Heq. lia.
Qed.

Lemma updates_of_app (l1 l2 : list Action) :
  updates_of (l1 ++ l2) = updates_of l1 ++ updates_of l2.
Proof. unfold updates_of. apply omap_app. Qed.

Lemma progress_snoc (i n : nat) :
  progress i (S n)
  = [set_status (stepId i) active; set_status (stepId i) completed]
    ++ progress (S i) n.
Proof. done. Qed.

Lemma elem_of_progress (u : StepUpdate) (i n : nat) :
  u ∈ progress i n → ∃ j, i ≤ j < i + n ∧ u_id u = stepId j.
Proof.
  unfold progress. intros Hin. apply list_elem_of_In, in_flat_map in Hin.
  destruct Hin as (j & Hj & Hu). apply in_seq in Hj.
  exists j. split; [lia|].
  simpl in Hu. by destruct Hu as [<-|[<-|[]]].
Qed.

(** ** Property reads *)

(** An entry written under a key is what a read of that key finds. *)
Lemma read_property_own {V} (obj : JSMap.t V) key v :
  JSMap.get key obj = Some v → read_property key obj = Own v.
Proof. unfold read_property. by intros ->. Qed.

Lemma agent_of_known key agent :
  JSMap.get key MultiAgentChatHandler.AGENTS = Some agent →
  MultiAgentChatHandler.agent_of key = Some agent.
Proof.
  intros Hagent. unfold MultiAgentChatHandler.agent_of.
  by rewrite (read_property_own _ _ _ Hagent).
Qed.

(** ** [MultiAgentChatHandler] *)

Section BasicHandlerFacts.
Context `{Builtins}.
Implicit Types (answers : Answers) (s : LoopState) (agents : list jsstring).

Lemma JSMap_get_elem {V} (m : JSMap.t V) k v :
  (k, v) ∈ m → is_Some (JSMap.get k m).
Proof.
  induction m as [|[k' v'] m IH]; [by intros ?%elem_of_nil|].
  intros Hin. simpl. destruct (decide (k' = k)); [by eexists|].
  apply elem_of_cons in Hin as [[= -> ->]|Hin]; [done|by apply IH].
Qed.

Lemma keyword_match_elem (table : list (jsstring * AgentConfig)) m k a kw :
  keyword_match table m = Some (k, a, kw) → (k, a) ∈ table.
Proof.
  induction table as [|[k' a'] table IH]; [done|]. simpl.
  destruct (decide (k' = js "general")).
  { intros ?. right. by apply IH. }
  destruct (find _ _).
  - intros [= -> -> ->]. left.
  - intros ?. right. by apply IH.
Qed.

Lemma selectAgent_known userMessage :
  Forall MultiAgentChatHandler.known (MultiAgentChatHandler.selectAgent userMessage).2.
Proof.
  unfold MultiAgentChatHandler.selectAgent.
  assert (MultiAgentChatHandler.known (js "eda")) as Heda by (vm_compute; by eexists).
  assert (MultiAgentChatHandler.known (js "forecasting")) as Hfc by (vm_compute; by eexists).
  assert (MultiAgentChatHandler.known (js "general")) as Hgen by (vm_compute; by eexists).
  unfold MultiAgentChatHandler.known in *.
  destruct (test_alternatives_i _ _); [by repeat apply Forall_cons_2|].
  destruct (keyword_match _ _) as [[[k a] kw]|] eqn:Hm.
  - apply keyword_match_elem in Hm. apply Forall_singleton.
    by eapply JSMap_get_elem.
  - by apply Forall_singleton.
Qed.

Lemma loop_cons answers hasData i agentKey agents s :
  MultiAgentChatHandler.loop answers hasData i (agentKey :: agents) s
  = match MultiAgentChatHandler.iteration answers hasData i agentKey s with
    | Continue s' => MultiAgentChatHandler.loop answers hasData (S i) agents s'
    | Return r s' => mkRun (Some r) (ls_log s') (ls_requested s')
    | Throw s' => mkRun None (ls_log s') (ls_requested s')
    end.
Proof. done. Qed.

Lemma updates_buildSystemPrompt hasData :
  updates_of (MultiAgentChatHandler.buildSystemPrompt_dispatches hasData) = [].
Proof. by destruct hasData. Qed.

Lemma updates_report_extracted (text x : jsstring) :
  updates_of (if report_extracted text then [ADD_THINKING_STEP x] else [])
  = [].
Proof. by destruct (report_extracted text). Qed.

(** The loop from step [i] on, when the requests of the next [n] steps
    are answered and the one after them throws: the run stops there with
    the apology, having issued [n + 1] requests and dispatched the
    updates of those [n + 1] steps only. *)
Lemma loop_failure answers hasData n : ∀ i agents s e,
  length (ls_requested s) = i →
  (∀ j, j < n → ∃ text, answers (i + j) = inl text) →
  answers (i + n) = inr e →
  n < length agents →
  Forall MultiAgentChatHandler.known agents →
  let run := MultiAgentChatHandler.loop answers hasData i agents s in
  requested run = ls_requested s ++ take (S n) agents
  ∧ returned run
    = Some (mkResult MultiAgentChatHandler.apology (js "general"))
  ∧ updates_of (dispatched run)
    = updates_of (ls_log s) ++ progress i n
      ++ [set_status (stepId (i + n)) active;
          set_status (stepId (i + n)) error].
Proof.
  induction n as [|n IH]; intros i agents s e Hreq Hok Hfail Hlen Hknown run;
    destruct agents as [|agentKey agents]; try (simpl in Hlen; lia);
    apply Forall_cons in Hknown as [[agent Hagent%agent_of_known] Hknown];
    unfold run; rewrite loop_cons; unfold MultiAgentChatHandler.iteration;
    rewrite Hagent, Hreq.
  - rewrite Nat.add_0_r in Hfail. rewrite Hfail.
    cbn [requested returned dispatched ls_log ls_requested take].
    split; [done|]. split; [done|].
    rewrite !updates_of_app, updates_buildSystemPrompt, Nat.add_0_r.
    done.
  - destruct (Hok 0) as [text Htext]; [lia|].
    rewrite Nat.add_0_r in Htext. rewrite Htext.
    match goal with
    | |- context [MultiAgentChatHandler.loop _ _ _ _ ?s'] =>
        destruct (IH (S i) agents s' e) as (IH1 & IH2 & IH3)
    end; [| | | |done|].
    + cbn [ls_requested]. rewrite length_app. simpl. lia.
    + intros j Hj. destruct (Hok (S j)) as [t Ht]; [lia|].
      exists t. by rewrite <- Ht, Nat.add_succ_r.
    + rewrite <- Hfail. f_equal. lia.
    + simpl in Hlen. lia.
    + rewrite IH1, IH2, IH3. cbn [ls_requested ls_log].
      split; [by rewrite <- app_assoc|]. split; [done|].
      rewrite !updates_of_app, updates_buildSystemPrompt,
        updates_report_extracted, progress_snoc.
      replace (S i + n) with (i + S n) by lia.
      cbn [updates_of omap list_omap app]. by rewrite <- !app_assoc.
Qed.

(** Step identifiers past the failing one do not occur among the
    dispatched updates. *)
Lemma later_steps_untouched (k j : nat) (st : Status) :
  k < j →
  set_status (stepId j) st
  ∉ progress 0 k ++ [set_status (stepId k) active;
                     set_status (stepId k) error].
Proof.
  intros Hkj Hin. apply elem_of_app in Hin as [Hin|Hin].
  - apply elem_of_progress in Hin as (i & Hi & Hid). simpl in Hid.
    apply stepId_inj in Hid. lia.
  - assert (u_id (set_status (stepId j) st) = stepId k) as Hid.
    { apply elem_of_cons in Hin as [->|Hin]; [done|].
      apply elem_of_cons in Hin as [->|Hin]; [done|].
      by apply elem_of_nil in Hin. }
    simpl in Hid. apply stepId_inj in Hid. lia.
Qed.

End BasicHandlerFacts.

(** ** [trim] *)

Lemma trimStart_app_nonempty (u v : jsstring) :
  trimStart u ≠ [] → trimStart (u ++ v) = trimStart u ++ v.
Proof.
  induction u as [|c u IH]; [done|]. simpl.
  destruct (is_js_space c); [exact IH|done].
Qed.

Lemma trimStart_snoc_nonspace (u : jsstring) (c : N) :
  is_js_space c = false → trimStart (u ++ [c]) ≠ [].
Proof.
  intros Hc. induction u as [|x u IH]; simpl.
  - by rewrite Hc.
  - by destruct (is_js_space x).
Qed.

Lemma trimEnd_app (s t : jsstring) :
  trimEnd t ≠ [] → trimEnd (s ++ t) = s ++ trimEnd t.
Proof.
  unfold trimEnd. intros Ht.
  assert (trimStart (rev t) ≠ []) as Hne.
  { intros Heq. apply Ht. by rewrite Heq. }
  by rewrite rev_app_distr, trimStart_app_nonempty, rev_app_distr,
    rev_involutive.
Qed.

Lemma trimEnd_cons_nonspace (c : N) (s : jsstring) :
  is_js_space c = false → trimEnd (c :: s) ≠ [].
Proof.
  intros Hc. unfold trimEnd. simpl. intros Heq.
  apply (f_equal (@rev N)) in Heq. rewrite rev_involutive in Heq.
  by apply (trimStart_snoc_nonspace (rev s) c).
Qed.

(** A text made of parts that each begin with a unit that is not white
    space is trimmed at the end of its last part only. *)
Lemma trim_concat_headed (c : N) (init : list jsstring) (lst : jsstring) :
  is_js_space c = false →
  Forall (λ part, ∃ rest, part = c :: rest) (init ++ [lst]) →
  trim (concat (init ++ [lst])) = concat init ++ trimEnd lst
  ∧ trimEnd lst ≠ [].
Proof.
  intros Hc Hparts.
  assert (trimEnd lst ≠ []) as Hlast.
  { apply Forall_app in Hparts as [_ Hl].
    apply Forall_singleton in Hl as [rest ->].
    by apply trimEnd_cons_nonspace. }
  split; [|done]. unfold trim.
  assert (trimStart (concat (init ++ [lst])) = concat (init ++ [lst])) as ->.
  { destruct init as [|p init]; simpl in *.
    - apply Forall_singleton in Hparts as [rest ->]. simpl. by rewrite Hc.
    - apply Forall_cons in Hparts as [[rest ->] _]. simpl. by rewrite Hc. }
  rewrite concat_app. simpl. rewrite app_nil_r. by apply trimEnd_app.
Qed.

(** ** [EnhancedMultiAgentChatHandler] *)

Section EnhancedHandlerFacts.
Context `{Builtins}.
Implicit Types (answers : Answers) (s : LoopState) (agents : list jsstring).

Lemma enhanced_loop_cons answers count agentKey agents insights s :
  EnhancedMultiAgentChatHandler.loop answers count (agentKey :: agents)
    insights s
  = match EnhancedMultiAgentChatHandler.iteration answers
            (bool_decide (count = 1)) agentKey insights s
    with
    | (Continue s', insights') =>
        EnhancedMultiAgentChatHandler.loop answers count agents insights' s'
    | (Return r s', _) => mkRun (Some r) (ls_log s') (ls_requested s')
    | (Throw s', _) => mkRun None (ls_log s') (ls_requested s')
    end.
Proof. done. Qed.

(** An iteration for an agent of [ENHANCED_AGENTS] always continues: it
    issues the request, dispatches thinking steps only, appends one
    section and aggregates the report of the answer, if any. *)
Lemma enhanced_iteration answers single agentKey insights s :
  EnhancedMultiAgentChatHandler.known agentKey →
  ∃ s' chunk,
    EnhancedMultiAgentChatHandler.iteration answers single agentKey insights s
    = (Continue s',
       EnhancedMultiAgentChatHandler.aggregated answers
         (length (ls_requested s)) [agentKey] insights)
    ∧ ls_requested s' = ls_requested s ++ [agentKey]
    ∧ ls_log s' = ls_log s ++ chunk
    ∧ forallb keeps_workflow chunk = true
    ∧ updates_of chunk = []
    ∧ forallb keeps_thoughts chunk = true
    ∧ ls_finalAgentType s' = agentKey
    ∧ (single = false →
       ls_finalResponse s'
       = ls_finalResponse s
         ++ concat (EnhancedMultiAgentChatHandler.sections answers
                      (length (ls_requested s)) [agentKey])).
Proof.
  intros [agent Hagent%read_property_own].
  unfold EnhancedMultiAgentChatHandler.iteration. rewrite Hagent.
  cbn [EnhancedMultiAgentChatHandler.sections
       EnhancedMultiAgentChatHandler.aggregated concat].
  rewrite Hagent.
  destruct (answers (length (ls_requested s))) as [aiResponse|e];
    eexists; eexists; (split; [reflexivity|]);
    cbn [ls_requested ls_log ls_finalAgentType ls_finalResponse concat];
    (split; [done|]); (split; [done|]).
  - split; [by destruct (report_extracted aiResponse)|].
    split; [by destruct (report_extracted aiResponse)|].
    split; [by destruct (report_extracted aiResponse)|].
    split; [done|]. intros ->. by rewrite app_nil_r.
  - split; [done|]. split; [done|]. split; [done|].
    split; [done|]. intros _. by rewrite app_nil_r.
Qed.

(** A run over agents of [ENHANCED_AGENTS]: every request is issued, only
    thinking steps are dispatched, and the run ends as the report
    aggregation decides: rejected without clearing the thinking steps
    when it throws, returning the trimmed sections otherwise. *)
Lemma enhanced_loop answers count agents : ∀ insights s,
  Forall EnhancedMultiAgentChatHandler.known agents →
  let run :=
    EnhancedMultiAgentChatHandler.loop answers count agents insights s in
  let throws :=
    EnhancedMultiAgentChatHandler.aggregation_throws count
      (EnhancedMultiAgentChatHandler.aggregated answers
         (length (ls_requested s)) agents insights) in
  requested run = ls_requested s ++ agents
  ∧ (∃ tail,
       dispatched run
       = ls_log s ++ tail ++ (if throws then [] else [CLEAR_THINKING_STEPS])
       ∧ forallb keeps_workflow tail = true
       ∧ updates_of tail = []
       ∧ forallb keeps_thoughts tail = true)
  ∧ ∃ text,
      returned run
      = (if throws then None
         else Some (mkResult text
                      (default (ls_finalAgentType s) (last agents))))
      ∧ (count ≠ 1 →
         text
         = or_else
             (trim (ls_finalResponse s
                    ++ concat (EnhancedMultiAgentChatHandler.sections answers
                                 (length (ls_requested s)) agents)))
             EnhancedMultiAgentChatHandler.fallback).
Proof.
  induction agents as [|agentKey agents IH]; intros insights s Hknown run
    throws.
  { unfold run, throws.
    cbn [EnhancedMultiAgentChatHandler.loop
         EnhancedMultiAgentChatHandler.aggregated
         EnhancedMultiAgentChatHandler.sections concat last default].
    rewrite !app_nil_r.
    destruct (EnhancedMultiAgentChatHandler.aggregation_throws count insights);
      cbn [requested dispatched returned].
    - split; [done|]. split; [by exists []; rewrite !app_nil_r|].
      by eexists.
    - split; [done|]. split; [by exists []|]. by eexists. }
  apply Forall_cons in Hknown as [Hkey Hknown].
  destruct (enhanced_iteration answers (bool_decide (count = 1)) agentKey
              insights s Hkey)
    as (s' & chunk & Hit & Hreq & Hlog & Hkeeps & Hupd & Hth & Htype & Hresp).
  assert (Hagg :
    EnhancedMultiAgentChatHandler.aggregated answers (length (ls_requested s))
      (agentKey :: agents) insights
    = EnhancedMultiAgentChatHandler.aggregated answers
        (length (ls_requested s'))
        agents
        (EnhancedMultiAgentChatHandler.aggregated answers
           (length (ls_requested s)) [agentKey] insights)).
  { destruct Hkey as [agent Hagent%read_property_own].
    cbn [EnhancedMultiAgentChatHandler.aggregated]. rewrite Hagent.
    rewrite Hreq, length_app. cbn [length]. by rewrite Nat.add_1_r. }
  assert (Hsec :
    EnhancedMultiAgentChatHandler.sections answers (length (ls_requested s))
      (agentKey :: agents)
    = EnhancedMultiAgentChatHandler.sections answers
        (length (ls_requested s)) [agentKey]
      ++ EnhancedMultiAgentChatHandler.sections answers
           (length (ls_requested s')) agents).
  { destruct Hkey as [agent Hagent%read_property_own].
    cbn [EnhancedMultiAgentChatHandler.sections]. rewrite Hagent.
    rewrite Hreq, length_app. cbn [length app]. by rewrite Nat.add_1_r. }
  unfold run, throws. rewrite enhanced_loop_cons, Hit, Hagg, Hsec.
  destruct (IH (EnhancedMultiAgentChatHandler.aggregated answers
                  (length (ls_requested s)) [agentKey] insights) s' Hknown)
    as (IH1 & (tail & IH2 & IH3 & IH4 & IH5) & text & IH6 & IH7).
  cbv zeta in IH1, IH2, IH6. rewrite IH1, IH2, IH6, Hreq, Hlog, Htype.
  split; [by rewrite <- app_assoc|]. split.
  - exists (chunk ++ tail). split; [by rewrite <- !app_assoc|].
    by rewrite !forallb_app, updates_of_app, Hkeeps, Hupd, Hth, IH3, IH4, IH5.
  - exists text. split.
    + match goal with
      | |- (if ?b then _ else _) = _ => destruct b; [done|]
      end.
      f_equal. f_equal. clear.
      destruct agents as [|a agents]; [done|].
      destruct (proj2 (last_is_Some (a :: agents))) as [x Hx]; [done|].
      by rewrite last_cons_cons, Hx.
    + intros Hcount. rewrite (IH7 Hcount), Hresp.
      * by rewrite concat_app, <- !app_assoc, Hreq.
      * by apply bool_decide_eq_false.
Qed.

Lemma selectOptimalAgents_known userMessage hasData :
  Forall EnhancedMultiAgentChatHandler.known
    (EnhancedMultiAgentChatHandler.agents
       (EnhancedMultiAgentChatHandler.selectOptimalAgents userMessage hasData)).
Proof.
  unfold EnhancedMultiAgentChatHandler.selectOptimalAgents.
  destruct (_ && _).
  { cbn [EnhancedMultiAgentChatHandler.agents].
    apply Forall_singleton. vm_compute. by eexists. }
  destruct (test_alternatives_i _ _).
  { cbn [EnhancedMultiAgentChatHandler.agents fmap list_fmap].
    repeat apply Forall_cons_2; try apply Forall_nil; vm_compute;
      by eexists. }
  destruct (keyword_match _ _) as [[[k a] kw]|] eqn:Hm;
    cbn [EnhancedMultiAgentChatHandler.agents]; apply Forall_singleton.
  - apply keyword_match_elem in Hm. by eapply JSMap_get_elem.
  - vm_compute. by eexists.
Qed.

Lemma selectOptimalAgents_pending userMessage hasData :
  Forall (λ step, step_status step = pending)
    (EnhancedMultiAgentChatHandler.sel_workflow
       (EnhancedMultiAgentChatHandler.selectOptimalAgents userMessage hasData)).
Proof.
  unfold EnhancedMultiAgentChatHandler.selectOptimalAgents.
  destruct (_ && _); [by repeat apply Forall_cons_2|].
  destruct (test_alternatives_i _ _); [by repeat apply Forall_cons_2|].
  destruct (keyword_match _ _) as [[[k a] kw]|];
    by repeat apply Forall_cons_2.
Qed.

End EnhancedHandlerFacts.

(** ** The handlers and the claims about them *)

Section HandlerClaims.
Context `{Builtins}.

Lemma createWorkflowSteps_lookup (agentKeys : list jsstring) i step :
  MultiAgentChatHandler.createWorkflowSteps agentKeys !! i = Some step →
  step_id step = stepId i
  ∧ step_status step = (if decide (i = 0) then active else pending).
Proof.
  unfold MultiAgentChatHandler.createWorkflowSteps.
  rewrite list_lookup_imap. destruct (agentKeys !! i); [|done].
  by intros [= <-].
Qed.

Lemma run_agents_failure answers hasData
    (selection : list Action * list jsstring) k e :
  Forall MultiAgentChatHandler.known selection.2 →
  updates_of selection.1 = [] →
  k < length selection.2 →
  (∀ j, j < k → ∃ text, answers j = inl text) →
  answers k = inr e →
  let run := MultiAgentChatHandler.run_agents answers hasData selection in
  requested run = take (S k) selection.2
  ∧ returned run
    = Some (mkResult MultiAgentChatHandler.apology (js "general"))
  ∧ updates_of (dispatched run)
    = progress 0 k ++ [set_status (stepId k) active;
                       set_status (stepId k) error].
Proof.
  intros Hknown Hsel Hk Hok Hfail run. unfold run,
    MultiAgentChatHandler.run_agents.
  match goal with
  | |- context [MultiAgentChatHandler.loop _ _ _ _ ?s] =>
      destruct (loop_failure answers hasData k 0 selection.2 s e)
        as (H1 & H2 & H3); try done
  end.
  rewrite H1, H2, H3. cbn [ls_requested ls_log].
  rewrite !updates_of_app, Hsel. done.
Qed.

(** A run of the enhanced handler over agents of [ENHANCED_AGENTS],
    from its first dispatch on. *)
Lemma run_selection_spec answers
    (sel : EnhancedMultiAgentChatHandler.Selection) :
  Forall EnhancedMultiAgentChatHandler.known
    (EnhancedMultiAgentChatHandler.agents sel) →
  let run := EnhancedMultiAgentChatHandler.run_selection answers sel in
  let throws :=
    EnhancedMultiAgentChatHandler.aggregation_throws
      (length (EnhancedMultiAgentChatHandler.agents sel))
      (EnhancedMultiAgentChatHandler.aggregated answers 0
         (EnhancedMultiAgentChatHandler.agents sel) []) in
  requested run = EnhancedMultiAgentChatHandler.agents sel
  ∧ updates_of (dispatched run) = []
  ∧ ∃ text,
      returned run
      = (if throws then None
         else Some (mkResult text
                      (default (js "general")
                         (last (EnhancedMultiAgentChatHandler.agents sel)))))
      ∧ (length (EnhancedMultiAgentChatHandler.agents sel) ≠ 1 →
         text
         = or_else
             (trim (concat (EnhancedMultiAgentChatHandler.sections answers 0
                              (EnhancedMultiAgentChatHandler.agents sel))))
             EnhancedMultiAgentChatHandler.fallback).
Proof.
  intros Hknown. cbv zeta.
  unfold EnhancedMultiAgentChatHandler.run_selection.
  match goal with
  | |- context [EnhancedMultiAgentChatHandler.loop _ ?count _ [] ?s] =>
      destruct (enhanced_loop answers count
                  (EnhancedMultiAgentChatHandler.agents sel) [] s Hknown)
        as (H1 & (tail & H2 & _ & H3 & _) & text & H4 & H5)
  end.
  cbv zeta in H1, H2, H4.
  cbn [ls_requested ls_log ls_finalResponse ls_finalAgentType length]
    in H1, H2, H4, H5.
  rewrite H1, H2, H4. split; [done|]. split.
  - rewrite !updates_of_app, H3.
    by destruct (decide _), (EnhancedMultiAgentChatHandler.aggregation_throws
                               _ _).
  - by exists text.
Qed.

(** The section of a failed request holds the warning sign and the
    error text under the agent's name. *)
Lemma sections_failed answers (agents : list jsstring) :
  ∀ i k agentKey agent e,
    Forall EnhancedMultiAgentChatHandler.known agents →
    agents !! k = Some agentKey →
    JSMap.get agentKey EnhancedMultiAgentChatHandler.ENHANCED_AGENTS
    = Some agent →
    answers (i + k) = inr e →
    EnhancedMultiAgentChatHandler.sections answers i agents !! k
    = Some (EnhancedMultiAgentChatHandler.failed_section agent e).
Proof.
  induction agents as [|a agents IH]; intros i k agentKey agent e Hknown Hk
    Hagent He; [done|].
  apply Forall_cons in Hknown as [[a0 Ha0%read_property_own] Hknown].
  cbn [EnhancedMultiAgentChatHandler.sections].
  destruct k as [|k].
  - simpl in Hk. apply (inj Some) in Hk. subst a.
    rewrite (read_property_own _ _ _ Hagent).
    rewrite Nat.add_0_r in He. by rewrite He.
  - rewrite Ha0. simpl in Hk. cbn [lookup list_lookup].
    apply (IH (S i) k agentKey agent e); [done..|].
    rewrite <- He. f_equal. lia.
Qed.


(** No report is built for fewer than two agents. *)
Lemma aggregation_not_multi count
    (insights : EnhancedMultiAgentChatHandler.Insights) :
  count ≤ 1 →
  EnhancedMultiAgentChatHandler.aggregation_throws count insights = false.
Proof.
  intros Hcount. unfold EnhancedMultiAgentChatHandler.aggregation_throws.
  by rewrite bool_decide_eq_false_2 by lia.
Qed.

(** Answers without a report block that parses aggregate nothing. *)
Lemma aggregated_nothing answers (agents : list jsstring) : ∀ i,
  (∀ n text, answers n = inl text → report_data text = None) →
  EnhancedMultiAgentChatHandler.aggregated answers i agents [] = [].
Proof.
  intros i Hnone. revert i.
  induction agents as [|a agents IH]; intros i; [done|].
  cbn [EnhancedMultiAgentChatHandler.aggregated].
  destruct (read_property a _); [|apply IH|done].
  destruct (answers i) as [text|e] eqn:Hi; [|apply IH].
  unfold EnhancedMultiAgentChatHandler.aggregate.
  rewrite (Hnone i text Hi). apply IH.
Qed.

(** C5 as amended. [MultiAgentChatHandler] stops at the first failing
    step, whatever the error: it has issued the requests of the steps up
    to that one only, and the steps after it, registered as pending,
    never get an update.  [EnhancedMultiAgentChatHandler] does not stop:
    it issues the request of every selected agent and never dispatches a
    workflow update at all; the section of a failed step holds the
    warning sign and the error text under the agent's name, and a
    response, when one is returned, is the sections joined and trimmed.
    A response is returned unless the report aggregation that follows
    the loop throws. *)
Theorem failure_halts_basic_handler_only :
  (∀ answers hasData (selection : list Action * list jsstring) k e,
     Forall MultiAgentChatHandler.known selection.2 →
     updates_of selection.1 = [] →
     k < length selection.2 →
     (∀ j, j < k → ∃ text, answers j = inl text) →
     answers k = inr e →
     let run := MultiAgentChatHandler.run_agents answers hasData selection in
     requested run = take (S k) selection.2
     ∧ updates_of (dispatched run)
       = progress 0 k ++ [set_status (stepId k) active;
                          set_status (stepId k) error]
     ∧ (∀ j st, k < j →
          set_status (stepId j) st ∉ updates_of (dispatched run))
     ∧ (∀ j step, k < j →
          MultiAgentChatHandler.createWorkflowSteps selection.2 !! j
          = Some step →
          step_id step = stepId j ∧ step_status step = pending))
  ∧ (∀ userMessage,
       Forall MultiAgentChatHandler.known
         (MultiAgentChatHandler.selectAgent userMessage).2
       ∧ updates_of (MultiAgentChatHandler.selectAgent userMessage).1 = [])
  ∧ (∀ answers (sel : EnhancedMultiAgentChatHandler.Selection),
       Forall EnhancedMultiAgentChatHandler.known
         (EnhancedMultiAgentChatHandler.agents sel) →
       let run := EnhancedMultiAgentChatHandler.run_selection answers sel in
       requested run = EnhancedMultiAgentChatHandler.agents sel
       ∧ updates_of (dispatched run) = []
       ∧ (is_Some (returned run)
          ↔ EnhancedMultiAgentChatHandler.aggregation_throws
              (length (EnhancedMultiAgentChatHandler.agents sel))
              (EnhancedMultiAgentChatHandler.aggregated answers 0
                 (EnhancedMultiAgentChatHandler.agents sel) [])
            = false)
       ∧ (∀ k agentKey agent e,
            EnhancedMultiAgentChatHandler.agents sel !! k = Some agentKey →
            JSMap.get agentKey EnhancedMultiAgentChatHandler.ENHANCED_AGENTS
            = Some agent →
            answers k = inr e →
            EnhancedMultiAgentChatHandler.sections answers 0
              (EnhancedMultiAgentChatHandler.agents sel) !! k
            = Some (js "## " ++ agent_name agent ++ nl ++ js "⚠️ "
                    ++ EnhancedMultiAgentChatHandler.error_text e
                    ++ nl ++ nl)
            ∧ ∀ r, returned run = Some r →
                response r
                = or_else
                    (trim (concat
                             (EnhancedMultiAgentChatHandler.sections answers 0
                                (EnhancedMultiAgentChatHandler.agents sel))))
                    EnhancedMultiAgentChatHandler.fallback))
  ∧ (∀ userMessage hasData,
       Forall EnhancedMultiAgentChatHandler.known
         (EnhancedMultiAgentChatHandler.agents
            (EnhancedMultiAgentChatHandler.selectOptimalAgents userMessage
               hasData))).
Proof.
  split; [|split; [|split]].
  - intros answers hasData selection k e Hknown Hsel Hk Hok Hfail run.
    destruct (run_agents_failure answers hasData selection k e)
      as (H1 & _ & H3); try done.
    fold run in H1, H3. split; [done|]. split; [done|]. split.
    + intros j st Hj. rewrite H3. by apply later_steps_untouched.
    + intros j step Hj Hstep.
      apply createWorkflowSteps_lookup in Hstep as [Hid Hst].
      split; [done|]. rewrite Hst. apply decide_False. lia.
  - intros userMessage. split; [apply selectAgent_known|].
    unfold MultiAgentChatHandler.selectAgent.
    destruct (test_alternatives_i _ _); [done|].
    by destruct (keyword_match _ _) as [[[k a] kw]|].
  - intros answers sel Hknown run.
    destruct (run_selection_spec answers sel Hknown)
      as (H1 & H2 & text & H3 & H4).
    cbv zeta in H1, H2, H3. fold run in H1, H2, H3.
    split; [done|]. split; [done|]. split.
    { rewrite H3.
      destruct (EnhancedMultiAgentChatHandler.aggregation_throws _ _).
      - split; [by intros [? ?]|done].
      - split; [done|by eexists]. }
    intros k agentKey agent e Hk Hagent He. split.
    { by apply (sections_failed answers _ 0 k agentKey agent e). }
    intros r Hr. rewrite H3 in Hr.
    destruct (EnhancedMultiAgentChatHandler.aggregation_throws _ _); [done|].
    apply (inj Some) in Hr. subst r. cbn [response].
    destruct (decide (length (EnhancedMultiAgentChatHandler.agents sel) = 1))
      as [Hone|Hmany]; [|by apply H4].
    clear H4.
    destruct (EnhancedMultiAgentChatHandler.agents sel)
      as [|a [|b rest]] eqn:Hagents; try done.
    destruct k as [|k]; [|done]. simpl in Hk. apply (inj Some) in Hk.
    subst a. revert H3. unfold run,
      EnhancedMultiAgentChatHandler.run_selection.
    rewrite Hagents, enhanced_loop_cons.
    unfold EnhancedMultiAgentChatHandler.iteration.
    rewrite (read_property_own _ _ _ Hagent).
    cbn [ls_requested length]. rewrite He.
    cbn [EnhancedMultiAgentChatHandler.loop
         EnhancedMultiAgentChatHandler.sections
         EnhancedMultiAgentChatHandler.aggregation_throws
         ls_finalResponse ls_finalAgentType returned concat app].
    rewrite (read_property_own _ _ _ Hagent), He.
    cbn [concat]. rewrite app_nil_r.
    rewrite aggregation_not_multi by lia. cbn [returned].
    intros Hret. by apply (inj Some), (f_equal response) in Hret.
  - apply selectOptimalAgents_known.
Qed.



(** C8 as amended. The workflows [selectOptimalAgents] builds have every
    step pending.  [createWorkflowSteps] numbers its steps from
    ["step-1"] and creates the first one active and every later one
    pending.  Registering a workflow stores the steps as they are. *)
Theorem initial_step_statuses :
  (∀ userMessage hasData,
     Forall (λ step, step_status step = pending)
       (EnhancedMultiAgentChatHandler.sel_workflow
          (EnhancedMultiAgentChatHandler.selectOptimalAgents userMessage
             hasData)))
  ∧ (∀ (agentKeys : list jsstring) i step,
       MultiAgentChatHandler.createWorkflowSteps agentKeys !! i = Some step →
       step_id step = stepId i
       ∧ step_status step = (if decide (i = 0) then active else pending))
  ∧ (∀ agentKeys : list jsstring,
       length (MultiAgentChatHandler.createWorkflowSteps agentKeys)
       = length agentKeys)
  ∧ (∀ state steps, workflow (appReducer state (SET_WORKFLOW steps)) = steps).
Proof.
  split; [apply selectOptimalAgents_pending|].
  split; [apply createWorkflowSteps_lookup|]. split; [|done].
  intros agentKeys. unfold MultiAgentChatHandler.createWorkflowSteps.
  apply length_imap.
Qed.

End HandlerClaims.

(** C5 as stated fails: every request is refused for want of valid
    credentials, the first one included, and the enhanced handler still
    issues the requests of all six agents of the pipeline. *)
Lemma enhanced_handler_continues_after_unauthorized :
  requested
    (EnhancedMultiAgentChatHandler.generateEnhancedResponse
       (H := ascii_builtins) answers_unauthorized (js "forecast") true)
  = js <$> ["eda"; "preprocessing"; "modeling"; "validation"; "forecasting";
            "insights"].
Proof. vm_compute. reflexivity. Qed.

Lemma failure_halts_basic_handler_only_witness :
  requested
    (MultiAgentChatHandler.generateResponse (H := ascii_builtins)
       answers_unauthorized (js "forecast") false)
  = [js "eda"]
  ∧ updates_of
      (dispatched
         (MultiAgentChatHandler.generateResponse (H := ascii_builtins)
            answers_unauthorized (js "forecast") false))
    = [set_status (stepId 0) active; set_status (stepId 0) error]
  ∧ (set_status (stepId 1) active
     ∉ updates_of
         (dispatched
            (MultiAgentChatHandler.generateResponse (H := ascii_builtins)
               answers_unauthorized (js "forecast") false)))
  ∧ (∃ step,
        MultiAgentChatHandler.createWorkflowSteps
          [js "eda"; js "forecasting"] !! 1 = Some step
        ∧ step_id step = stepId 1 ∧ step_status step = pending).
Proof.
  destruct (proj1 (@failure_halts_basic_handler_only ascii_builtins)
              answers_unauthorized false
              (MultiAgentChatHandler.selectAgent (H := ascii_builtins)
                 (js "forecast"))
              0
              (ThrownError
                 (js "Invalid API key. Please check your OpenAI configuration.")))
    as (H1 & H2 & H3 & H4).
  - vm_compute. repeat constructor; by eexists.
  - vm_compute. reflexivity.
  - vm_compute. lia.
  - intros j Hj. lia.
  - reflexivity.
  - split; [exact H1|]. split; [exact H2|]. split; [apply H3; lia|].
    eexists. split; [vm_compute; reflexivity|].
    apply (H4 1); [lia|]. vm_compute. reflexivity.
Defined.



(** With such an answer the pipeline of six agents still issues every
    request, but the report aggregation throws: nothing is returned and
    the last action dispatched is a thinking step, not the clearing of
    the thinking steps. *)
Example null_report_rejects_run :
  requested
    (EnhancedMultiAgentChatHandler.generateEnhancedResponse
       (H := ascii_builtins) answers_null_report (js "forecast") true)
  = js <$> ["eda"; "preprocessing"; "modeling"; "validation"; "forecasting";
            "insights"]
  ∧ returned
      (EnhancedMultiAgentChatHandler.generateEnhancedResponse
         (H := ascii_builtins) answers_null_report (js "forecast") true)
    = None
  ∧ last
      (dispatched
         (EnhancedMultiAgentChatHandler.generateEnhancedResponse
            (H := ascii_builtins) answers_null_report (js "forecast") true))
    = Some (ADD_THINKING_STEP (js "✅ Business Analyst analysis complete")).
Proof.
  split; [vm_compute; reflexivity|]. split; vm_compute; reflexivity.
Qed.

(** The report of that run starts with the section of the completed
    step and goes on with the annotated failure of the next one. *)
Example enhanced_report_keeps_completed_output :
  ∃ text rest,
    returned
      (EnhancedMultiAgentChatHandler.generateEnhancedResponse
         (H := ascii_builtins) answers_second_fails (js "forecast") true)
    = Some (mkResult text (js "insights"))
    ∧ text
      = js "## Data Explorer" ++ nl ++ js "EDA done" ++ nl ++ nl
        ++ js "## Data Engineer" ++ nl
        ++ js "⚠️ Network connection failed. Please check your internet connection."
        ++ nl ++ nl ++ rest.
Proof. vm_compute. do 2 eexists. split; reflexivity. Qed.

(** C8 as stated fails: the steps [createWorkflowSteps] builds start
    with an active one, and right after the registration, before any
    update is dispatched, the first step of the workflow is active. *)
Lemma first_step_registered_active :
  step_status
  <$> MultiAgentChatHandler.createWorkflowSteps [js "eda"; js "forecasting"]
  = [active; pending]
  ∧ updates_of
      (take 3 (dispatched
                 (MultiAgentChatHandler.generateResponse (H := ascii_builtins)
                    answers_second_fails (js "forecast") false)))
    = []
  ∧ step_status
    <$> workflow
          (dispatch_all (mkApp [] false [])
             (take 3 (dispatched
                        (MultiAgentChatHandler.generateResponse
                           (H := ascii_builtins) answers_second_fails
                           (js "forecast") false))))
    = [active; pending].
Proof.
  split; [vm_compute; reflexivity|]. split; vm_compute; reflexivity.
Qed.

Lemma initial_step_statuses_witness :
  ∃ step,
    MultiAgentChatHandler.createWorkflowSteps [js "eda"; js "forecasting"]
      !! 1 = Some step
    ∧ step_id step = stepId 1 ∧ step_status step = pending.
Proof.
  eexists. split; [vm_compute; reflexivity|].
  apply (proj1 (proj2 (@initial_step_statuses ascii_builtins))
           [js "eda"; js "forecasting"] 1).
  vm_compute. reflexivity.
Defined.

Lemma rate_limit_window_witness :
  ((RateLimiter.rounds (js "tenant-a") demo_rounds RateLimiter.empty).1
   = replicate RateLimiter.maxRequests true
   ∧ (RateLimiter.canMakeRequest 100 (js "tenant-a")
        (RateLimiter.rounds (js "tenant-a") demo_rounds
           RateLimiter.empty).2).1 = false)
  ∧ (Client.createChatCompletion (Client.call_params (demo_call 100)) 100 100
       (Client.sequence demo_calls Client.new).2).1
    = Client.Settled_now (Rejected (Error Client.rate_limit_message)).
Proof.
  split.
  - destruct (proj1 (@rate_limit_window rendered_numbers) (js "tenant-a")
                RateLimiter.empty demo_rounds 0%Z 100%Z) as (H1 & H2 & _).
    + reflexivity.
    + vm_compute. constructor.
    + apply (bool_decide_unpack _). vm_compute. exact I.
    + by split.
  - destruct (proj2 (@rate_limit_window rendered_numbers) Client.new
                demo_calls (demo_call 100) 0%Z) as (_ & _ & Hrej).
    + reflexivity.
    + reflexivity.
    + vm_compute. constructor.
    + apply (bool_decide_unpack _). vm_compute. exact I.
    + vm_compute. repeat constructor.
    + apply Hrej. vm_compute. reflexivity.
Defined.

(** ** More on [Map] and [APICache] *)

Section JSMapMore.
Context {V : Type}.
Implicit Types (m : JSMap.t V) (k : jsstring) (v : V).

Lemma JSMap_get_Some_elem k v m : JSMap.get k m = Some v → (k, v) ∈ m.
Proof.
  induction m as [|[k' v'] m IH]; simpl; [done|].
  destruct (decide (k' = k)) as [->|Hne].
  - intros [= ->]. left.
  - intros Hget. right. by apply IH.
Qed.

Lemma JSMap_get_Some_key k v m : JSMap.get k m = Some v → k ∈ JSMap.keys m.
Proof.
  intros Hget%JSMap_get_Some_elem.
  apply list_elem_of_fmap. by exists (k, v).
Qed.

Lemma JSMap_get_is_Some k m : k ∈ JSMap.keys m → is_Some (JSMap.get k m).
Proof.
  induction m as [|[k' v'] m IH]; simpl.
  - by intros ?%elem_of_nil.
  - destruct (decide (k' = k)) as [->|Hne]; [by eexists|].
    intros [Heq|Hin]%elem_of_cons; [by destruct Hne|by apply IH].
Qed.

Lemma JSMap_keys_set_present k v m :
  k ∈ JSMap.keys m → JSMap.keys (JSMap.set k v m) = JSMap.keys m.
Proof.
  induction m as [|[k' v'] m IH]; simpl.
  - by intros ?%elem_of_nil.
  - destruct (decide (k' = k)) as [->|Hne]; simpl; [done|].
    intros [Heq|Hin]%elem_of_cons; [by destruct Hne|].
    f_equal. by apply IH.
Qed.

Lemma JSMap_keys_set k v m :
  JSMap.keys (JSMap.set k v m)
  = if decide (k ∈ JSMap.keys m) then JSMap.keys m else JSMap.keys m ++ [k].
Proof.
  destruct (decide (k ∈ JSMap.keys m)) as [Hin|Hnotin].
  - by apply JSMap_keys_set_present.
  - rewrite JSMap_set_fresh; [|done]. unfold JSMap.keys. by rewrite fmap_app.
Qed.

Lemma JSMap_NoDup_set k v m :
  NoDup (JSMap.keys m) → NoDup (JSMap.keys (JSMap.set k v m)).
Proof.
  intros Hnd. rewrite JSMap_keys_set. case_decide; [done|].
  apply NoDup_app. split; [done|]. split.
  - intros x Hx ->%list_elem_of_singleton. done.
  - apply NoDup_singleton.
Qed.

Lemma JSMap_delete_sublist k m : sublist (JSMap.delete k m) m.
Proof.
  induction m as [|[k' v'] m IH]; simpl; [done|].
  destruct (decide (k' = k)).
  - by apply sublist_cons.
  - by apply sublist_skip.
Qed.

Lemma JSMap_keys_delete_sublist k m :
  sublist (JSMap.keys (JSMap.delete k m)) (JSMap.keys m).
Proof.
  induction m as [|[k' v'] m IH]; simpl; [done|].
  destruct (decide (k' = k)).
  - by apply sublist_cons.
  - by apply sublist_skip.
Qed.

Lemma JSMap_NoDup_delete k m :
  NoDup (JSMap.keys m) → NoDup (JSMap.keys (JSMap.delete k m)).
Proof.
  intros Hnd. eapply sublist_NoDup; [done|].
  apply JSMap_keys_delete_sublist.
Qed.

Lemma JSMap_get_set_ne k k' v m :
  k ≠ k' → JSMap.get k' (JSMap.set k v m) = JSMap.get k' m.
Proof.
  intros Hne. induction m as [|[k2 v2] m IH]; simpl.
  - by rewrite decide_False.
  - destruct (decide (k2 = k)) as [->|Hne2]; simpl.
    + by rewrite !decide_False.
    + by rewrite IH.
Qed.

Lemma JSMap_get_delete_ne k k' m :
  k ≠ k' → JSMap.get k' (JSMap.delete k m) = JSMap.get k' m.
Proof.
  intros Hne. induction m as [|[k2 v2] m IH]; simpl; [done|].
  destruct (decide (k2 = k)) as [->|Hne2]; simpl.
  - by rewrite decide_False.
  - by rewrite IH.
Qed.

Lemma JSMap_size_delete k m :
  k ∈ JSMap.keys m → S (JSMap.size (JSMap.delete k m)) = JSMap.size m.
Proof.
  unfold JSMap.size.
  induction m as [|[k' v'] m IH]; simpl.
  - by intros ?%elem_of_nil.
  - destruct (decide (k' = k)) as [->|Hne]; [done|].
    intros [Heq|Hin]%elem_of_cons; [by destruct Hne|].
    simpl. f_equal. by apply IH.
Qed.

Lemma JSMap_size_set_present k v m :
  k ∈ JSMap.keys m → JSMap.size (JSMap.set k v m) = JSMap.size m.
Proof.
  intros Hin. unfold JSMap.size.
  rewrite <- !(length_fmap fst). fold (JSMap.keys (JSMap.set k v m)).
  fold (JSMap.keys m). by rewrite JSMap_keys_set_present.
Qed.

End JSMapMore.

Section CacheMore.
Context {T : Type}.
Implicit Types (c : APICache.cache T) (key : jsstring) (d : T).

Arguments APICache.maxSize : simpl never.

(** X1. A lookup of a key that is not stored answers [null] and changes
    nothing; a lookup of an entry whose expiry lies before the clock
    answers [null], removes exactly that entry and leaves every other
    key as it was. *)
Theorem get_miss_and_expiry key now c :
  NoDup (JSMap.keys c) →
  (JSMap.get key c = None → APICache.get key now c = (None, c))
  ∧ (∀ entry,
       JSMap.get key c = Some entry →
       (APICache.expires entry < now)%Z →
       let c' := (APICache.get key now c).2 in
       (APICache.get key now c).1 = None
       ∧ JSMap.get key c' = None
       ∧ S (JSMap.size c') = JSMap.size c
       ∧ ∀ key', key' ≠ key → JSMap.get key' c' = JSMap.get key' c).
Proof.
  intros Hnd. split.
  - intros Hget. unfold APICache.get. by rewrite Hget.
  - intros entry Hget Hexp. unfold APICache.get. rewrite Hget.
    apply Z.ltb_lt in Hexp. rewrite Hexp. cbn [fst snd].
    split; [done|]. split; [by apply JSMap_get_delete_eq|].
    split.
    + apply JSMap_size_delete. by eapply JSMap_get_Some_key.
    + intros key' Hne. by apply JSMap_get_delete_ne.
Qed.

Lemma set_well_formed key d ttl now1 now2 c :
  CacheOps.well_formed c →
  CacheOps.well_formed (APICache.set key d ttl now1 now2 c).
Proof.
  intros [Hnd Hsize]. split; [|by apply set_size_bound].
  unfold APICache.set. apply JSMap_NoDup_set.
  destruct (APICache.maxSize <=? JSMap.size c)%nat; [|done].
  destruct (JSMap.firstKey c); [|done].
  by apply JSMap_NoDup_delete.
Qed.

Lemma get_well_formed key now c :
  CacheOps.well_formed c →
  CacheOps.well_formed (APICache.get key now c).2.
Proof.
  intros [Hnd Hsize]. unfold APICache.get.
  destruct (JSMap.get key c) as [entry|]; [|done].
  destruct (APICache.expires entry <? now)%Z; [|done].
  cbn [snd]. split; [by apply JSMap_NoDup_delete|].
  pose proof (sublist_length _ _ (JSMap_delete_sublist key c)) as Hlen.
  unfold JSMap.size in *. lia.
Qed.

(** X2. Whatever calls a cache receives, in whatever order and at
    whatever clock readings, it stays a map with distinct keys and at
    most [maxSize] entries. *)
Theorem cache_well_formed_invariant (ops : list (CacheOps.Op T)) c :
  CacheOps.well_formed c → CacheOps.well_formed (CacheOps.run ops c).
Proof.
  unfold CacheOps.run. revert c.
  induction ops as [|o ops IH]; intros c Hwf; simpl; [done|].
  apply IH. destruct o as [key d ttl now1 now2|key now|]; simpl.
  - by apply set_well_formed.
  - by apply get_well_formed.
  - split; [apply NoDup_nil_2|simpl; lia].
Qed.

(** X3. Storing under a key that is already present: below capacity the
    entry is overwritten in place and the order of the keys, hence the
    order of eviction, does not change; at capacity the oldest entry,
    when it is another one, is evicted all the same, so the cache
    shrinks by one. *)
Theorem set_present_key key d ttl now1 now2 c :
  NoDup (JSMap.keys c) →
  key ∈ JSMap.keys c →
  let c' := APICache.set key d ttl now1 now2 c in
  (JSMap.size c < APICache.maxSize →
     JSMap.keys c' = JSMap.keys c
     ∧ JSMap.get key c'
       = Some (APICache.mkEntry d now1 (now2 + ttl)%Z))
  ∧ (APICache.maxSize ≤ JSMap.size c →
     ∀ first, JSMap.firstKey c = Some first → first ≠ key →
       JSMap.keys c' = drop 1 (JSMap.keys c)
       ∧ JSMap.get first c' = None
       ∧ S (JSMap.size c') = JSMap.size c
       ∧ JSMap.get key c'
         = Some (APICache.mkEntry d now1 (now2 + ttl)%Z)).
Proof.
  intros Hnd Hin. cbv zeta. split.
  - intros Hlt. unfold APICache.set.
    destruct (Nat.leb_spec APICache.maxSize (JSMap.size c)); [lia|].
    split; [by apply JSMap_keys_set_present|apply JSMap_get_set_eq].
  - intros Hle first Hfirst Hne. unfold APICache.set.
    destruct (Nat.leb_spec APICache.maxSize (JSMap.size c)); [|lia].
    rewrite Hfirst.
    destruct c as [|[k0 e0] rest]; [done|].
    injection Hfirst as ->. simpl in Hin.
    apply elem_of_cons in Hin as [->|Hin]; [done|].
    apply NoDup_cons in Hnd as [Hnotin Hnd].
    assert (Hdel : JSMap.delete first ((first, e0) :: rest) = rest).
    { simpl. by rewrite decide_True. }
    rewrite Hdel. split; [|split; [|split]].
    + by rewrite JSMap_keys_set_present.
    + rewrite JSMap_get_set_ne; [|done]. by apply JSMap_get_None.
    + rewrite JSMap_size_set_present; done.
    + apply JSMap_get_set_eq.
Qed.

(** X4. The statistics never divide by zero and never report more valid
    entries than entries; and they disagree with [get] at the instant of
    expiry: an entry whose expiry equals the clock is still served by
    [get] but is not counted as valid. *)
Theorem cache_stats now c :
  let stats := CacheOps.getCacheStats now c in
  CacheOps.total stats = JSMap.size c
  ∧ CacheOps.valid stats ≤ CacheOps.total stats
  ∧ (CacheOps.hitRate stats).1 = CacheOps.valid stats
  ∧ 1 ≤ (CacheOps.hitRate stats).2
  ∧ (CacheOps.total stats ≤ (CacheOps.hitRate stats).2)
  ∧ ∀ key entry,
      JSMap.get key c = Some entry →
      APICache.expires entry = now →
      (APICache.get key now c).1 = Some (APICache.data entry)
      ∧ CacheOps.valid stats < CacheOps.total stats.
Proof.
  cbv zeta. unfold CacheOps.getCacheStats. cbn [CacheOps.total
    CacheOps.valid CacheOps.hitRate fst snd].
  assert (Hle : length (filter (λ entry, (now < APICache.expires entry)%Z)
                          (snd <$> c)) ≤ JSMap.size c).
  { etrans; [apply length_filter|]. by rewrite length_fmap. }
  split; [done|]. split; [done|]. split; [done|].
  split; [lia|]. split; [lia|].
  intros key entry Hget Hexp. split.
  - unfold APICache.get. rewrite Hget.
    destruct (Z.ltb_spec (APICache.expires entry) now); [lia|done].
  - apply JSMap_get_Some_elem in Hget.
    unfold JSMap.size. rewrite <- (length_fmap snd).
    assert (Hin : entry ∈ snd <$> c).
    { apply list_elem_of_fmap. by exists (key, entry). }
    clear Hle. induction (snd <$> c) as [|e l IH].
    + by apply elem_of_nil in Hin.
    + rewrite filter_cons. apply elem_of_cons in Hin as [<-|Hin].
      * rewrite decide_False; [|lia].
        pose proof (length_filter
          (λ entry0, (now < APICache.expires entry0)%Z) l). simpl. lia.
      * specialize (IH Hin). case_decide; simpl; lia.
Qed.

End CacheMore.

Lemma get_miss_and_expiry_witness :
  (APICache.get (js "a") 301 two_entries).1 = None
  ∧ JSMap.get (js "b") (APICache.get (js "a") 301 two_entries).2
    = JSMap.get (js "b") two_entries.
Proof.
  assert (Hnd : NoDup (JSMap.keys two_entries)).
  { apply (bool_decide_unpack _). vm_compute. exact I. }
  destruct (get_miss_and_expiry (js "a") 301 two_entries Hnd) as [_ Hexp].
  destruct (Hexp (APICache.mkEntry 1 0 300)) as (Hnone & _ & _ & Hother).
  - vm_compute. reflexivity.
  - simpl. lia.
  - split; [exact Hnone|]. apply Hother. vm_compute. discriminate.
Defined.

Lemma cache_well_formed_invariant_witness :
  CacheOps.well_formed
    (CacheOps.run
       [CacheOps.Set_ (js "a") 1 300 0 0; CacheOps.Get (js "a") 301;
        CacheOps.Clear; CacheOps.Set_ (js "b") 2 1000 5 5]
       APICache.empty).
Proof.
  apply cache_well_formed_invariant. split.
  - apply NoDup_nil_2.
  - simpl. lia.
Defined.

Lemma set_present_key_witness :
  JSMap.keys (APICache.set (js "a") 7 300 9 9 two_entries)
  = JSMap.keys two_entries
  ∧ S (JSMap.size (APICache.set (js "100") 7 300 9 9 full_cache))
    = JSMap.size full_cache.
Proof.
  split.
  - apply (set_present_key (js "a") 7 300 9 9 two_entries).
    + apply (bool_decide_unpack _). vm_compute. exact I.
    + apply (bool_decide_unpack _). vm_compute. exact I.
    + vm_compute. lia.
  - assert (Hnd : NoDup (JSMap.keys full_cache)).
    { apply (bool_decide_unpack _). vm_compute. exact I. }
    assert (Hin : js "100" ∈ JSMap.keys full_cache).
    { apply (bool_decide_unpack _). vm_compute. exact I. }
    destruct (set_present_key (js "100") 7 300 9 9 full_cache Hnd Hin)
      as [_ Hfull].
    destruct (Hfull ltac:(vm_compute; lia) (js "1")) as (_ & _ & Hsize & _).
    + vm_compute. reflexivity.
    + vm_compute. discriminate.
    + exact Hsize.
Defined.

Lemma cache_stats_witness :
  (APICache.get (js "a") 300 two_entries).1 = Some 1
  ∧ CacheOps.valid (CacheOps.getCacheStats 300 two_entries) < 2.
Proof.
  destruct (cache_stats 300 two_entries) as (_ & _ & _ & _ & _ & Hserved).
  destruct (Hserved (js "a") (APICache.mkEntry 1 0 300)) as [Hget Hlt].
  - vm_compute. reflexivity.
  - reflexivity.
  - split; [exact Hget|exact Hlt].
Defined.

(** ** More on [RateLimiter] *)

Section LimiterMore.
Implicit Types (r : RateLimiter.t) (id : jsstring) (now : Z) (l : list Z).

Arguments RateLimiter.maxRequests : simpl never.

Lemma lookup_ensure id r :
  RateLimiter.ensure id r !! id = Some (RateLimiter.times id r).
Proof.
  unfold RateLimiter.ensure, RateLimiter.times.
  destruct (r !! id) as [l|] eqn:Hl; simpl; [done|].
  by rewrite lookup_insert_eq.
Qed.

Lemma ensure_present id r l : r !! id = Some l → RateLimiter.ensure id r = r.
Proof. intros Hl. unfold RateLimiter.ensure. by rewrite Hl. Qed.

Lemma round_ne id id' p r :
  id ≠ id' →
  RateLimiter.times id' (RateLimiter.round id p r).2 = RateLimiter.times id' r.
Proof.
  intros Hne. rewrite round_unfold. cbn [snd].
  destruct (RateLimiter.canMakeRequest p.1 id r).1.
  - rewrite times_recordRequest_ne; [|done].
    by apply times_canMakeRequest_ne.
  - by apply times_canMakeRequest_ne.
Qed.

(** X5. Identifiers do not interfere: whatever is checked and recorded
    under one identifier, the timestamps kept for another and the answer
    to a check made for it are the same as before. *)
Theorem limiter_identifiers_independent id id' ps now r :
  id ≠ id' →
  RateLimiter.times id' (RateLimiter.rounds id ps r).2
  = RateLimiter.times id' r
  ∧ (RateLimiter.canMakeRequest now id' (RateLimiter.rounds id ps r).2).1
    = (RateLimiter.canMakeRequest now id' r).1.
Proof.
  intros Hne.
  assert (Htimes : RateLimiter.times id' (RateLimiter.rounds id ps r).2
                   = RateLimiter.times id' r).
  { revert r. induction ps as [|p ps IH]; intros r; [done|].
    rewrite rounds_cons. cbn [snd]. rewrite IH. by apply round_ne. }
  split; [done|]. by rewrite !allowed_canMakeRequest, Htimes.
Qed.

Lemma canMakeRequest_unfold now id r :
  RateLimiter.canMakeRequest now id r
  = (bool_decide
       (length (filter (λ time, (now - RateLimiter.windowMs < time)%Z)
                  (RateLimiter.times id r)) < RateLimiter.maxRequests),
     <[id := filter (λ time, (now - RateLimiter.windowMs < time)%Z)
               (RateLimiter.times id r)]> (RateLimiter.ensure id r)).
Proof.
  unfold RateLimiter.canMakeRequest. cbv zeta. by rewrite times_ensure.
Qed.

Lemma canMakeRequest_again now id r :
  RateLimiter.canMakeRequest now id (RateLimiter.canMakeRequest now id r).2
  = RateLimiter.canMakeRequest now id r.
Proof.
  rewrite (canMakeRequest_unfold now id r). cbn [snd].
  set (l := filter _ (RateLimiter.times id r)).
  set (r1 := <[id := l]> (RateLimiter.ensure id r)).
  assert (Hl : r1 !! id = Some l) by apply lookup_insert_eq.
  rewrite canMakeRequest_unfold.
  rewrite (ensure_present id r1 l Hl).
  assert (Ht : RateLimiter.times id r1 = l).
  { unfold RateLimiter.times. by rewrite Hl. }
  rewrite Ht.
  assert (Hf : filter (λ time, (now - RateLimiter.windowMs < time)%Z) l = l).
  { subst l. apply list_filter_filter_r. done. }
  rewrite Hf. f_equal. subst r1. apply insert_insert_eq.
Qed.

Lemma filter_window_mono now now' l :
  (now ≤ now')%Z →
  length (filter (λ time, (now' - RateLimiter.windowMs < time)%Z) l)
  ≤ length (filter (λ time, (now - RateLimiter.windowMs < time)%Z) l).
Proof.
  intros Hle. induction l as [|x l IH]; [done|].
  rewrite !filter_cons. repeat case_decide; simpl; lia.
Qed.

(** X6. A check only forgets: repeating it at the same clock changes
    nothing, it never lengthens the list of timestamps, and once a check
    admits, every later check admits as long as nothing is recorded in
    between. *)
Theorem check_only_forgets now now' id r :
  (now ≤ now')%Z →
  RateLimiter.canMakeRequest now id (RateLimiter.canMakeRequest now id r).2
  = RateLimiter.canMakeRequest now id r
  ∧ length (RateLimiter.times id (RateLimiter.canMakeRequest now id r).2)
    ≤ length (RateLimiter.times id r)
  ∧ ((RateLimiter.canMakeRequest now id r).1 = true →
     (RateLimiter.canMakeRequest now' id r).1 = true
     ∧ (RateLimiter.canMakeRequest now' id
          (RateLimiter.canMakeRequest now id r).2).1 = true).
Proof.
  intros Hle. split; [apply canMakeRequest_again|]. split.
  - rewrite times_canMakeRequest. apply length_filter.
  - rewrite !allowed_canMakeRequest, times_canMakeRequest.
    intros Hadm%bool_decide_eq_true.
    pose proof (filter_window_mono now now' (RateLimiter.times id r) Hle).
    pose proof (length_filter
      (λ time, (now' - RateLimiter.windowMs < time)%Z)
      (filter (λ time, (now - RateLimiter.windowMs < time)%Z)
         (RateLimiter.times id r))).
    split; apply bool_decide_eq_true; lia.
Qed.

End LimiterMore.

Lemma limiter_identifiers_independent_witness :
  (RateLimiter.canMakeRequest 60 (js "other")
     (RateLimiter.rounds (js "openai-chat") demo_rounds RateLimiter.empty).2).1
  = (RateLimiter.canMakeRequest 60 (js "other") RateLimiter.empty).1.
Proof.
  apply (limiter_identifiers_independent (js "openai-chat") (js "other")
           demo_rounds 60 RateLimiter.empty).
  vm_compute. discriminate.
Defined.

Lemma check_only_forgets_witness :
  length (RateLimiter.times (js "openai-chat")
            (RateLimiter.canMakeRequest 60030 (js "openai-chat")
               busy_limiter).2)
  ≤ length (RateLimiter.times (js "openai-chat") busy_limiter).
Proof.
  apply (check_only_forgets 60030 60040 (js "openai-chat") busy_limiter).
  lia.
Defined.

(** ** More on [EnhancedOpenAIClient] *)

Section ClientMore.
Context `{JSNumber}.
Implicit Types (st : Client.t) (p : Client.Params) (c : Client.Call)
  (w : Burst.Worker) (q : Client.Queued) (tk : Client.Tick).

Arguments RateLimiter.maxRequests : simpl never.
Arguments APICache.maxSize : simpl never.

Lemma processQueue_nil_queue ticks st :
  Client.requestQueue st = [] → Client.processQueue ticks st = ([], st).
Proof.
  destruct st as [c0 r0 queue calls]. cbn [Client.requestQueue].
  intros ->. by destruct ticks.
Qed.

Lemma processQueue_cons tk ticks st q rest :
  Client.requestQueue st = q :: rest →
  Client.processQueue (tk :: ticks) st
  = let r :=
      Client.request q tk
        (Client.mkClient (Client.cache st) (Client.rateLimiter st) rest
           (Client.providerCalls st)) in
    (r.1 :: (Client.processQueue ticks r.2).1,
     (Client.processQueue ticks r.2).2).
Proof.
  intros Hq. cbv zeta.
  change (Client.processQueue (tk :: ticks) st)
    with (match Client.requestQueue st with
          | q :: rest =>
              let '(o, st1) :=
                Client.request q tk
                  (Client.mkClient (Client.cache st) (Client.rateLimiter st)
                     rest (Client.providerCalls st)) in
              let '(os, st2) := Client.processQueue ticks st1 in
              (o :: os, st2)
          | [] => ([], st)
          end).
  rewrite Hq.
  destruct (Client.request q tk _) as [o st1]. cbn [fst snd].
  by destruct (Client.processQueue ticks st1) as [os st2].
Qed.

(** The worker takes the queued closures in the order they were pushed,
    one per tick. *)
Lemma processQueue_spec ticks st :
  (Client.processQueue ticks st).1
  = Client.provider_answer <$> take (length (Client.requestQueue st)) ticks
  ∧ Client.requestQueue (Client.processQueue ticks st).2
    = drop (length ticks) (Client.requestQueue st)
  ∧ Client.providerCalls (Client.processQueue ticks st).2
    = Client.providerCalls st
      ++ (Client.q_request <$> take (length ticks) (Client.requestQueue st))
  ∧ RateLimiter.times Client.identifier
      (Client.rateLimiter (Client.processQueue ticks st).2)
    = RateLimiter.times Client.identifier (Client.rateLimiter st)
      ++ (Client.t_record
          <$> take (length (Client.requestQueue st)) ticks).
Proof.
  revert st. induction ticks as [|tk ticks IH]; intros st.
  - cbn [Client.processQueue fst snd length]. 
    rewrite !take_nil, take_0. cbn [fmap list_fmap].
    by rewrite !app_nil_r, drop_0.
  - destruct (Client.requestQueue st) as [|q rest] eqn:Hq.
    + rewrite processQueue_nil_queue; [|done]. simpl.
      by rewrite Hq, !app_nil_r.
    + rewrite (processQueue_cons tk ticks st q rest Hq). cbv zeta.
      cbn [fst snd].
      destruct (request_spec q tk
                  (Client.mkClient (Client.cache st) (Client.rateLimiter st)
                     rest (Client.providerCalls st)))
        as (Hans & Hlim & Hqueue & Hcalls).
      destruct (IH (Client.request q tk
                  (Client.mkClient (Client.cache st) (Client.rateLimiter st)
                     rest (Client.providerCalls st))).2)
        as (IH1 & IH2 & IH3 & IH4).
      rewrite Hqueue in IH1, IH2, IH3, IH4. cbn [Client.requestQueue] in *.
      rewrite IH1, IH2, IH3, IH4, Hans, Hcalls, Hlim.
      cbn [Client.providerCalls Client.rateLimiter].
      rewrite times_recordRequest. cbn [length take drop fmap list_fmap].
      by rewrite <- !app_assoc.
Qed.

(** X7. The worker serves the queue first in, first out: given one tick
    per queued closure, every closure settles with its own tick's
    answer, the provider receives the requests in the order they were
    queued, every one of them is recorded, and the queue is left
    empty. *)
Theorem queue_served_in_order ticks st :
  length ticks = length (Client.requestQueue st) →
  (Client.processQueue ticks st).1 = Client.provider_answer <$> ticks
  ∧ Burst.getQueueSize (Client.processQueue ticks st).2 = 0
  ∧ Client.providerCalls (Client.processQueue ticks st).2
    = Client.providerCalls st ++ (Client.q_request <$> Client.requestQueue st)
  ∧ RateLimiter.times Client.identifier
      (Client.rateLimiter (Client.processQueue ticks st).2)
    = RateLimiter.times Client.identifier (Client.rateLimiter st)
      ++ (Client.t_record <$> ticks).
Proof.
  intros Hlen.
  destruct (processQueue_spec ticks st) as (H1 & H2 & H3 & H4).
  unfold Burst.getQueueSize.
  rewrite H1, H2, H3, H4, <- Hlen, !firstn_all, Hlen, firstn_all.
  rewrite drop_all. done.
Qed.

Lemma request_cache q tk st :
  Client.cache (Client.request q tk st).2
  = match Client.reply tk with
    | inl completion =>
        if Client.q_useCache q then
          APICache.set (Client.q_cacheKey q) (Client.response_of completion)
            APICache.defaultTTL (Client.t_set1 tk) (Client.t_set2 tk)
            (Client.cache st)
        else Client.cache st
    | inr _ => Client.cache st
    end.
Proof. unfold Client.request. by destruct (Client.reply tk). Qed.

(** What [createChatCompletion] does to the cache and what it queues. *)
Lemma create_cache p t_get t_check st :
  let out := Client.createChatCompletion p t_get t_check st in
  sublist (Client.cache out.2) (Client.cache st)
  ∧ (Client.eligible p = false → Client.cache out.2 = Client.cache st)
  ∧ (out.1 = Client.Enqueued →
     ∃ key, Client.requestQueue out.2
            = Client.requestQueue st
              ++ [Client.mkQueued (Client.provider_request p)
                    (Client.eligible p) key])
  ∧ (out.1 ≠ Client.Enqueued →
     Client.requestQueue out.2 = Client.requestQueue st).
Proof.
  cbv zeta. unfold Client.createChatCompletion, Client.eligible,
    Client.provider_request.
  destruct (Client.generateCacheKey _ _ _) as [key|]; [|by cbn].
  destruct (default true (Client.p_useCache p)) eqn:Huse.
  - unfold APICache.get.
    destruct (JSMap.get key (Client.cache st)) as [entry|].
    + destruct (APICache.expires entry <? t_get)%Z.
      * destruct (RateLimiter.canMakeRequest _ _ _) as [[] r1];
          cbn [fst snd Client.cache Client.requestQueue];
          (split; [apply JSMap_delete_sublist|]);
          (split; [done|]); split; try done; intros _; by exists key.
      * cbn. done.
    + destruct (RateLimiter.canMakeRequest _ _ _) as [[] r1];
        cbn [fst snd Client.cache Client.requestQueue];
        (split; [done|]); (split; [done|]); split; try done;
        intros _; by exists key.
  - destruct (RateLimiter.canMakeRequest _ _ _) as [[] r1];
      cbn [fst snd Client.cache Client.requestQueue];
      (split; [done|]); (split; [done|]); split; try done;
      intros _; by exists key.
Qed.

(** X8. Only a successful call that may use the cache writes to it: a
    call made with [useCache: false] leaves the cache exactly as it was,
    whatever its outcome, and a call whose provider request fails adds
    and changes no entry. *)
Theorem cache_written_only_on_success c st :
  Client.requestQueue st = [] →
  (Client.eligible (Client.call_params c) = false →
   Client.cache (Client.await c st).2 = Client.cache st)
  ∧ (∀ e, Client.reply (Client.call_tick c) = inr e →
     sublist (Client.cache (Client.await c st).2) (Client.cache st)).
Proof.
  intros Hidle.
  destruct (create_cache (Client.call_params c) (Client.call_t_get c)
              (Client.call_t_check c) st) as (Hsub & Hsame & Henq & Hrest).
  unfold Client.await.
  destruct (Client.createChatCompletion _ _ _ st) as [[s|] st1];
    cbn [fst snd] in *; [done|].
  destruct (Henq eq_refl) as [key Hq]. rewrite Hidle in Hq. simpl in Hq.
  rewrite <- (client_eta st1), Hq, processQueue_one. cbn [snd].
  rewrite request_cache. cbn [Client.cache Client.q_useCache]. split.
  - intros Hno. rewrite Hno. destruct (Client.reply _); by apply Hsame.
  - intros e He. by rewrite He.
Qed.

Lemma finish_start q tk st :
  Burst.finish q tk (Burst.start q (Client.t_record tk) st)
  = Client.request q tk st.
Proof.
  unfold Burst.finish, Burst.start, Client.request.
  by destruct (Client.reply tk).
Qed.

End ClientMore.

Section BurstFacts.
Context `{JSNumber}.
Implicit Types (st : Client.t) (c : Client.Call) (w : Burst.Worker)
  (q : Client.Queued).

Arguments RateLimiter.maxRequests : simpl never.

Lemma submit_all_cons c calls w :
  Burst.submit_all (c :: calls) w
  = ((Burst.submit c w).1 :: (Burst.submit_all calls (Burst.submit c w).2).1,
     (Burst.submit_all calls (Burst.submit c w).2).2).
Proof.
  change (Burst.submit_all (c :: calls) w)
    with (let '(s, w1) := Burst.submit c w in
          let '(ss, w2) := Burst.submit_all calls w1 in
          (s :: ss, w2)).
  destruct (Burst.submit c w) as [s w1]. cbn [fst snd].
  by destruct (Burst.submit_all calls w1) as [ss w2].
Qed.

Lemma submit_unfold c w :
  Burst.submit c w
  = let out :=
      Client.createChatCompletion (Client.call_params c)
        (Client.call_t_get c) (Client.call_t_check c) (Burst.client w) in
    match out.1, Burst.inflight w, Client.requestQueue out.2 with
    | Client.Enqueued, None, q :: rest =>
        (out.1,
         Burst.mkWorker
           (Burst.start q (Client.t_record (Client.call_tick c))
              (Client.mkClient (Client.cache out.2) (Client.rateLimiter out.2)
                 rest (Client.providerCalls out.2)))
           (Some q))
    | _, _, _ => (out.1, Burst.mkWorker out.2 (Burst.inflight w))
    end.
Proof.
  unfold Burst.submit. cbv zeta.
  by destruct (Client.createChatCompletion _ _ _ _) as [s st1].
Qed.

(** A call submitted to an idle client whose check passes: the worker
    starts on it before the call returns. *)
Lemma submit_idle c w :
  Burst.inflight w = None →
  Client.requestQueue (Burst.client w) = [] →
  Client.submitted_reached_limiter (Burst.submit c w).1 →
  (RateLimiter.canMakeRequest (Client.call_t_check c) Client.identifier
     (Client.rateLimiter (Burst.client w))).1 = true →
  ∃ q,
    (Burst.submit c w).1 = Client.Enqueued
    ∧ Burst.inflight (Burst.submit c w).2 = Some q
    ∧ Client.q_request q = Client.provider_request (Client.call_params c)
    ∧ Client.requestQueue (Burst.client (Burst.submit c w).2) = []
    ∧ Client.providerCalls (Burst.client (Burst.submit c w).2)
      = Client.providerCalls (Burst.client w)
        ++ [Client.provider_request (Client.call_params c)]
    ∧ RateLimiter.times Client.identifier
        (Client.rateLimiter (Burst.client (Burst.submit c w).2))
      = RateLimiter.inside (Client.call_t_check c)
          (RateLimiter.times Client.identifier
             (Client.rateLimiter (Burst.client w)))
        ++ [Client.t_record (Client.call_tick c)].
Proof.
  intros Hidle Hempty Hreached Hpass. rewrite submit_unfold in *.
  cbv zeta in *.
  assert (Hr : Client.submitted_reached_limiter
            (Client.createChatCompletion (Client.call_params c)
               (Client.call_t_get c) (Client.call_t_check c)
               (Burst.client w)).1).
  { destruct (Client.createChatCompletion _ _ _ _) as [[s|] st1];
      cbn [fst snd] in *; [exact Hreached|done]. }
  destruct (create_reached _ _ _ _ Hr) as (cache1 & key & _ & Hcreate).
  cbv zeta in Hcreate. rewrite Hpass, Hempty in Hcreate.
  rewrite Hcreate, Hidle. cbn [fst snd Client.requestQueue app].
  eexists. split; [done|]. split; [done|].
  cbn [Burst.inflight Burst.client Burst.start Client.q_request
       Client.requestQueue Client.providerCalls Client.rateLimiter
       Client.cache].
  split; [done|]. split; [done|]. split; [done|].
  by rewrite times_recordRequest, times_canMakeRequest.
Qed.

(** A call submitted while the worker is busy and fewer than
    [maxRequests] timestamps are on record is queued behind it. *)
Lemma submit_busy c w q0 :
  Burst.inflight w = Some q0 →
  Client.submitted_reached_limiter (Burst.submit c w).1 →
  length (RateLimiter.times Client.identifier
            (Client.rateLimiter (Burst.client w))) < RateLimiter.maxRequests →
  (Burst.submit c w).1 = Client.Enqueued
  ∧ Burst.inflight (Burst.submit c w).2 = Some q0
  ∧ Client.q_request <$> Client.requestQueue (Burst.client (Burst.submit c w).2)
    = (Client.q_request <$> Client.requestQueue (Burst.client w))
      ++ [Client.provider_request (Client.call_params c)]
  ∧ Client.providerCalls (Burst.client (Burst.submit c w).2)
    = Client.providerCalls (Burst.client w)
  ∧ length (RateLimiter.times Client.identifier
              (Client.rateLimiter (Burst.client (Burst.submit c w).2)))
    < RateLimiter.maxRequests.
Proof.
  intros Hbusy Hreached Hfew. rewrite submit_unfold in *. cbv zeta in *.
  assert (Hr : Client.submitted_reached_limiter
            (Client.createChatCompletion (Client.call_params c)
               (Client.call_t_get c) (Client.call_t_check c)
               (Burst.client w)).1).
  { destruct (Client.createChatCompletion _ _ _ _) as [[s|] st1];
      cbn [fst snd] in *; [exact Hreached|done]. }
  destruct (create_reached _ _ _ _ Hr) as (cache1 & key & _ & Hcreate).
  cbv zeta in Hcreate.
  pose proof (length_filter
    (λ time, (Client.call_t_check c - RateLimiter.windowMs < time)%Z)
    (RateLimiter.times Client.identifier
       (Client.rateLimiter (Burst.client w)))) as Hlen.
  assert (Hpass : (RateLimiter.canMakeRequest (Client.call_t_check c)
                     Client.identifier
                     (Client.rateLimiter (Burst.client w))).1 = true).
  { rewrite allowed_canMakeRequest. apply bool_decide_eq_true. lia. }
  rewrite Hpass in Hcreate. rewrite Hcreate, Hbusy.
  cbn [fst snd Burst.inflight Burst.client Client.requestQueue
       Client.providerCalls Client.rateLimiter].
  split; [done|]. split; [done|]. split.
  - rewrite fmap_app. done.
  - split; [done|]. rewrite times_canMakeRequest. lia.
Qed.

Lemma submit_all_busy calls w q0 :
  Burst.inflight w = Some q0 →
  Forall Client.submitted_reached_limiter (Burst.submit_all calls w).1 →
  length (RateLimiter.times Client.identifier
            (Client.rateLimiter (Burst.client w))) < RateLimiter.maxRequests →
  (Burst.submit_all calls w).1 = replicate (length calls) Client.Enqueued
  ∧ Burst.inflight (Burst.submit_all calls w).2 = Some q0
  ∧ Client.q_request
    <$> Client.requestQueue (Burst.client (Burst.submit_all calls w).2)
    = (Client.q_request <$> Client.requestQueue (Burst.client w))
      ++ ((λ c, Client.provider_request (Client.call_params c)) <$> calls)
  ∧ Client.providerCalls (Burst.client (Burst.submit_all calls w).2)
    = Client.providerCalls (Burst.client w).
Proof.
  revert w. induction calls as [|c calls IH]; intros w Hbusy Hreached Hfew.
  - cbn. by rewrite app_nil_r.
  - rewrite submit_all_cons in *. cbn [fst snd] in *.
    apply Forall_cons in Hreached as [Hr1 Hr2].
    destruct (submit_busy c w q0 Hbusy Hr1 Hfew)
      as (Hs & Hin & Hq & Hcalls & Hfew').
    destruct (IH _ Hin Hr2 Hfew') as (IH1 & IH2 & IH3 & IH4).
    rewrite Hs, IH1, IH2, IH3, IH4, Hq, Hcalls.
    cbn [length replicate fmap list_fmap]. by rewrite <- app_assoc.
Qed.

(** X9. The admission check does not bound calls that are not awaited.
    On an idle client with at least two admissions left, every call of a
    burst is queued, however many there are: the first is handed to the
    provider at once and the others wait in the queue, because only the
    first timestamp is on record while the checks are made.  The worker
    then sends every one of them to the provider. *)
Theorem burst_is_not_limited c1 rest w :
  Burst.inflight w = None →
  Client.requestQueue (Burst.client w) = [] →
  length (RateLimiter.inside (Client.call_t_check c1)
            (RateLimiter.times Client.identifier
               (Client.rateLimiter (Burst.client w)))) + 1
    < RateLimiter.maxRequests →
  Forall Client.submitted_reached_limiter
    (Burst.submit_all (c1 :: rest) w).1 →
  let w' := (Burst.submit_all (c1 :: rest) w).2 in
  let served := Burst.drain (Client.call_tick <$> c1 :: rest) w' in
  (Burst.submit_all (c1 :: rest) w).1
  = replicate (S (length rest)) Client.Enqueued
  ∧ Client.providerCalls (Burst.client w')
    = Client.providerCalls (Burst.client w)
      ++ [Client.provider_request (Client.call_params c1)]
  ∧ Burst.getQueueSize (Burst.client w') = length rest
  ∧ served.1
    = (λ c, Client.provider_answer (Client.call_tick c)) <$> c1 :: rest
  ∧ Client.providerCalls served.2
    = Client.providerCalls (Burst.client w)
      ++ ((λ c, Client.provider_request (Client.call_params c))
          <$> c1 :: rest)
  ∧ Burst.getQueueSize served.2 = 0.
Proof.
  intros Hidle Hempty Hfew Hreached. cbv zeta.
  rewrite submit_all_cons in *. cbn [fst snd] in *.
  apply Forall_cons in Hreached as [Hr1 Hr2].
  assert (Hpass : (RateLimiter.canMakeRequest (Client.call_t_check c1)
                     Client.identifier
                     (Client.rateLimiter (Burst.client w))).1 = true).
  { rewrite allowed_canMakeRequest. apply bool_decide_eq_true.
    unfold RateLimiter.inside in Hfew. lia. }
  destruct (submit_idle c1 w Hidle Hempty Hr1 Hpass)
    as (q1 & Hs & Hin & Hq1 & Hqueue & Hcalls & Htimes).
  assert (Hfew' : length (RateLimiter.times Client.identifier
                    (Client.rateLimiter (Burst.client (Burst.submit c1 w).2)))
                  < RateLimiter.maxRequests).
  { rewrite Htimes, length_app. simpl. lia. }
  destruct (submit_all_busy rest _ q1 Hin Hr2 Hfew')
    as (Hss & Hin' & Hqs & Hcalls').
  rewrite Hqueue in Hqs. cbn [fmap list_fmap app] in Hqs.
  set (w' := (Burst.submit_all rest (Burst.submit c1 w).2).2) in *.
  assert (Hsize : Burst.getQueueSize (Burst.client w') = length rest).
  { unfold Burst.getQueueSize.
    rewrite <- (length_fmap Client.q_request), Hqs. apply length_fmap. }
  rewrite Hs, Hss, Hcalls', Hcalls.
  split; [done|]. split; [done|]. split; [done|].
  unfold Burst.drain. rewrite Hin'. cbn [fmap list_fmap].
  destruct (Burst.finish q1 (Client.call_tick c1) (Burst.client w'))
    as [o st1] eqn:Hfinish.
  assert (Hst1 : o = Client.provider_answer (Client.call_tick c1)
                 ∧ Client.requestQueue st1
                   = Client.requestQueue (Burst.client w')
                 ∧ Client.providerCalls st1
                   = Client.providerCalls (Burst.client w')).
  { unfold Burst.finish, Client.provider_answer in *.
    destruct (Client.reply (Client.call_tick c1));
      injection Hfinish as <- <-; done. }
  destruct Hst1 as (-> & Hq' & Hc').
  assert (Hlen : length (Client.call_tick <$> rest)
                 = length (Client.requestQueue st1)).
  { rewrite Hq', length_fmap. symmetry. exact Hsize. }
  destruct (processQueue_spec (Client.call_tick <$> rest) st1)
    as (H1 & H2 & H3 & _).
  destruct (Client.processQueue (Client.call_tick <$> rest) st1)
    as [os st2]. cbn [fst snd] in *.
  unfold Burst.getQueueSize. rewrite H1, H2, H3.
  rewrite Hlen, drop_all, firstn_all. rewrite <- Hlen, firstn_all.
  rewrite Hq', Hqs, Hc', Hcalls', Hcalls, <- list_fmap_compose, <- app_assoc.
  done.
Qed.

End BurstFacts.

Lemma burst_is_not_limited_witness :
  RateLimiter.maxRequests
  < length (Client.providerCalls
              (Burst.drain (Client.call_tick <$> burst_calls)
                 (Burst.submit_all burst_calls idle_worker).2).2).
Proof.
  assert (Hidle : Burst.inflight idle_worker = None) by reflexivity.
  assert (Hempty : Client.requestQueue (Burst.client idle_worker) = [])
    by reflexivity.
  assert (Hfew : length (RateLimiter.inside
                   (Client.call_t_check (burst_call 0))
                   (RateLimiter.times Client.identifier
                      (Client.rateLimiter (Burst.client idle_worker)))) + 1
                 < RateLimiter.maxRequests).
  { vm_compute. lia. }
  assert (Hreached : Forall Client.submitted_reached_limiter
            (Burst.submit_all (burst_call 0 :: (burst_call <$> seq 1 60))
               idle_worker).1).
  { vm_compute. repeat constructor. }
  destruct (burst_is_not_limited (burst_call 0) (burst_call <$> seq 1 60)
              idle_worker Hidle Hempty Hfew Hreached)
    as (_ & _ & _ & _ & Hcalls & _).
  change (burst_call 0 :: (burst_call <$> seq 1 60)) with burst_calls
    in Hcalls.
  rewrite Hcalls. vm_compute. lia.
Defined.

Lemma queue_served_in_order_witness :
  (Client.processQueue
     [Client.call_tick failing_call; Client.call_tick (demo_call 1)]
     two_queued_client).1
  = [Rejected
       (Error
          (js "OpenAI service is temporarily unavailable. Please try again later."));
     Resolved (Fresh (Client.response_of (demo_completion (js "ok"))))]
  ∧ Client.providerCalls
      (Client.processQueue
         [Client.call_tick failing_call; Client.call_tick (demo_call 1)]
         two_queued_client).2
    = [Client.q_request demo_queued; Client.q_request answered_queued]
  ∧ RateLimiter.times Client.identifier
      (Client.rateLimiter
         (Client.processQueue
            [Client.call_tick failing_call; Client.call_tick (demo_call 1)]
            two_queued_client).2)
    = [5%Z; 1%Z].
Proof.
  destruct (queue_served_in_order
              [Client.call_tick failing_call; Client.call_tick (demo_call 1)]
              two_queued_client eq_refl) as (Hanswers & _ & Hcalls & Htimes).
  rewrite Hanswers, Hcalls, Htimes.
  split; [vm_compute; reflexivity|]. split; vm_compute; reflexivity.
Defined.

Lemma cache_written_only_on_success_witness :
  sublist (Client.cache (Client.await failing_call Client.new).2)
    (Client.cache (@Client.new rendered_numbers)).
Proof.
  apply (proj2 (cache_written_only_on_success failing_call Client.new
                  eq_refl)
           (mkProviderError (Some 500%Z) None (js "boom"))).
  reflexivity.
Defined.

(** ** [handleError] *)

(** X10. Every provider failure is turned into an [Error] with a
    non-empty message; a 429 from the provider is reported with a text
    of its own, different from the one the client uses when its own
    limiter refuses, and the status decides before the error code and
    the provider's message are looked at. *)
Theorem handleError_message error0 :
  (∃ m, handleError error0 = Error m ∧ m ≠ [])
  ∧ (err_status error0 = Some 429%Z →
     handleError error0 ≠ Error Client.rate_limit_message)
  ∧ (∀ code message,
       (err_status error0 = Some 429%Z ∨ err_status error0 = Some 401%Z
        ∨ status_at_least error0 500 = true) →
       handleError (mkProviderError (err_status error0) code message)
       = handleError error0).
Proof.
  split; [|split].
  - unfold handleError.
    destruct (bool_decide (err_status error0 = Some 429%Z));
      [eexists; split; [reflexivity|vm_compute; discriminate]|].
    destruct (bool_decide (err_status error0 = Some 401%Z));
      [eexists; split; [reflexivity|vm_compute; discriminate]|].
    destruct (status_at_least error0 500);
      [eexists; split; [reflexivity|vm_compute; discriminate]|].
    destruct (_ || _);
      [eexists; split; [reflexivity|vm_compute; discriminate]|].
    eexists; split; [reflexivity|].
    destruct (err_message error0); [vm_compute; discriminate|done].
  - intros H429. unfold handleError. rewrite bool_decide_eq_true_2; [|done].
    vm_compute. discriminate.
  - intros code message Hst. unfold handleError. cbn [err_status].
    change (status_at_least (mkProviderError (err_status error0) code message)
              500) with (status_at_least error0 500).
    destruct (bool_decide (err_status error0 = Some 429%Z)) eqn:E1; [done|].
    destruct (bool_decide (err_status error0 = Some 401%Z)) eqn:E2; [done|].
    destruct (status_at_least error0 500) eqn:E3; [done|].
    apply bool_decide_eq_false in E1, E2.
    destruct Hst as [?|[?|?]]; done.
Qed.

Lemma handleError_message_witness :
  handleError (mkProviderError (Some 429%Z) None (js "boom"))
  ≠ Error Client.rate_limit_message.
Proof.
  apply (handleError_message (mkProviderError (Some 429%Z) None (js "boom"))).
  reflexivity.
Defined.

(** ** The reducer over a handler's log *)

Section ReducerMore.
Implicit Types (state : AppState) (payload : StepUpdate) (log : list Action).

Lemma in_progress_not_completed (l : list Status) :
  forallb (λ s, bool_decide (s = completed)) l = true →
  existsb in_progress l = false.
Proof.
  induction l as [|s l IH]; [done|]. simpl.
  intros [Hs Hl]%andb_true_iff. apply bool_decide_eq_true in Hs as ->.
  by rewrite IH.
Qed.

Lemma existsb_fmap {A B} (f : A → B) (P : B → bool) (l : list A) :
  existsb P (f <$> l) = existsb (λ x, P (f x)) l.
Proof. induction l as [|x l IH]; [done|]. simpl. f_equal. exact IH. Qed.

Lemma forallb_fmap {A B} (f : A → B) (P : B → bool) (l : list A) :
  forallb P (f <$> l) = forallb (λ x, P (f x)) l.
Proof. induction l as [|x l IH]; [done|]. simpl. f_equal. exact IH. Qed.

(** After an update the flag only depends on the statuses. *)
Lemma update_processing state payload :
  isProcessing (appReducer state (UPDATE_WORKFLOW_STEP payload))
  = existsb in_progress
      (step_status
       <$> workflow (appReducer state (UPDATE_WORKFLOW_STEP payload))).
Proof.
  rewrite existsb_fmap. cbn [appReducer isProcessing workflow].
  set (wf := _ <$> workflow state).
  destruct (forallb _ wf) eqn:Hall; [|done].
  symmetry. rewrite <- existsb_fmap. apply in_progress_not_completed.
  by rewrite forallb_fmap.
Qed.

(** X11. [UPDATE_WORKFLOW_STEP] recomputes the processing flag from the
    statuses alone, whatever it was before: it is set exactly when some
    step of the updated workflow is active or pending.  So an update
    that reaches no step still clears the flag of a finished or empty
    workflow, and a failed step does not clear it while another step is
    pending.  The thinking steps are not touched. *)
Theorem update_recomputes_processing state payload :
  let state' := appReducer state (UPDATE_WORKFLOW_STEP payload) in
  (isProcessing state' = true
   ↔ ∃ step, step ∈ workflow state'
             ∧ (step_status step = active ∨ step_status step = pending))
  ∧ (workflow state = [] → isProcessing state' = false)
  ∧ thinkingSteps state' = thinkingSteps state.
Proof.
  cbv zeta. split; [|split; [|done]].
  - rewrite update_processing, existsb_fmap, existsb_exists.
    split.
    + intros (step & Hin%list_elem_of_In & Hp). exists step. split; [done|].
      unfold in_progress in Hp. apply orb_true_iff in Hp as [Hp|Hp];
        apply bool_decide_eq_true in Hp; auto.
    + intros (step & Hin & Hp). exists step.
      split; [by apply list_elem_of_In|].
      unfold in_progress. apply orb_true_iff.
      destruct Hp as [->| ->]; [left|right]; by apply bool_decide_eq_true.
  - intros Hnil. rewrite update_processing.
    cbn [appReducer workflow]. by rewrite Hnil.
Qed.

Lemma dispatch_all_app state log1 log2 :
  dispatch_all state (log1 ++ log2)
  = dispatch_all (dispatch_all state log1) log2.
Proof. apply fold_left_app. Qed.

(** Thinking steps aside, a log without registrations acts as its
    updates do. *)
Lemma dispatch_keeps_workflow log state :
  forallb keeps_workflow log = true →
  workflow (dispatch_all state log)
  = workflow (dispatch_all state (UPDATE_WORKFLOW_STEP <$> updates_of log))
  ∧ isProcessing (dispatch_all state log)
    = isProcessing
        (dispatch_all state (UPDATE_WORKFLOW_STEP <$> updates_of log)).
Proof.
  induction log as [|a log IH] using rev_ind; [done|].
  rewrite forallb_app. intros [Hlog Ha]%andb_true_iff.
  destruct (IH Hlog) as [IHw IHp]. clear IH.
  rewrite updates_of_app, fmap_app, !dispatch_all_app.
  destruct a as [b|l|x| |u|steps|]; try done; cbn [updates_of omap list_omap
    fmap list_fmap app dispatch_all fold_left appReducer workflow
    isProcessing]; rewrite ?app_nil_r; try done.
  fold (dispatch_all state log).
  fold (dispatch_all state (UPDATE_WORKFLOW_STEP <$> updates_of log)).
  by rewrite IHw.
Qed.

(** A status update for the step numbered [k] replaces the status at
    index [k], in a workflow whose steps are numbered in order. *)
Lemma update_status_insert state k s :
  step_id <$> workflow state = stepId <$> seq 0 (length (workflow state)) →
  let state' :=
    appReducer state (UPDATE_WORKFLOW_STEP (set_status (stepId k) s)) in
  step_id <$> workflow state' = step_id <$> workflow state
  ∧ step_status <$> workflow state'
    = <[k := s]> (step_status <$> workflow state).
Proof.
  intros Hids. cbv zeta. rewrite update_workflow. cbn [u_id set_status].
  split.
  - rewrite <- list_fmap_compose. apply list_fmap_ext.
    intros i step _. simpl. by case_decide.
  - apply list_eq. intros i.
    rewrite <- list_fmap_compose, !list_lookup_fmap.
    destruct (workflow state !! i) as [step|] eqn:Hstep.
    + assert (Hid : step_id step = stepId i).
      { assert (Hl : (step_id <$> workflow state) !! i = Some (step_id step))
          by (by rewrite list_lookup_fmap, Hstep).
        rewrite Hids, list_lookup_fmap in Hl.
        apply lookup_lt_Some in Hstep.
        rewrite lookup_seq_lt in Hl; [|done]. by injection Hl. }
      simpl. destruct (decide (i = k)) as [->|Hne].
      * rewrite list_lookup_insert_eq;
          [|rewrite length_fmap; by eapply lookup_lt_Some].
        rewrite decide_True; done.
      * rewrite list_lookup_insert_ne; [|done].
        rewrite list_lookup_fmap, Hstep. simpl.
        rewrite decide_False; [done|].
        intros Heq. rewrite Hid in Heq. by apply stepId_inj in Heq.
    + simpl. apply lookup_ge_None in Hstep.
      symmetry. apply lookup_ge_None.
      by rewrite length_insert, length_fmap.
Qed.

Lemma update_status_length state u :
  length (workflow (appReducer state (UPDATE_WORKFLOW_STEP u)))
  = length (workflow state).
Proof. rewrite update_workflow. apply length_fmap. Qed.

(** The updates of steps [i], ..., [i + n - 1] that completed leave
    exactly those steps completed. *)
Lemma progress_statuses n : ∀ i state,
  step_id <$> workflow state = stepId <$> seq 0 (length (workflow state)) →
  i + n ≤ length (workflow state) →
  let state' := dispatch_all state (UPDATE_WORKFLOW_STEP <$> progress i n) in
  step_id <$> workflow state' = step_id <$> workflow state
  ∧ step_status <$> workflow state'
    = take i (step_status <$> workflow state) ++ replicate n completed
      ++ drop (i + n) (step_status <$> workflow state).
Proof.
  induction n as [|n IH]; intros i state Hids Hlen.
  - cbn. split; [done|]. by rewrite Nat.add_0_r, take_drop.
  - cbv zeta. rewrite progress_snoc, fmap_app, dispatch_all_app.
    cbn [fmap list_fmap app dispatch_all fold_left].
    set (s1 := appReducer state
                 (UPDATE_WORKFLOW_STEP (set_status (stepId i) active))).
    set (s2 := appReducer s1
                 (UPDATE_WORKFLOW_STEP (set_status (stepId i) completed))).
    destruct (update_status_insert state i active Hids) as [Hid1 Hst1].
    fold s1 in Hid1, Hst1.
    assert (Hlen1 : length (workflow s1) = length (workflow state))
      by apply update_status_length.
    assert (Hids1 : step_id <$> workflow s1
                    = stepId <$> seq 0 (length (workflow s1)))
      by (by rewrite Hid1, Hlen1).
    destruct (update_status_insert s1 i completed Hids1) as [Hid2 Hst2].
    fold s2 in Hid2, Hst2.
    assert (Hlen2 : length (workflow s2) = length (workflow state)).
    { unfold s2. by rewrite update_status_length. }
    assert (Hids2 : step_id <$> workflow s2
                    = stepId <$> seq 0 (length (workflow s2)))
      by (by rewrite Hid2, Hid1, Hlen2).
    fold (dispatch_all s2 (UPDATE_WORKFLOW_STEP <$> progress (S i) n)).
    destruct (IH (S i) s2 Hids2) as [IHid IHst]; [lia|].
    cbv zeta in IHid, IHst. rewrite IHid, IHst, Hid2, Hid1.
    split; [done|]. rewrite Hst2, Hst1, list_insert_insert_eq.
    set (l := step_status <$> workflow state).
    assert (Hl : length l = length (workflow state)) by apply length_fmap.
    rewrite take_insert_lt; [|lia].
    rewrite drop_insert_lt; [|lia].
    assert (Hi : i < length l) by lia.
    destruct (lookup_lt_is_Some_2 l i Hi) as [x Hx].
    rewrite (take_S_r _ _ x); [|done].
    rewrite insert_app_r_alt; [|rewrite length_take; lia].
    rewrite length_take, Nat.min_l, Nat.sub_diag; [|lia].
    cbn [replicate]. rewrite <- app_assoc.
    replace (S i + n) with (i + S n) by lia. done.
Qed.

Lemma dispatch_thinkingSteps_clear state log :
  thinkingSteps (dispatch_all state (log ++ [CLEAR_THINKING_STEPS])) = [].
Proof. by rewrite dispatch_all_app. Qed.

Lemma thoughts_of_app log1 log2 :
  thoughts_of (log1 ++ log2) = thoughts_of log1 ++ thoughts_of log2.
Proof. unfold thoughts_of. apply omap_app. Qed.

(** A log that neither sets nor clears the thinking steps adds its own
    to the ones already shown. *)
Lemma dispatch_keeps_thoughts log state :
  forallb keeps_thoughts log = true →
  thinkingSteps (dispatch_all state log)
  = thinkingSteps state ++ thoughts_of log.
Proof.
  induction log as [|a log IH] using rev_ind; [by rewrite app_nil_r|].
  rewrite forallb_app. intros [Hlog Ha]%andb_true_iff.
  rewrite thoughts_of_app, dispatch_all_app.
  cbn [dispatch_all fold_left]. fold (dispatch_all state log).
  destruct a as [b|l|x| |u|steps|]; try done;
    cbn [appReducer thinkingSteps thoughts_of omap list_omap];
    rewrite (IH Hlog), ?app_nil_r, <- ?app_assoc; done.
Qed.

End ReducerMore.

(** ** A run of [MultiAgentChatHandler] seen through the reducer *)

Section BasicRunFacts.
Context `{Builtins}.
Implicit Types (answers : Answers) (s : LoopState) (agents : list jsstring)
  (state : AppState).

Lemma createWorkflowSteps_ids (agentKeys : list jsstring) :
  step_id <$> MultiAgentChatHandler.createWorkflowSteps agentKeys
  = stepId <$> seq 0 (length agentKeys).
Proof.
  apply list_eq. intros i. rewrite !list_lookup_fmap.
  destruct (MultiAgentChatHandler.createWorkflowSteps agentKeys !! i)
    as [step|] eqn:Hstep.
  - pose proof (lookup_lt_Some _ _ _ Hstep) as Hlt.
    unfold MultiAgentChatHandler.createWorkflowSteps in Hlt.
    rewrite length_imap in Hlt.
    apply createWorkflowSteps_lookup in Hstep as [Hid _]. simpl.
    rewrite Hid. by rewrite lookup_seq_lt.
  - apply lookup_ge_None in Hstep.
    unfold MultiAgentChatHandler.createWorkflowSteps in Hstep.
    rewrite length_imap in Hstep.
    rewrite lookup_seq_ge; done.
Qed.

Lemma createWorkflowSteps_statuses (agentKeys : list jsstring) :
  step_status <$> MultiAgentChatHandler.createWorkflowSteps agentKeys
  = match agentKeys with
    | [] => []
    | _ :: rest => active :: replicate (length rest) pending
    end.
Proof.
  apply list_eq. intros i. rewrite !list_lookup_fmap.
  destruct (MultiAgentChatHandler.createWorkflowSteps agentKeys !! i)
    as [step|] eqn:Hstep.
  - pose proof (lookup_lt_Some _ _ _ Hstep) as Hlt.
    unfold MultiAgentChatHandler.createWorkflowSteps in Hlt.
    rewrite length_imap in Hlt.
    apply createWorkflowSteps_lookup in Hstep as [_ Hst]. simpl.
    rewrite Hst. destruct agentKeys as [|a rest]; [simpl in Hlt; lia|].
    destruct i as [|i]; [done|]. simpl in *.
    rewrite lookup_replicate_2; [done|lia].
  - apply lookup_ge_None in Hstep.
    unfold MultiAgentChatHandler.createWorkflowSteps in Hstep.
    rewrite length_imap in Hstep. simpl.
    destruct agentKeys as [|a rest]; [done|]. symmetry.
    apply lookup_ge_None. simpl in *. rewrite length_replicate. done.
Qed.

(** What the loop dispatches after its starting log keeps the workflow
    registered, and ends by clearing the thinking steps. *)
Lemma loop_tail answers hasData agents : ∀ i s,
  Forall MultiAgentChatHandler.known agents →
  ∃ tail,
    dispatched (MultiAgentChatHandler.loop answers hasData i agents s)
    = ls_log s ++ tail ++ [CLEAR_THINKING_STEPS]
    ∧ forallb keeps_workflow tail = true.
Proof.
  induction agents as [|agentKey agents IH]; intros i s Hknown.
  - by exists [].
  - apply Forall_cons in Hknown as [[agent Hagent%agent_of_known] Hknown].
    rewrite loop_cons. unfold MultiAgentChatHandler.iteration.
    rewrite Hagent. destruct (answers _) as [text|e].
    + match goal with
      | |- context [MultiAgentChatHandler.loop _ _ _ _ ?s'] =>
          destruct (IH (S i) s' Hknown) as (tail & Hlog & Hkeeps)
      end.
      rewrite Hlog. cbn [ls_log].
      match goal with
      | |- context [(ls_log s ++ ?chunk) ++ tail ++ _] =>
          exists (chunk ++ tail)
      end.
      split.
      * by rewrite <- !app_assoc.
      * rewrite !forallb_app, Hkeeps.
        by destruct hasData, (report_extracted text).
    + cbn [dispatched ls_log].
      exists (MultiAgentChatHandler.buildSystemPrompt_dispatches hasData
              ++ [UPDATE_WORKFLOW_STEP (set_status (stepId i) active);
                  ADD_THINKING_STEP
                    (js "🔗 Connecting to AI for " ++ agent_name agent
                     ++ js "...");
                  ADD_THINKING_STEP
                    (agent_emoji agent ++ js " " ++ agent_name agent
                     ++ js " processing...");
                  UPDATE_WORKFLOW_STEP (set_status (stepId i) error)]).
      split.
      * by rewrite <- !app_assoc.
      * rewrite !forallb_app. by destruct hasData.
Qed.

(** The loop from step [i] on when every request is answered. *)
Lemma loop_success answers hasData agents : ∀ i s (texts : list jsstring),
  length (ls_requested s) = i →
  length texts = length agents →
  (∀ j text, texts !! j = Some text → answers (i + j) = inl text) →
  Forall MultiAgentChatHandler.known agents →
  let run := MultiAgentChatHandler.loop answers hasData i agents s in
  requested run = ls_requested s ++ agents
  ∧ returned run
    = Some (mkResult
              (or_else
                 (trim (ls_finalResponse s
                        ++ concat ((λ text, text ++ nl) <$> texts)))
                 (js "Sorry, I couldn't generate a response."))
              (default (ls_finalAgentType s) (last agents)))
  ∧ updates_of (dispatched run)
    = updates_of (ls_log s) ++ progress i (length agents).
Proof.
  induction agents as [|agentKey agents IH];
    intros i s texts Hreq Hlen Hans Hknown run; unfold run.
  - destruct texts; [|done]. cbn. rewrite !app_nil_r.
    rewrite updates_of_app. cbn. by rewrite app_nil_r.
  - destruct texts as [|text texts]; [done|].
    apply Forall_cons in Hknown as [[agent Hagent%agent_of_known] Hknown].
    rewrite loop_cons. unfold MultiAgentChatHandler.iteration.
    rewrite Hagent, Hreq.
    pose proof (Hans 0 text eq_refl) as Htext.
    rewrite Nat.add_0_r in Htext. rewrite Htext.
    match goal with
    | |- context [MultiAgentChatHandler.loop _ _ _ _ ?s'] =>
        destruct (IH (S i) s' texts) as (IH1 & IH2 & IH3)
    end; [| | |done|].
    + cbn [ls_requested]. rewrite length_app. simpl. lia.
    + simpl in Hlen. lia.
    + intros j t Ht. rewrite <- (Hans (S j) t Ht). f_equal. lia.
    + rewrite IH1, IH2, IH3.
      cbn [ls_requested ls_log ls_finalResponse ls_finalAgentType].
      split; [by rewrite <- app_assoc|]. split.
      * f_equal. f_equal.
        -- cbn [fmap list_fmap concat]. by rewrite <- !app_assoc.
        -- destruct agents as [|a agents]; [done|].
           destruct (proj2 (last_is_Some (a :: agents))) as [x Hx]; [done|].
           by rewrite last_cons_cons, Hx.
      * rewrite !updates_of_app, updates_buildSystemPrompt,
          updates_report_extracted.
        cbn [length]. rewrite progress_snoc.
        cbn [updates_of omap list_omap app]. by rewrite <- !app_assoc.
Qed.

Lemma progress_last (i n : nat) :
  progress i (S n)
  = progress i n ++ [set_status (stepId (i + n)) active;
                     set_status (stepId (i + n)) completed].
Proof.
  unfold progress. replace (S n) with (n + 1) by lia.
  rewrite seq_app, flat_map_app. cbn [seq flat_map app]. done.
Qed.

(** The state in which a run of the handler leaves the reducer, from
    the updates it dispatched after registering its workflow. *)
Lemma run_agents_reduced answers hasData
    (selection : list Action * list jsstring) state us u :
  Forall MultiAgentChatHandler.known selection.2 →
  updates_of selection.1 = [] →
  updates_of
    (dispatched (MultiAgentChatHandler.run_agents answers hasData selection))
  = us ++ [u] →
  let final :=
    dispatch_all state
      (dispatched
         (MultiAgentChatHandler.run_agents answers hasData selection)) in
  let registered :=
    mkApp (MultiAgentChatHandler.createWorkflowSteps selection.2) true [] in
  workflow final
  = workflow (dispatch_all registered (UPDATE_WORKFLOW_STEP <$> us ++ [u]))
  ∧ isProcessing final
    = existsb in_progress (step_status <$> workflow final)
  ∧ thinkingSteps final = [].
Proof.
  intros Hknown Hsel Hupd. cbv zeta.
  unfold MultiAgentChatHandler.run_agents in *.
  match type of Hupd with
  | context [MultiAgentChatHandler.loop _ _ _ _ ?s0] =>
      destruct (loop_tail answers hasData selection.2 0 s0 Hknown)
        as (tail & Hlog & Hkeeps)
  end.
  rewrite Hlog in Hupd |- *. cbn [ls_log] in *.
  rewrite !updates_of_app, Hsel in Hupd. cbn in Hupd.
  rewrite app_nil_r in Hupd.
  rewrite !app_assoc, dispatch_thinkingSteps_clear.
  rewrite dispatch_all_app. cbn [dispatch_all fold_left appReducer workflow
    isProcessing]. rewrite dispatch_all_app.
  set (pre := [ADD_THINKING_STEP _] ++ selection.1).
  rewrite (dispatch_all_app state pre).
  cbn [dispatch_all fold_left appReducer].
  fold (dispatch_all state pre).
  set (reg := mkApp _ true (thinkingSteps (dispatch_all state pre))).
  fold (dispatch_all reg tail).
  destruct (dispatch_keeps_workflow tail reg Hkeeps) as [Hw Hp].
  rewrite Hw, Hp, Hupd, fmap_app, !dispatch_all_app.
  cbn [fmap list_fmap dispatch_all fold_left].
  rewrite !update_processing, !update_workflow.
  fold (dispatch_all reg (UPDATE_WORKFLOW_STEP <$> us)).
  match goal with
  | |- context [dispatch_all ?r (UPDATE_WORKFLOW_STEP <$> us)] =>
      fold (dispatch_all r (UPDATE_WORKFLOW_STEP <$> us))
  end.
  assert (Hsame : ∀ ts ts' wf p,
            workflow (dispatch_all (mkApp wf p ts)
                        (UPDATE_WORKFLOW_STEP <$> us))
            = workflow (dispatch_all (mkApp wf p ts')
                          (UPDATE_WORKFLOW_STEP <$> us))).
  { clear. induction us as [|u0 us IH] using rev_ind; [done|].
    intros ts ts' wf p. rewrite fmap_app, !dispatch_all_app.
    cbn [fmap list_fmap dispatch_all fold_left].
    rewrite !update_workflow.
    fold (dispatch_all (mkApp wf p ts) (UPDATE_WORKFLOW_STEP <$> us)).
    fold (dispatch_all (mkApp wf p ts') (UPDATE_WORKFLOW_STEP <$> us)).
    by rewrite (IH ts ts'). }
  unfold reg.
  rewrite (Hsame (thinkingSteps (dispatch_all state pre)) [] _ true). done.
Qed.

(** X12. A run of the basic handler in which every request is answered:
    the response is the answers in order, each followed by a line feed,
    trimmed as a whole (report blocks are not removed), under the key of
    the last agent; and once the dispatched actions are reduced, every
    step of the workflow is completed, the processing flag is off and
    the thinking steps are cleared. *)
Theorem answered_run_completes_workflow answers hasData
    (selection : list Action * list jsstring) (texts : list jsstring) state :
  Forall MultiAgentChatHandler.known selection.2 →
  updates_of selection.1 = [] →
  0 < length selection.2 →
  length texts = length selection.2 →
  (∀ j text, texts !! j = Some text → answers j = inl text) →
  let run := MultiAgentChatHandler.run_agents answers hasData selection in
  let final := dispatch_all state (dispatched run) in
  requested run = selection.2
  ∧ returned run
    = Some (mkResult
              (or_else (trim (concat ((λ text, text ++ nl) <$> texts)))
                 (js "Sorry, I couldn't generate a response."))
              (default (js "general") (last selection.2)))
  ∧ step_status <$> workflow final
    = replicate (length selection.2) completed
  ∧ isProcessing final = false
  ∧ thinkingSteps final = [].
Proof.
  intros Hknown Hsel Hpos Hlen Hans. cbv zeta.
  assert (Hrun :
    let run := MultiAgentChatHandler.run_agents answers hasData selection in
    requested run = selection.2
    ∧ returned run
      = Some (mkResult
                (or_else (trim (concat ((λ text, text ++ nl) <$> texts)))
                   (js "Sorry, I couldn't generate a response."))
                (default (js "general") (last selection.2)))
    ∧ updates_of (dispatched run) = progress 0 (length selection.2)).
  { cbv zeta. unfold MultiAgentChatHandler.run_agents.
    match goal with
    | |- context [MultiAgentChatHandler.loop _ _ _ _ ?s0] =>
        destruct (loop_success answers hasData selection.2 0 s0 texts)
          as (H1 & H2 & H3)
    end; [done|done|done|done|].
    rewrite H1, H2, H3. cbn [ls_requested ls_log ls_finalResponse
      ls_finalAgentType]. split; [done|]. split; [done|].
    rewrite !updates_of_app, Hsel. done. }
  cbv zeta in Hrun. destruct Hrun as (Hreq & Hret & Hupd).
  split; [done|]. split; [done|].
  destruct (length selection.2) as [|n] eqn:HN; [lia|].
  assert (Hprog : progress 0 (S n)
                  = (progress 0 n ++ [set_status (stepId (0 + n)) active])
                    ++ [set_status (stepId (0 + n)) completed]).
  { rewrite progress_last, <- app_assoc. done. }
  rewrite Hprog in Hupd.
  destruct (run_agents_reduced answers hasData selection state _ _
              Hknown Hsel Hupd) as (Hw & Hp & Hts).
  cbv zeta in Hw, Hp, Hts. rewrite Hp, Hts, Hw, <- Hprog.
  set (reg := mkApp _ true []).
  assert (Hids : step_id <$> workflow reg
                 = stepId <$> seq 0 (length (workflow reg))).
  { unfold reg. cbn [workflow]. rewrite createWorkflowSteps_ids.
    unfold MultiAgentChatHandler.createWorkflowSteps.
    by rewrite length_imap. }
  assert (Hlenreg : length (workflow reg) = S n).
  { unfold reg. cbn [workflow].
    unfold MultiAgentChatHandler.createWorkflowSteps.
    by rewrite length_imap. }
  destruct (progress_statuses (S n) 0 reg Hids) as [_ Hst]; [lia|].
  cbv zeta in Hst. rewrite Hst. cbn [take app Nat.add].
  rewrite drop_ge; [|by rewrite length_fmap, Hlenreg].
  rewrite app_nil_r. split; [done|]. split; [|done].
  clear. induction (S n) as [|m IH]; [done|]. simpl. exact IH.
Qed.

(** X13. A run of the basic handler whose request number [k] fails:
    once the dispatched actions are reduced, the steps before [k] are
    completed, step [k] is in error and the later ones are still
    pending; the processing flag stays on exactly when such a pending
    step is left, and the thinking steps are cleared. *)
Theorem failed_run_leaves_steps_pending answers hasData
    (selection : list Action * list jsstring) k e state :
  Forall MultiAgentChatHandler.known selection.2 →
  updates_of selection.1 = [] →
  k < length selection.2 →
  (∀ j, j < k → ∃ text, answers j = inl text) →
  answers k = inr e →
  let run := MultiAgentChatHandler.run_agents answers hasData selection in
  let final := dispatch_all state (dispatched run) in
  step_status <$> workflow final
  = replicate k completed
    ++ error :: replicate (length selection.2 - S k) pending
  ∧ isProcessing final = bool_decide (S k < length selection.2)
  ∧ thinkingSteps final = [].
Proof.
  intros Hknown Hsel Hk Hans Hfail. cbv zeta.
  destruct (run_agents_failure answers hasData selection k e Hknown Hsel Hk
              Hans Hfail) as (_ & _ & Hupd).
  cbv zeta in Hupd.
  change [set_status (stepId k) active; set_status (stepId k) error]
    with ([set_status (stepId k) active] ++ [set_status (stepId k) error])
    in Hupd.
  rewrite !app_assoc in Hupd.
  destruct (run_agents_reduced answers hasData selection state _ _
              Hknown Hsel Hupd) as (Hw & Hp & Hts).
  cbv zeta in Hw, Hp, Hts. rewrite Hp, Hts, Hw.
  set (reg := mkApp _ true []).
  assert (Hlenreg : length (workflow reg) = length selection.2).
  { unfold reg. cbn [workflow].
    unfold MultiAgentChatHandler.createWorkflowSteps.
    by rewrite length_imap. }
  assert (Hids : step_id <$> workflow reg
                 = stepId <$> seq 0 (length (workflow reg))).
  { rewrite Hlenreg. unfold reg. cbn [workflow].
    by rewrite createWorkflowSteps_ids. }
  destruct (progress_statuses k 0 reg Hids) as [Hid1 Hst1]; [lia|].
  cbv zeta in Hid1, Hst1.
  rewrite !fmap_app, !dispatch_all_app.
  cbn [fmap list_fmap dispatch_all fold_left].
  fold (dispatch_all reg (UPDATE_WORKFLOW_STEP <$> progress 0 k)).
  set (s1 := dispatch_all reg (UPDATE_WORKFLOW_STEP <$> progress 0 k)) in *.
  assert (Hlen1 : length (workflow s1) = length selection.2).
  { rewrite <- (length_fmap step_id), Hid1, length_fmap. exact Hlenreg. }
  assert (Hids1 : step_id <$> workflow s1
                  = stepId <$> seq 0 (length (workflow s1))).
  { by rewrite Hid1, Hlen1, <- Hlenreg. }
  destruct (update_status_insert s1 k active Hids1) as [Hid2 Hst2].
  set (s2 := appReducer s1
               (UPDATE_WORKFLOW_STEP (set_status (stepId k) active))) in *.
  assert (Hids2 : step_id <$> workflow s2
                  = stepId <$> seq 0 (length (workflow s2))).
  { unfold s2 at 2. by rewrite update_status_length, Hid2. }
  destruct (update_status_insert s2 k error Hids2) as [_ Hst3].
  cbv zeta in Hst3. rewrite Hst3, Hst2, list_insert_insert_eq, Hst1.
  unfold reg. cbn [workflow take app Nat.add].
  rewrite createWorkflowSteps_statuses.
  assert (Hfinal :
    <[k := error]>
      (replicate k completed
       ++ drop k match selection.2 with
                 | [] => []
                 | _ :: rest => active :: replicate (length rest) pending
                 end)
    = replicate k completed
      ++ error :: replicate (length selection.2 - S k) pending).
  { rewrite insert_app_r_alt; [|by rewrite length_replicate].
    rewrite length_replicate, Nat.sub_diag. f_equal.
    destruct selection.2 as [|a rest]; [simpl in Hk; lia|].
    simpl in Hk |- *. destruct k as [|k]; simpl.
    - by rewrite Nat.sub_0_r.
    - rewrite drop_replicate.
      destruct (length rest - k) as [|m] eqn:Hm; [lia|].
      simpl. f_equal. f_equal. lia. }
  rewrite take_0, app_nil_l, Hfinal. split; [done|]. split; [|done].
  rewrite existsb_app. 
  assert (Hdone : existsb in_progress (replicate k completed) = false).
  { clear. induction k as [|k IH]; [done|]. simpl. exact IH. }
  rewrite Hdone. cbn [existsb orb in_progress].
  destruct (length selection.2 - S k) as [|m] eqn:Hm.
  - simpl. symmetry. apply bool_decide_eq_false. lia.
  - simpl. symmetry. apply bool_decide_eq_true. lia.
Qed.

End BasicRunFacts.

Lemma update_recomputes_processing_witness :
  isProcessing
    (appReducer (mkApp [] true [])
       (UPDATE_WORKFLOW_STEP (set_status (js "step-1") active)))
  = false.
Proof.
  apply (update_recomputes_processing (mkApp [] true [])
           (set_status (js "step-1") active)).
  reflexivity.
Defined.

Lemma answered_run_completes_workflow_witness :
  step_status
  <$> workflow
        (dispatch_all (mkApp [] false [])
           (dispatched
              (MultiAgentChatHandler.run_agents (H := ascii_builtins)
                 answers_both false forecast_selection)))
  = [completed; completed].
Proof.
  apply (answered_run_completes_workflow (H := ascii_builtins) answers_both
           false forecast_selection
           [js "EDA done "; js "Forecast ready" ++ nl] (mkApp [] false [])).
  - vm_compute. repeat constructor; by eexists.
  - reflexivity.
  - vm_compute. lia.
  - reflexivity.
  - intros [|[|j]] text; simpl; intros [= <-]; reflexivity.
Defined.

Lemma failed_run_leaves_steps_pending_witness :
  isProcessing
    (dispatch_all (mkApp [] false [])
       (dispatched
          (MultiAgentChatHandler.run_agents (H := ascii_builtins)
             answers_unauthorized false forecast_selection)))
  = true.
Proof.
  apply (failed_run_leaves_steps_pending (H := ascii_builtins)
           answers_unauthorized false forecast_selection 0
           (ThrownError
              (js "Invalid API key. Please check your OpenAI configuration."))
           (mkApp [] false [])).
  - vm_compute. repeat constructor; by eexists.
  - reflexivity.
  - vm_compute. lia.
  - intros j Hj. lia.
  - reflexivity.
Defined.

(** ** A run of [EnhancedMultiAgentChatHandler] seen through the reducer *)

Section EnhancedRunFacts.
Context `{Builtins}.
Implicit Types (answers : Answers) (s : LoopState) (agents : list jsstring)
  (state : AppState).

Lemma run_selection_reduced answers
    (sel : EnhancedMultiAgentChatHandler.Selection) state :
  Forall EnhancedMultiAgentChatHandler.known
    (EnhancedMultiAgentChatHandler.agents sel) →
  let run := EnhancedMultiAgentChatHandler.run_selection answers sel in
  let final := dispatch_all state (dispatched run) in
  workflow final
  = (if decide (1 < length (EnhancedMultiAgentChatHandler.sel_workflow sel))
     then EnhancedMultiAgentChatHandler.sel_workflow sel
     else workflow state)
  ∧ isProcessing final
    = (if decide (1 < length (EnhancedMultiAgentChatHandler.sel_workflow sel))
       then true else isProcessing state)
  ∧ (is_Some (returned run) → thinkingSteps final = [])
  ∧ (returned run = None →
     ∃ added, added ≠ [] ∧ thinkingSteps final = thinkingSteps state ++ added).
Proof.
  intros Hknown. cbv zeta.
  unfold EnhancedMultiAgentChatHandler.run_selection.
  match goal with
  | |- context [EnhancedMultiAgentChatHandler.loop _ ?count _ [] ?s0] =>
      destruct (enhanced_loop answers count _ [] s0 Hknown)
        as (_ & (tail & Hlog & Hkeeps & Hupd & Hth) & text & Hret & _)
  end.
  cbv zeta in Hlog, Hret. rewrite Hlog, Hret. cbn [ls_log].
  set (pre := [ADD_THINKING_STEP _; ADD_THINKING_STEP _] ++ _).
  assert (Hpre : workflow (dispatch_all state pre)
                 = (if decide (1 < length (EnhancedMultiAgentChatHandler.sel_workflow sel))
                    then EnhancedMultiAgentChatHandler.sel_workflow sel
                    else workflow state)
                 ∧ isProcessing (dispatch_all state pre)
                   = (if decide (1 < length (EnhancedMultiAgentChatHandler.sel_workflow sel))
                      then true else isProcessing state)).
  { unfold pre. rewrite dispatch_all_app.
    case_decide;
      cbn [dispatch_all fold_left appReducer workflow isProcessing]; done. }
  assert (Htail : workflow (dispatch_all state (pre ++ tail))
                  = workflow (dispatch_all state pre)
                  ∧ isProcessing (dispatch_all state (pre ++ tail))
                    = isProcessing (dispatch_all state pre)).
  { rewrite dispatch_all_app.
    destruct (dispatch_keeps_workflow tail (dispatch_all state pre) Hkeeps)
      as [Hw Hp].
    by rewrite Hw, Hp, Hupd. }
  destruct Hpre as [Hpre1 Hpre2]. destruct Htail as [Htail1 Htail2].
  destruct (EnhancedMultiAgentChatHandler.aggregation_throws _ _).
  - rewrite app_nil_r, Htail1, Htail2, Hpre1, Hpre2.
    split; [done|]. split; [done|]. split; [by intros [? ?]|].
    intros _. exists (thoughts_of (pre ++ tail)). split.
    + unfold pre. rewrite <- app_assoc. discriminate.
    + apply dispatch_keeps_thoughts. rewrite forallb_app, Hth.
      unfold pre. rewrite forallb_app. by case_decide.
  - rewrite !app_assoc, dispatch_thinkingSteps_clear.
    rewrite dispatch_all_app.
    cbn [dispatch_all fold_left appReducer workflow isProcessing].
    rewrite Htail1, Htail2, Hpre1, Hpre2. done.
Qed.

(** X14. The enhanced handler never advances a workflow.  It registers
    the selected workflow only when it has more than one step, and
    dispatches no update afterwards: at the end of the run a workflow it
    registered is exactly as selected, with every step pending and the
    processing flag on, whatever the agents answered; a single-step
    workflow is not registered at all, and workflow and flag are what
    they were before the run.  The thinking steps are cleared when the
    handler returns; when the report aggregation throws they are not,
    and the ones the run added stay behind those shown before. *)
Theorem enhanced_run_never_advances_workflow answers userMessage hasData
    state :
  EnhancedMultiAgentChatHandler.validateChatMessage userMessage = None →
  let sel :=
    EnhancedMultiAgentChatHandler.selectOptimalAgents
      (sanitizeUserInput userMessage) hasData in
  let run :=
    EnhancedMultiAgentChatHandler.generateEnhancedResponse answers
      userMessage hasData in
  let final := dispatch_all state (dispatched run) in
  (1 < length (EnhancedMultiAgentChatHandler.sel_workflow sel) →
   workflow final = EnhancedMultiAgentChatHandler.sel_workflow sel
   ∧ Forall (λ step, step_status step = pending) (workflow final)
   ∧ isProcessing final = true)
  ∧ (length (EnhancedMultiAgentChatHandler.sel_workflow sel) ≤ 1 →
     workflow final = workflow state
     ∧ isProcessing final = isProcessing state)
  ∧ (is_Some (returned run) → thinkingSteps final = [])
  ∧ (returned run = None →
     ∃ added, added ≠ [] ∧ thinkingSteps final = thinkingSteps state ++ added).
Proof.
  intros Hvalid. cbv zeta.
  unfold EnhancedMultiAgentChatHandler.generateEnhancedResponse.
  rewrite Hvalid.
  destruct (run_selection_reduced answers
              (EnhancedMultiAgentChatHandler.selectOptimalAgents
                 (sanitizeUserInput userMessage) hasData) state
              (selectOptimalAgents_known _ _)) as (Hw & Hp & Hts & Hleft).
  cbv zeta in Hw, Hp, Hts, Hleft. rewrite Hw, Hp.
  split; [|split; [|split; [exact Hts|exact Hleft]]].
  - intros Hlen. rewrite !decide_True by done.
    split; [done|]. split; [|done]. apply selectOptimalAgents_pending.
  - intros Hlen. rewrite !decide_False by lia. done.
Qed.

(** X15. Validation looks at the raw message: it passes exactly when
    the message has a character that is not white space and at most
    10,000 code units.  A message that fails is rejected before anything
    is dispatched or requested.  For one that passes, one request is
    issued per selected agent, and a response is returned unless the
    report aggregation throws: always when a single agent is selected,
    and always when no answer holds a report block that parses. *)
Theorem message_validation answers userMessage hasData :
  (EnhancedMultiAgentChatHandler.validateChatMessage userMessage = None
   ↔ trim userMessage ≠ [] ∧ (Z.of_nat (length userMessage) ≤ 10000)%Z)
  ∧ (EnhancedMultiAgentChatHandler.validateChatMessage userMessage ≠ None →
     EnhancedMultiAgentChatHandler.generateEnhancedResponse answers
       userMessage hasData
     = mkRun None [] [])
  ∧ (EnhancedMultiAgentChatHandler.validateChatMessage userMessage = None →
     let sel :=
       EnhancedMultiAgentChatHandler.selectOptimalAgents
         (sanitizeUserInput userMessage) hasData in
     let run :=
       EnhancedMultiAgentChatHandler.generateEnhancedResponse answers
         userMessage hasData in
     requested run = EnhancedMultiAgentChatHandler.agents sel
     ∧ (returned run = None
        ↔ EnhancedMultiAgentChatHandler.aggregation_throws
            (length (EnhancedMultiAgentChatHandler.agents sel))
            (EnhancedMultiAgentChatHandler.aggregated answers 0
               (EnhancedMultiAgentChatHandler.agents sel) [])
          = true)
     ∧ (length (EnhancedMultiAgentChatHandler.agents sel) = 1 →
        is_Some (returned run))
     ∧ ((∀ n text, answers n = inl text → report_data text = None) →
        is_Some (returned run))).
Proof.
  split; [|split].
  - unfold EnhancedMultiAgentChatHandler.validateChatMessage.
    destruct (decide (userMessage = [])) as [->|Hne].
    { split; [done|]. by intros [? _]. }
    destruct (decide (length (trim userMessage) = 0)) as [Hz|Hnz].
    { split; [done|]. intros [Htrim _].
      by destruct (trim userMessage). }
    destruct (decide (10000 < Z.of_nat (length userMessage))%Z) as [Hl|Hl].
    { split; [done|]. intros [_ Hlen]. lia. }
    split; [|done]. intros _. split; [|lia].
    intros Htrim. by rewrite Htrim in Hnz.
  - intros Hinvalid.
    unfold EnhancedMultiAgentChatHandler.generateEnhancedResponse.
    by destruct (EnhancedMultiAgentChatHandler.validateChatMessage _).
  - intros Hvalid. cbv zeta.
    unfold EnhancedMultiAgentChatHandler.generateEnhancedResponse.
    rewrite Hvalid.
    destruct (run_selection_spec answers
                (EnhancedMultiAgentChatHandler.selectOptimalAgents
                   (sanitizeUserInput userMessage) hasData)
                (selectOptimalAgents_known _ _))
      as (Hreq & _ & text & Hret & _).
    cbv zeta in Hreq, Hret. rewrite Hreq, Hret.
    split; [done|]. split; [|split].
    + by destruct (EnhancedMultiAgentChatHandler.aggregation_throws _ _).
    + intros Hone. rewrite aggregation_not_multi by lia. by eexists.
    + intros Hnone. rewrite aggregated_nothing by done.
      unfold EnhancedMultiAgentChatHandler.aggregation_throws.
      cbn [JSMap.size length].
      rewrite (bool_decide_eq_false_2 (0 < 0)) by lia.
      rewrite andb_false_r. by eexists.
Qed.

(** X16. When a single agent is selected, its answer is the response as
    it came, only trimmed: no heading is added and a report block stays
    in the text; an answer that is blank gives the fallback text.  When
    its request fails the response is the agent's heading with the
    warning and the error text. *)
Theorem single_agent_response answers
    (sel : EnhancedMultiAgentChatHandler.Selection) agentKey agent :
  EnhancedMultiAgentChatHandler.agents sel = [agentKey] →
  JSMap.get agentKey EnhancedMultiAgentChatHandler.ENHANCED_AGENTS
  = Some agent →
  let run := EnhancedMultiAgentChatHandler.run_selection answers sel in
  requested run = [agentKey]
  ∧ returned run
    = Some (mkResult
              match answers 0 with
              | inl aiResponse =>
                  or_else (trim aiResponse)
                    EnhancedMultiAgentChatHandler.fallback
              | inr e =>
                  trimEnd
                    (js "## " ++ agent_name agent ++ nl ++ js "⚠️ "
                     ++ EnhancedMultiAgentChatHandler.error_text e ++ nl ++ nl)
              end
              agentKey).
Proof.
  intros Hagents Hagent. cbv zeta.
  unfold EnhancedMultiAgentChatHandler.run_selection. rewrite Hagents.
  rewrite enhanced_loop_cons.
  unfold EnhancedMultiAgentChatHandler.iteration.
  rewrite (read_property_own _ _ _ Hagent).
  cbn [ls_requested length].
  destruct (answers 0) as [aiResponse|e].
  - cbn [EnhancedMultiAgentChatHandler.loop].
    rewrite aggregation_not_multi by lia.
    cbn [requested returned ls_requested ls_finalResponse ls_finalAgentType
         app].
    rewrite bool_decide_eq_true_2; done.
  - cbn [EnhancedMultiAgentChatHandler.loop].
    rewrite aggregation_not_multi by lia.
    cbn [requested returned ls_requested ls_finalResponse ls_finalAgentType
         app].
    split; [done|]. f_equal. f_equal.
    unfold EnhancedMultiAgentChatHandler.failed_section.
    destruct (trim_concat_headed 35%N []
                (js "## " ++ agent_name agent ++ nl ++ js "⚠️ "
                 ++ EnhancedMultiAgentChatHandler.error_text e ++ nl ++ nl))
      as [Htrim Hne]; [done| |].
    { apply Forall_singleton. by eexists. }
    cbn [app concat] in Htrim. rewrite app_nil_r in Htrim.
    rewrite Htrim.
    destruct (trimEnd _) eqn:Hte; [done|]. done.
Qed.

End EnhancedRunFacts.

Lemma enhanced_run_never_advances_workflow_witness :
  isProcessing
    (dispatch_all (mkApp [] false [])
       (dispatched
          (EnhancedMultiAgentChatHandler.generateEnhancedResponse
             (H := ascii_builtins) answers_null_report (js "forecast") true)))
  = true
  ∧ ∃ added,
      added ≠ []
      ∧ thinkingSteps
          (dispatch_all (mkApp [] false [])
             (dispatched
                (EnhancedMultiAgentChatHandler.generateEnhancedResponse
                   (H := ascii_builtins) answers_null_report (js "forecast")
                   true)))
        = [] ++ added.
Proof.
  destruct (enhanced_run_never_advances_workflow (H := ascii_builtins)
              answers_null_report (js "forecast") true (mkApp [] false []))
    as (Hregistered & _ & _ & Hleft).
  - vm_compute. reflexivity.
  - split.
    + apply Hregistered. vm_compute. lia.
    + apply Hleft. vm_compute. reflexivity.
Defined.

Lemma message_validation_witness :
  EnhancedMultiAgentChatHandler.generateEnhancedResponse
    (H := ascii_builtins) answers_both (js "   ") true
  = mkRun None [] []
  ∧ returned
      (EnhancedMultiAgentChatHandler.generateEnhancedResponse
         (H := ascii_builtins) answers_null_report (js "forecast") true)
    = None
  ∧ is_Some
      (returned
         (EnhancedMultiAgentChatHandler.generateEnhancedResponse
            (H := ascii_builtins) answers_null_report (js "hello") true)).
Proof.
  split; [|split].
  - apply (message_validation (H := ascii_builtins) answers_both (js "   ")
             true).
    vm_compute. discriminate.
  - destruct (proj2 (proj2 (message_validation (H := ascii_builtins)
                              answers_null_report (js "forecast") true)))
      as (_ & Hnone & _).
    + vm_compute. reflexivity.
    + apply Hnone. vm_compute. reflexivity.
  - destruct (proj2 (proj2 (message_validation (H := ascii_builtins)
                              answers_null_report (js "hello") true)))
      as (_ & _ & Hone & _).
    + vm_compute. reflexivity.
    + apply Hone. vm_compute. reflexivity.
Defined.

Lemma single_agent_response_witness :
  requested
    (EnhancedMultiAgentChatHandler.run_selection (H := ascii_builtins)
       answers_both
       (EnhancedMultiAgentChatHandler.selectOptimalAgents
          (H := ascii_builtins) (js "hello") true))
  = [js "general"].
Proof.
  apply (single_agent_response (H := ascii_builtins) answers_both
           (EnhancedMultiAgentChatHandler.selectOptimalAgents
              (H := ascii_builtins) (js "hello") true)
           (js "general")
           (mkAgent (js "BI Assistant") (js "🤖") (js "General BI Support")
              [])).
  - vm_compute. reflexivity.
  - vm_compute. reflexivity.
Defined.

(** ** [createWorkflowSteps] *)

Section WorkflowStepsFacts.
Context `{Builtins}.

(** [workflowMap] and [AGENTS] have entries under the same keys. *)
Lemma workflowMap_keys key :
  is_Some (JSMap.get key MultiAgentChatHandler.workflowMap)
  ↔ is_Some (JSMap.get key MultiAgentChatHandler.AGENTS).
Proof.
  assert (Hkeys : JSMap.keys MultiAgentChatHandler.workflowMap
                  = JSMap.keys MultiAgentChatHandler.AGENTS)
    by (vm_compute; reflexivity).
  split; intros [v Hv%JSMap_get_Some_key]; apply JSMap_get_is_Some.
  - by rewrite <- Hkeys.
  - by rewrite Hkeys.
Qed.

(** X17. The steps [createWorkflowSteps] builds form a chain: their
    identifiers are pairwise distinct, the first step depends on
    nothing, and every later step depends on exactly the step before
    it, which exists.  A key with an entry gets all four texts, the
    agent's name among them.  A key under which nothing is found gets
    the texts of the general assistant.  A key that names a property
    inherited from [Object.prototype] does not: the step has no
    estimated time and no details, and its name and its agent are the
    name of the inherited function, if it is one. *)
Theorem createWorkflowSteps_chain (agentKeys : list jsstring) :
  NoDup (step_id <$> MultiAgentChatHandler.createWorkflowSteps agentKeys)
  ∧ (∀ i step,
       MultiAgentChatHandler.createWorkflowSteps agentKeys !! i = Some step →
       match i with
       | 0 => step_dependencies step = []
       | S j =>
           ∃ previous,
             MultiAgentChatHandler.createWorkflowSteps agentKeys !! j
             = Some previous
             ∧ step_dependencies step = [step_id previous]
       end)
  ∧ (∀ i key step,
       agentKeys !! i = Some key →
       MultiAgentChatHandler.createWorkflowSteps agentKeys !! i = Some step →
       (∀ agent,
          JSMap.get key MultiAgentChatHandler.AGENTS = Some agent →
          step_agent step = Some (agent_name agent)
          ∧ is_Some (step_name step)
          ∧ is_Some (step_estimatedTime step)
          ∧ is_Some (step_details step))
       ∧ (JSMap.get key MultiAgentChatHandler.AGENTS = None →
          JSMap.get key prototype_properties = None →
          step_name step = Some (js "Processing Request")
          ∧ step_estimatedTime step = Some (js "10-20s")
          ∧ step_details step
            = Some (js "Understanding and responding to your query")
          ∧ step_agent step = Some (js "General Assistant"))
       ∧ (∀ name,
            JSMap.get key MultiAgentChatHandler.AGENTS = None →
            JSMap.get key prototype_properties = Some name →
            step_name step = name
            ∧ step_estimatedTime step = None
            ∧ step_details step = None
            ∧ step_agent step = name)).
Proof.
  split; [|split].
  - rewrite createWorkflowSteps_ids. apply NoDup_fmap_2.
    + intros i j. apply stepId_inj.
    + apply NoDup_seq.
  - intros i step Hstep. destruct i as [|j].
    + unfold MultiAgentChatHandler.createWorkflowSteps in Hstep.
      rewrite list_lookup_imap in Hstep.
      destruct (agentKeys !! 0); [|done].
      apply (inj Some) in Hstep. by subst step.
    + assert (Hj : j < length
                         (MultiAgentChatHandler.createWorkflowSteps agentKeys)).
      { apply lookup_lt_Some in Hstep. lia. }
      destruct (lookup_lt_is_Some_2 _ _ Hj) as [previous Hprev].
      exists previous. split; [done|].
      apply createWorkflowSteps_lookup in Hprev as [-> _].
      unfold MultiAgentChatHandler.createWorkflowSteps in Hstep.
      rewrite list_lookup_imap in Hstep.
      destruct (agentKeys !! S j); [|done].
      apply (inj Some) in Hstep. subst step.
      cbn [step_dependencies]. rewrite decide_True by lia.
      unfold stepId. by rewrite Nat.add_1_r.
  - intros i key step Hkey Hstep.
    unfold MultiAgentChatHandler.createWorkflowSteps in Hstep.
    rewrite list_lookup_imap, Hkey in Hstep.
    apply (inj Some) in Hstep. subst step.
    cbn [step_name step_agent step_estimatedTime step_details].
    unfold MultiAgentChatHandler.config_texts,
      MultiAgentChatHandler.agent_text, read_property.
    pose proof (workflowMap_keys key) as Hkeys.
    split; [|split].
    + intros agent Hagent. rewrite Hagent.
      destruct (proj2 Hkeys) as [config Hconfig]; [by eexists|].
      rewrite Hconfig. cbn [fst snd]. split; [done|]. split; by eexists.
    + intros Hnone Hproto. rewrite Hnone, Hproto.
      destruct (JSMap.get key MultiAgentChatHandler.workflowMap) eqn:Hmap.
      { destruct (proj1 Hkeys) as [? ?]; [by eexists|]. congruence. }
      done.
    + intros name Hnone Hproto. rewrite Hnone, Hproto.
      destruct (JSMap.get key MultiAgentChatHandler.workflowMap) eqn:Hmap.
      { destruct (proj1 Hkeys) as [? ?]; [by eexists|]. congruence. }
      done.
Qed.

End WorkflowStepsFacts.

Lemma createWorkflowSteps_chain_witness :
  ∃ step,
    MultiAgentChatHandler.createWorkflowSteps [js "eda"; js "toString"] !! 1
    = Some step
    ∧ step_name step = Some (js "toString")
    ∧ step_estimatedTime step = None
    ∧ step_details step = None
    ∧ step_agent step = Some (js "toString").
Proof.
  eexists. split; [vm_compute; reflexivity|].
  destruct (createWorkflowSteps_chain [js "eda"; js "toString"])
    as (_ & _ & Htexts).
  eapply (Htexts 1 (js "toString")).
  - reflexivity.
  - vm_compute. reflexivity.
  - vm_compute. reflexivity.
  - vm_compute. reflexivity.
Defined.

(** ** The report block *)

Section ReportFacts.
Implicit Types (s pat pre post : jsstring).

Lemma starts_with_app pat post : starts_with pat (pat ++ post) = true.
Proof.
  induction pat as [|p pat IH]; [done|]. simpl. by rewrite N.eqb_refl.
Qed.

Lemma starts_with_true pat s :
  starts_with pat s = true → s = pat ++ drop (length pat) s.
Proof.
  revert s. induction pat as [|p pat IH]; intros s; [done|].
  destruct s as [|c s]; [done|]. simpl.
  destruct (N.eqb_spec p c) as [->|]; [|done].
  intros Hs. f_equal. by apply IH.
Qed.

Lemma index_of_Some pat s i :
  index_of pat s = Some i →
  s = take i s ++ pat ++ drop (i + length pat) s.
Proof.
  revert i. induction s as [|c s IH]; intros i.
  - simpl. destruct (starts_with pat []) eqn:Hp; [|done].
    intros [= <-]. by apply starts_with_true in Hp.
  - cbn [index_of]. destruct (starts_with pat (c :: s)) eqn:Hp.
    + intros [= <-]. by apply starts_with_true in Hp.
    + destruct (index_of pat s) as [j|]; [|done].
      intros [= <-]. simpl. f_equal. by apply IH.
Qed.

Lemma index_of_starts pat s :
  starts_with pat s = true → index_of pat s = Some 0.
Proof. intros Hs. destruct s; cbn [index_of]; by rewrite Hs. Qed.

(** [indexOf] finds the first occurrence. *)
Lemma index_of_first pat pre post :
  ∃ i, index_of pat (pre ++ pat ++ post) = Some i ∧ i ≤ length pre.
Proof.
  induction pre as [|c pre IH].
  - exists 0. split; [|done]. rewrite app_nil_l.
    apply index_of_starts, starts_with_app.
  - destruct IH as (i & Hi & Hle). cbn [app index_of].
    destruct (starts_with pat (c :: pre ++ pat ++ post)).
    + exists 0. split; [done|]. simpl. lia.
    + exists (S i). rewrite Hi. split; [done|]. simpl. lia.
Qed.

Lemma index_of_bound pat s i : index_of pat s = Some i → i ≤ length s.
Proof.
  revert i. induction s as [|c s IH]; intros i.
  - simpl. destruct (starts_with pat []); [|done]. by intros [= <-].
  - cbn [index_of]. destruct (starts_with pat (c :: s)).
    + intros [= <-]. lia.
    + destruct (index_of pat s) as [j|]; [|done].
      intros [= <-]. specialize (IH j eq_refl). simpl. lia.
Qed.

Lemma index_of_least pat s i pre post :
  index_of pat s = Some i → s = pre ++ pat ++ post → i ≤ length pre.
Proof.
  intros Hi ->. destruct (index_of_first pat pre post) as (j & Hj & Hle).
  rewrite Hj in Hi. injection Hi as <-. done.
Qed.

(** X18. The report block the handlers look for is the leftmost one,
    closed by the first closing tag after it: when a block is found the
    text is the part before it, the opening tag, the captured text, the
    closing tag and the rest, no opening tag begins earlier and no
    closing tag begins earlier behind the opening one; removing the
    block leaves the two outer parts.  When no block is found the text
    cannot be split in this way and is left as it is. *)
Theorem find_report_leftmost s :
  (∀ before inner after,
     find_report s = Some (before, inner, after) →
     s = before ++ report_open ++ inner ++ report_close ++ after
     ∧ strip_report s = before ++ after
     ∧ (∀ pre post, s = pre ++ report_open ++ post →
          length before ≤ length pre)
     ∧ (∀ pre post, inner ++ report_close ++ after
                    = pre ++ report_close ++ post →
          length inner ≤ length pre))
  ∧ (find_report s = None →
     strip_report s = s
     ∧ ∀ before inner after,
         s ≠ before ++ report_open ++ inner ++ report_close ++ after).
Proof.
  unfold strip_report, find_report. split.
  - intros before inner after.
    destruct (index_of report_open s) as [i|] eqn:Hi; [|done].
    cbn [mbind option_bind].
    destruct (index_of report_close (drop (i + length report_open) s))
      as [j|] eqn:Hj; [|done].
    cbn [mbind option_bind]. intros [= <- <- <-].
    pose proof (index_of_Some _ _ _ Hi) as Hs.
    pose proof (index_of_Some _ _ _ Hj) as Hrest.
    pose proof (index_of_bound _ _ _ Hi) as Hbi.
    pose proof (index_of_bound _ _ _ Hj) as Hbj.
    assert (Ho : length report_open = 13) by (vm_compute; reflexivity).
    assert (Hc : length report_close = 14) by (vm_compute; reflexivity).
    rewrite ?Ho, ?Hc in *.
    split; [|split; [done|split]].
    + rewrite <- Hrest. exact Hs.
    + intros pre post Hpre. rewrite length_take.
      pose proof (index_of_least _ _ _ _ _ Hi Hpre). lia.
    + intros pre post Hpre. rewrite length_take.
      rewrite <- Hrest in Hpre.
      pose proof (index_of_least _ _ _ _ _ Hj Hpre). lia.
  - destruct (index_of report_open s) as [i|] eqn:Hi.
    + cbn [mbind option_bind].
      destruct (index_of report_close (drop (i + length report_open) s))
        as [j|] eqn:Hj; [done|].
      intros _. split; [done|]. intros before inner after Hs.
      pose proof (index_of_Some _ _ _ Hi) as Hsplit.
      pose proof (index_of_least _ _ _ _ _ Hi Hs) as Hle.
      assert (Hdrop : drop (i + length report_open) s
                      = (drop (i + length report_open) (before ++ report_open)
                         ++ inner)
                        ++ report_close ++ after).
      { rewrite Hs at 1. rewrite (app_assoc before).
        rewrite drop_app_le; [by rewrite <- !app_assoc|].
        rewrite length_app. lia. }
      destruct (index_of_first report_close
                  (drop (i + length report_open) (before ++ report_open)
                   ++ inner) after)
        as (j & Hfound & _).
      rewrite <- Hdrop, Hj in Hfound. done.
    + intros _. split; [done|]. intros before inner after Hs.
      destruct (index_of_first report_open before
                  (inner ++ report_close ++ after)) as (i & Hfound & _).
      rewrite <- Hs, Hi in Hfound. done.
Qed.

End ReportFacts.

Lemma find_report_leftmost_witness :
  strip_report
    (js "Summary [REPORT_DATA]{}[/REPORT_DATA] done [/REPORT_DATA]")
  = js "Summary " ++ js " done [/REPORT_DATA]".
Proof.
  apply (proj1 (find_report_leftmost
                  (js "Summary [REPORT_DATA]{}[/REPORT_DATA] done [/REPORT_DATA]"))
           (js "Summary ") (js "{}") (js " done [/REPORT_DATA]")).
  vm_compute. reflexivity.
Defined.

(** ** Base64 read back, and the keys of short prompts *)

Section Base64Facts.

Lemma elem_of_bytes (a : N) : (a < 256)%N → a ∈ bytes.
Proof.
  intros Ha. unfold bytes. apply list_elem_of_fmap.
  exists (N.to_nat a). split; [by rewrite N2Nat.id|].
  apply elem_of_seq. lia.
Qed.

Lemma forall_bytes (P : N → bool) :
  forallb P bytes = true → ∀ a, (a < 256)%N → P a = true.
Proof.
  intros Hall a Ha. rewrite forallb_forall in Hall.
  apply Hall, list_elem_of_In, elem_of_bytes, Ha.
Qed.

Lemma forall_bytes2 (P : N → N → bool) :
  forallb (λ a, forallb (P a) bytes) bytes = true →
  ∀ a b, (a < 256)%N → (b < 256)%N → P a b = true.
Proof.
  intros Hall a b Ha Hb.
  apply (forall_bytes (P a)); [|done].
  by apply (forall_bytes (λ a, forallb (P a) bytes)).
Qed.

(** A digit is read back as the value it was written for, and is never
    the padding sign. *)
Lemma b64_value_digit (i : N) :
  (i < 64)%N → b64_value (b64_digit i) = i ∧ b64_digit i ≠ 61%N.
Proof.
  intros Hi.
  assert (Hall : ((b64_value (b64_digit i) =? i)
                  && negb (b64_digit i =? 61))%N = true).
  { pose proof (forall_bytes
      (λ i, implb (i <? 64)%N ((b64_value (b64_digit i) =? i)%N
                               && negb (b64_digit i =? 61)%N))) as Hb.
    specialize (Hb ltac:(vm_compute; reflexivity) i ltac:(lia)).
    cbv beta in Hb. apply N.ltb_lt in Hi. by rewrite Hi in Hb. }
  apply andb_true_iff in Hall as [Hv Hd].
  apply N.eqb_eq in Hv. apply negb_true_iff, N.eqb_neq in Hd. done.
Qed.

(** How the bytes sit in the four digits of a group. *)
Lemma group_first (a b : N) :
  (a < 256)%N → (b < 256)%N →
  (N.shiftr a 2 < 64)%N
  ∧ (N.lor (N.shiftl (N.land a 3) 4) (N.shiftr b 4) < 64)%N
  ∧ (N.shiftl (N.land a 3) 4 < 64)%N
  ∧ N.lor (N.shiftl (N.shiftr a 2) 2)
      (N.shiftr (N.lor (N.shiftl (N.land a 3) 4) (N.shiftr b 4)) 4) = a
  ∧ N.lor (N.shiftl (N.shiftr a 2) 2)
      (N.shiftr (N.shiftl (N.land a 3) 4) 4) = a
  ∧ N.land (N.lor (N.shiftl (N.land a 3) 4) (N.shiftr b 4)) 15
    = N.shiftr b 4.
Proof.
  intros Ha Hb.
  pose proof (forall_bytes2
    (λ a b,
       (N.shiftr a 2 <? 64)
       && (N.lor (N.shiftl (N.land a 3) 4) (N.shiftr b 4) <? 64)
       && (N.shiftl (N.land a 3) 4 <? 64)
       && (N.lor (N.shiftl (N.shiftr a 2) 2)
             (N.shiftr (N.lor (N.shiftl (N.land a 3) 4) (N.shiftr b 4)) 4)
           =? a)
       && (N.lor (N.shiftl (N.shiftr a 2) 2)
             (N.shiftr (N.shiftl (N.land a 3) 4) 4) =? a)
       && (N.land (N.lor (N.shiftl (N.land a 3) 4) (N.shiftr b 4)) 15
           =? N.shiftr b 4))%N) as Hall.
  specialize (Hall ltac:(vm_compute; reflexivity) a b Ha Hb).
  cbv beta in Hall.
  repeat (apply andb_true_iff in Hall as [Hall ?]).
  repeat match goal with
         | H : (_ <? _)%N = true |- _ => apply N.ltb_lt in H
         | H : (_ =? _)%N = true |- _ => apply N.eqb_eq in H
         end.
  done.
Qed.

Lemma group_rest (b c : N) :
  (b < 256)%N → (c < 256)%N →
  (N.lor (N.shiftl (N.land b 15) 2) (N.shiftr c 6) < 64)%N
  ∧ (N.shiftl (N.land b 15) 2 < 64)%N
  ∧ (N.land c 63 < 64)%N
  ∧ N.lor (N.shiftl (N.shiftr b 4) 4)
      (N.shiftr (N.lor (N.shiftl (N.land b 15) 2) (N.shiftr c 6)) 2) = b
  ∧ N.lor (N.shiftl (N.shiftr b 4) 4)
      (N.shiftr (N.shiftl (N.land b 15) 2) 2) = b
  ∧ N.lor
      (N.shiftl
         (N.land (N.lor (N.shiftl (N.land b 15) 2) (N.shiftr c 6)) 3) 6)
      (N.land c 63) = c.
Proof.
  intros Hb Hc.
  pose proof (forall_bytes2
    (λ b c,
       (N.lor (N.shiftl (N.land b 15) 2) (N.shiftr c 6) <? 64)
       && (N.shiftl (N.land b 15) 2 <? 64)
       && (N.land c 63 <? 64)
       && (N.lor (N.shiftl (N.shiftr b 4) 4)
             (N.shiftr (N.lor (N.shiftl (N.land b 15) 2) (N.shiftr c 6)) 2)
           =? b)
       && (N.lor (N.shiftl (N.shiftr b 4) 4)
             (N.shiftr (N.shiftl (N.land b 15) 2) 2) =? b)
       && (N.lor
             (N.shiftl
                (N.land (N.lor (N.shiftl (N.land b 15) 2) (N.shiftr c 6)) 3)
                6)
             (N.land c 63) =? c))%N) as Hall.
  specialize (Hall ltac:(vm_compute; reflexivity) b c Hb Hc).
  cbv beta in Hall.
  repeat (apply andb_true_iff in Hall as [Hall ?]).
  repeat match goal with
         | H : (_ <? _)%N = true |- _ => apply N.ltb_lt in H
         | H : (_ =? _)%N = true |- _ => apply N.eqb_eq in H
         end.
  done.
Qed.

Lemma base64_three (a b c : N) (rest : list N) :
  base64 (a :: b :: c :: rest)
  = [b64_digit (N.shiftr a 2);
     b64_digit (N.lor (N.shiftl (N.land a 3) 4) (N.shiftr b 4));
     b64_digit (N.lor (N.shiftl (N.land b 15) 2) (N.shiftr c 6));
     b64_digit (N.land c 63)] ++ base64 rest.
Proof. done. Qed.

Lemma unbase64_two (x y : N) :
  unbase64 [x; y]
  = [N.lor (N.shiftl (b64_value x) 2) (N.shiftr (b64_value y) 4)].
Proof. done. Qed.

Lemma unbase64_four (x y z w : N) (rest : jsstring) :
  unbase64 (x :: y :: z :: w :: rest)
  = if (z =? 61)%N then
      [N.lor (N.shiftl (b64_value x) 2) (N.shiftr (b64_value y) 4)]
    else if (w =? 61)%N then
      [N.lor (N.shiftl (b64_value x) 2) (N.shiftr (b64_value y) 4);
       N.lor (N.shiftl (N.land (b64_value y) 15) 4)
         (N.shiftr (b64_value z) 2)]
    else
      N.lor (N.shiftl (b64_value x) 2) (N.shiftr (b64_value y) 4)
      :: N.lor (N.shiftl (N.land (b64_value y) 15) 4)
           (N.shiftr (b64_value z) 2)
      :: N.lor (N.shiftl (N.land (b64_value z) 3) 6) (b64_value w)
      :: unbase64 rest.
Proof. done. Qed.

(** The first [4 * n + 2] digits of an encoding give back the first
    [3 * n + 1] bytes. *)
Lemma unbase64_take (n : nat) : ∀ l : list N,
  Forall (λ c, (c < 256)%N) l →
  unbase64 (take (4 * n + 2) (base64 l)) = take (3 * n + 1) l.
Proof.
  induction n as [|n IH]; intros l Hl.
  - destruct l as [|a [|b [|c rest]]]; [done|..].
    + apply Forall_cons in Hl as [Ha _].
      destruct (group_first a 0 Ha) as (H1 & _ & H3 & _ & H5 & _); [done|].
      cbn [base64 take Nat.mul Nat.add]. rewrite unbase64_two.
      destruct (b64_value_digit _ H1) as [-> _].
      destruct (b64_value_digit _ H3) as [-> _]. by rewrite H5.
    + apply Forall_cons in Hl as [Ha [Hb _]%Forall_cons].
      destruct (group_first a b Ha Hb) as (H1 & H2 & _ & H4 & _).
      cbn [base64 take Nat.mul Nat.add]. rewrite unbase64_two.
      destruct (b64_value_digit _ H1) as [-> _].
      destruct (b64_value_digit _ H2) as [-> _]. by rewrite H4.
    + apply Forall_cons in Hl as [Ha [Hb _]%Forall_cons].
      destruct (group_first a b Ha Hb) as (H1 & H2 & _ & H4 & _).
      rewrite base64_three. cbn [take Nat.mul Nat.add app].
      rewrite unbase64_two.
      destruct (b64_value_digit _ H1) as [-> _].
      destruct (b64_value_digit _ H2) as [-> _]. by rewrite H4.
  - replace (4 * S n + 2) with (S (S (S (S (4 * n + 2))))) by lia.
    replace (3 * S n + 1) with (S (S (S (3 * n + 1)))) by lia.
    destruct l as [|a [|b [|c rest]]]; [done|..].
    + apply Forall_cons in Hl as [Ha _].
      destruct (group_first a 0 Ha) as (H1 & _ & H3 & _ & H5 & _); [done|].
      cbn [base64 take]. rewrite take_nil, unbase64_four.
      cbn [N.eqb Pos.eqb].
      destruct (b64_value_digit _ H1) as [-> _].
      destruct (b64_value_digit _ H3) as [-> _]. by rewrite H5.
    + apply Forall_cons in Hl as [Ha [Hb _]%Forall_cons].
      destruct (group_first a b Ha Hb) as (H1 & H2 & _ & H4 & _ & H6).
      destruct (group_rest b 0 Hb) as (_ & G2 & _ & _ & G5 & _); [done|].
      cbn [base64 take]. rewrite !take_nil, unbase64_four.
      destruct (b64_value_digit _ H1) as [-> _].
      destruct (b64_value_digit _ H2) as [-> _].
      destruct (b64_value_digit _ G2) as [-> Hne].
      apply N.eqb_neq in Hne. rewrite Hne. cbn [N.eqb Pos.eqb].
      by rewrite H4, H6, G5.
    + apply Forall_cons in Hl as [Ha [Hb [Hc Hrest]%Forall_cons]%Forall_cons].
      destruct (group_first a b Ha Hb) as (H1 & H2 & _ & H4 & _ & H6).
      destruct (group_rest b c Hb Hc) as (G1 & _ & G3 & G4 & _ & G6).
      rewrite base64_three. cbn [take app]. rewrite unbase64_four.
      destruct (b64_value_digit _ H1) as [-> _].
      destruct (b64_value_digit _ H2) as [-> _].
      destruct (b64_value_digit _ G1) as [-> Hne1].
      destruct (b64_value_digit _ G3) as [-> Hne2].
      apply N.eqb_neq in Hne1, Hne2. rewrite Hne1, Hne2.
      rewrite H4, H6, G4, G6. f_equal. f_equal. f_equal. by apply IH.
Qed.

(** X19. Base64 loses nothing: two sequences of bytes with the same
    encoding are the same sequence. *)
Theorem base64_injective (l1 l2 : list N) :
  Forall (λ c, (c ≤ 255)%N) l1 → Forall (λ c, (c ≤ 255)%N) l2 →
  btoa l1 = btoa l2 → l1 = l2.
Proof.
  intros H1 H2. rewrite !btoa_of_latin1 by done. intros [= Heq].
  assert (Hback : ∀ l, Forall (λ c, (c ≤ 255)%N) l →
                       unbase64 (base64 l) = l).
  { intros l Hl.
    assert (Hl' : Forall (λ c, (c < 256)%N) l).
    { eapply Forall_impl; [exact Hl|]. simpl. intros. lia. }
    pose proof (unbase64_take (length l) l Hl') as Htake.
    assert (Hlen : length (base64 l) ≤ 4 * length l + 2).
    { clear.
      assert (Hn : ∀ n (k : list N), length k ≤ n →
                     length (base64 k) ≤ 4 * length k + 2).
      { induction n as [|n IH]; intros k Hk.
        - destruct k; [simpl; lia|simpl in Hk; lia].
        - destruct k as [|x [|y [|z rest]]]; [simpl; lia..|].
          rewrite base64_three, length_app.
          specialize (IH rest). simpl in *. lia. }
      by apply (Hn (length l)). }
    rewrite take_ge in Htake by done.
    rewrite take_ge in Htake by lia. done. }
  by rewrite <- (Hback l1), <- (Hback l2), Heq.
Qed.

Section KeyFacts.
Context `{JSNumber}.

(** X20. The key tells short prompts apart.  For two calls with the
    same model and temperature whose joined contents are Latin-1, equal
    keys mean that the joined contents agree on their first 37 units: so
    contents of at most 37 units that differ never share a key, and a
    collision needs texts that agree that far. *)
Theorem cache_key_separates (messages1 messages2 : list Message) model
    temperature :
  let content1 := join (js "|") (content <$> messages1) in
  let content2 := join (js "|") (content <$> messages2) in
  Forall (λ c, (c ≤ 255)%N) content1 →
  Forall (λ c, (c ≤ 255)%N) content2 →
  Client.generateCacheKey messages1 model temperature
  = Client.generateCacheKey messages2 model temperature →
  take 37 content1 = take 37 content2
  ∧ (length content1 ≤ 37 → length content2 ≤ 37 → content1 = content2).
Proof.
  cbv zeta. intros H1 H2. unfold Client.generateCacheKey.
  rewrite !btoa_of_latin1 by done. cbn [mbind option_bind].
  intros Heq. apply (inj Some) in Heq. do 5 apply app_inv_head in Heq.
  assert (Htake : ∀ l, Forall (λ c, (c ≤ 255)%N) l →
                       unbase64 (take 50 (base64 l)) = take 37 l).
  { intros l Hl. apply (unbase64_take 12).
    eapply Forall_impl; [exact Hl|]. simpl. intros. lia. }
  assert (H37 : take 37 (join (js "|") (content <$> messages1))
                = take 37 (join (js "|") (content <$> messages2))).
  { by rewrite <- (Htake _ H1), <- (Htake _ H2), Heq. }
  split; [done|]. intros Hl1 Hl2.
  rewrite !take_ge in H37 by done. done.
Qed.

End KeyFacts.

End Base64Facts.

Lemma base64_injective_witness : js "hello" = js "hello".
Proof.
  apply (base64_injective (js "hello") (js "hello")).
  - apply (bool_decide_unpack _). vm_compute. exact I.
  - apply (bool_decide_unpack _). vm_compute. exact I.
  - reflexivity.
Defined.

Lemma cache_key_separates_witness :
  take 37 (join (js "|") (content <$> [mkMessage user (js "hello")]))
  = take 37 (join (js "|") (content <$> [mkMessage system (js "hello")])).
Proof.
  destruct (cache_key_separates (H := rendered_numbers)
              [mkMessage user (js "hello")] [mkMessage system (js "hello")]
              (js "gpt-4o-mini") (js "0.7")) as [Htake _].
  - apply (bool_decide_unpack _). vm_compute. exact I.
  - apply (bool_decide_unpack _). vm_compute. exact I.
  - reflexivity.
  - exact Htake.
Defined.

(** ** The conversation history *)

Section HistoryFacts.
Context `{Builtins}.
Implicit Types (answers : Answers) (h : list Message).

(** X21. The conversation history of the basic handler.  When every
    request is answered it grows by the user's message and the answer,
    once per agent, so the same user message is stored once for every
    step.  When request number [k] fails it ends with the user's message
    of that step, which has no answer and is not taken back: the history
    then ends with a user entry, and the next run appends another one
    right behind it.  The number of user entries added is the number of
    requests issued. *)
Theorem basic_history answers userMessage hasData (log : list Action)
    agents h :
  Forall MultiAgentChatHandler.known agents →
  (∀ texts,
     length texts = length agents →
     (∀ j text, texts !! j = Some text → answers j = inl text) →
     History.basic answers userMessage 0 agents h
     = h ++ flat_map (λ text, [mkMessage user userMessage;
                               mkMessage assistant text]) texts)
  ∧ (∀ k e texts,
       k < length agents →
       length texts = k →
       (∀ j text, texts !! j = Some text → answers j = inl text) →
       answers k = inr e →
       History.basic answers userMessage 0 agents h
       = h ++ flat_map (λ text, [mkMessage user userMessage;
                                 mkMessage assistant text]) texts
           ++ [mkMessage user userMessage])
  ∧ length (filter (λ m, role m = user)
              (drop (length h)
                 (History.basic answers userMessage 0 agents h)))
    = length
        (requested
           (MultiAgentChatHandler.run_agents answers hasData (log, agents))).
Proof.
  intros Hknown.
  assert (Hgen : ∀ n,
    (∀ texts h0,
       length texts = length agents →
       (∀ j text, texts !! j = Some text → answers (n + j) = inl text) →
       History.basic answers userMessage n agents h0
       = h0 ++ flat_map (λ text, [mkMessage user userMessage;
                                  mkMessage assistant text]) texts)
    ∧ (∀ k e texts h0,
         k < length agents →
         length texts = k →
         (∀ j text, texts !! j = Some text → answers (n + j) = inl text) →
         answers (n + k) = inr e →
         History.basic answers userMessage n agents h0
         = h0 ++ flat_map (λ text, [mkMessage user userMessage;
                                    mkMessage assistant text]) texts
              ++ [mkMessage user userMessage])
    ∧ (∀ h0 s,
         length (ls_requested s) = n →
         length (filter (λ m, role m = user)
                   (drop (length h0)
                      (History.basic answers userMessage n agents h0)))
         + length (ls_requested s)
         = length
             (requested
                (MultiAgentChatHandler.loop answers hasData n agents s)))).
  { induction agents as [|agentKey agents IH]; intros n.
    - split; [|split].
      + intros texts h0 Hlen _. destruct texts; [|done].
        simpl. by rewrite app_nil_r.
      + intros k e texts h0 Hk. simpl in Hk. lia.
      + intros h0 s _. cbn [History.basic MultiAgentChatHandler.loop requested].
        by rewrite drop_all.
    - apply Forall_cons in Hknown as [[agent Hagent%agent_of_known] Hknown].
      destruct (IH Hknown (S n)) as (IH1 & IH2 & IH3). clear IH.
      split; [|split].
      + intros texts h0 Hlen Hans.
        destruct texts as [|text texts]; [done|].
        cbn [History.basic]. rewrite Hagent.
        pose proof (Hans 0 text eq_refl) as H0.
        rewrite Nat.add_0_r in H0. rewrite H0, (IH1 texts).
        * cbn [flat_map]. by rewrite <- !app_assoc.
        * simpl in Hlen. lia.
        * intros j t Ht. rewrite <- (Hans (S j) t Ht). f_equal. lia.
      + intros k e texts h0 Hk Hlen Hans Hfail.
        cbn [History.basic]. rewrite Hagent.
        destruct texts as [|text texts].
        * simpl in Hlen. subst k. rewrite Nat.add_0_r in Hfail.
          by rewrite Hfail.
        * pose proof (Hans 0 text eq_refl) as H0.
          rewrite Nat.add_0_r in H0. rewrite H0.
          destruct k as [|k]; [done|].
          rewrite (IH2 k e texts).
          -- cbn [flat_map]. by rewrite <- !app_assoc.
          -- simpl in Hk. lia.
          -- simpl in Hlen. lia.
          -- intros j t Ht. rewrite <- (Hans (S j) t Ht). f_equal. lia.
          -- rewrite <- Hfail. f_equal. lia.
      + intros h0 s Hreq.
        cbn [History.basic]. rewrite loop_cons.
        unfold MultiAgentChatHandler.iteration. rewrite Hagent, Hreq.
        destruct (answers n) as [text|e].
        * match goal with
          | |- context [MultiAgentChatHandler.loop _ _ _ _ ?s'] =>
              rewrite <- (IH3 ((h0 ++ [mkMessage user userMessage])
                               ++ [mkMessage assistant text]) s')
          end.
          2:{ cbn [ls_requested]. rewrite length_app. simpl. lia. }
          cbn [ls_requested]. rewrite !length_app. cbn [length].
          set (hist := History.basic _ _ _ _ _).
          assert (Hpre : ∃ tl, hist
                         = ((h0 ++ [mkMessage user userMessage])
                            ++ [mkMessage assistant text]) ++ tl).
          { unfold hist. clear. generalize (S n).
            generalize ((h0 ++ [mkMessage user userMessage])
                        ++ [mkMessage assistant text]).
            induction agents as [|a agents IHa]; intros h1 m.
            - exists []. simpl. by rewrite app_nil_r.
            - cbn [History.basic].
              destruct (MultiAgentChatHandler.agent_of a);
                [|exists []; by rewrite app_nil_r].
              destruct (answers m).
              + destruct (IHa ((h1 ++ [mkMessage user userMessage])
                               ++ [mkMessage assistant l]) (S m))
                  as [tl ->].
                eexists. rewrite <- !app_assoc. reflexivity.
              + eexists. reflexivity. }
          destruct Hpre as [tl ->].
          rewrite <- !app_assoc.
          rewrite drop_app_length.
          rewrite (app_assoc h0), (app_assoc (h0 ++ _)).
          replace (length h0 + 1 + 1) with
            (length ((h0 ++ [mkMessage user userMessage])
                     ++ [mkMessage assistant text]))
            by (rewrite !length_app; simpl; lia).
          rewrite drop_app_length.
          cbn [app]. rewrite filter_cons_True by done.
          rewrite filter_cons_False by done. simpl. lia.
        * cbn [requested ls_requested]. rewrite drop_app_length.
          rewrite length_app. simpl. lia. }
  destruct (Hgen 0) as (H1 & H2 & H3). split; [|split].
  - intros texts Hlen Hans. by apply H1.
  - intros k e texts Hk Hlen Hans Hfail. by eapply H2.
  - unfold MultiAgentChatHandler.run_agents. cbn [fst snd].
    match goal with
    | |- context [MultiAgentChatHandler.loop _ _ _ _ ?s0] =>
        rewrite <- (H3 h s0); [|done]
    end.
    cbn [ls_requested length]. lia.
Qed.

Lemma enhanced_history_app answers m agents : ∀ n h,
  Forall EnhancedMultiAgentChatHandler.known agents →
  History.enhanced answers m n agents h
  = h ++ concat (History.exchange answers m <$> seq n (length agents)).
Proof.
  induction agents as [|agentKey agents IH]; intros n h Hknown.
  - simpl. by rewrite app_nil_r.
  - apply Forall_cons in Hknown as [[agent Hagent%read_property_own] Hknown].
    cbn [History.enhanced length seq fmap list_fmap concat].
    rewrite Hagent. unfold History.exchange at 1.
    destruct (answers n) as [text|e]; rewrite IH by done;
      by rewrite <- !app_assoc.
Qed.

(** X22. The conversation history of the enhanced handler.  Every
    selected agent adds the user's message, followed by its answer when
    its request is answered, so a pipeline of six agents stores the same
    message six times.  A request carries the last ten entries only, and
    the last of them is the user's message; once five agents of a run
    have answered, what the next request carries no longer depends on
    the conversation before the run. *)
Theorem enhanced_history answers m agents h :
  Forall EnhancedMultiAgentChatHandler.known agents →
  History.enhanced answers m 0 agents h
  = h ++ concat (History.exchange answers m <$> seq 0 (length agents))
  ∧ length (filter (λ x, role x = user)
              (concat (History.exchange answers m
                       <$> seq 0 (length agents))))
    = length agents
  ∧ (∀ h0,
       length (History.enhanced_context (h0 ++ [mkMessage user m])) ≤ 10
       ∧ last (History.enhanced_context (h0 ++ [mkMessage user m]))
         = Some (mkMessage user m))
  ∧ (∀ k h',
       5 ≤ k → k ≤ length agents →
       (∀ j, j < k → ∃ text, answers j = inl text) →
       History.enhanced_context
         (History.enhanced answers m 0 (take k agents) h
          ++ [mkMessage user m])
       = History.enhanced_context
           (History.enhanced answers m 0 (take k agents) h'
            ++ [mkMessage user m])).
Proof.
  intros Hknown. split; [by apply enhanced_history_app|].
  split; [|split].
  - generalize 0. clear Hknown.
    induction agents as [|a agents IH]; intros n; [done|].
    cbn [length seq fmap list_fmap concat].
    rewrite filter_app, length_app, IH. unfold History.exchange.
    rewrite filter_cons_True by done.
    destruct (answers n); [rewrite filter_cons_False by done|]; done.
  - intros h0. unfold History.enhanced_context. split.
    + rewrite length_drop. lia.
    + rewrite length_app. cbn [length].
      rewrite drop_app_le by lia.
      by rewrite last_snoc.
  - intros k h' Hk Hlen Hans.
    assert (Hk_known : Forall EnhancedMultiAgentChatHandler.known
                         (take k agents)).
    { by apply Forall_take. }
    rewrite !enhanced_history_app by done.
    rewrite length_take, Nat.min_l by done.
    set (added := concat (History.exchange answers m <$> seq 0 k)).
    assert (Hadded : 10 ≤ length added).
    { unfold added. clear -Hk Hans.
      assert (Hn : ∀ n i, (∀ j, j < n → ∃ text, answers (i + j) = inl text) →
                length (concat (History.exchange answers m <$> seq i n))
                = 2 * n).
      { induction n as [|n IH]; intros i Hi; [done|].
        cbn [seq fmap list_fmap concat]. rewrite length_app, IH.
        - unfold History.exchange. destruct (Hi 0) as [text Ht]; [lia|].
          rewrite Nat.add_0_r in Ht. rewrite Ht. simpl. lia.
        - intros j Hj. destruct (Hi (S j)) as [text Ht]; [lia|].
          exists text. rewrite <- Ht. f_equal. lia. }
      rewrite (Hn k 0); [lia|]. intros j Hj. by apply Hans. }
    unfold History.enhanced_context.
    rewrite <- !app_assoc, !length_app.
    change (length [mkMessage user m]) with 1.
    rewrite (drop_app_ge h) by lia. rewrite (drop_app_ge h') by lia.
    f_equal. lia.
Qed.

End HistoryFacts.

Lemma basic_history_witness :
  History.basic answers_both (js "forecast") 0 [js "eda"; js "forecasting"] []
  = [] ++ flat_map (λ text, [mkMessage user (js "forecast");
                             mkMessage assistant text])
            [js "EDA done "; js "Forecast ready" ++ nl].
Proof.
  apply (basic_history (H := ascii_builtins) answers_both (js "forecast")
           false [] [js "eda"; js "forecasting"] []).
  - vm_compute. repeat constructor; by eexists.
  - reflexivity.
  - intros [|[|j]] text; simpl; intros [= <-]; reflexivity.
Defined.

Lemma enhanced_history_witness :
  length
    (filter (λ x, role x = user)
       (concat
          (History.exchange answers_second_fails (js "forecast")
           <$> seq 0 (length (js <$> ["eda"; "preprocessing"; "modeling";
                                      "validation"; "forecasting";
                                      "insights"])))))
  = length (js <$> ["eda"; "preprocessing"; "modeling"; "validation";
                    "forecasting"; "insights"]).
Proof.
  apply (enhanced_history answers_second_fails (js "forecast")
           (js <$> ["eda"; "preprocessing"; "modeling"; "validation";
                    "forecasting"; "insights"]) []).
  vm_compute. repeat constructor; by eexists.
Defined.



(** ** [validateResponses] *)

Section FollowUpFacts.
Context `{JSNumber}.
Implicit Types (questions : list FollowUp.FollowUpQuestion)
  (responses : list FollowUp.UserResponse) (r : FollowUp.UserResponse).

(** The map built from the responses holds, for each question id, the
    last response given for it. *)
Lemma get_responseMap k responses : ∀ m0 : JSMap.t FollowUp.UserResponse,
  JSMap.get k
    (fold_left (λ m r, JSMap.set (FollowUp.questionId r) r m) responses m0)
  = match last (filter (λ r, FollowUp.questionId r = k) responses) with
    | Some r => Some r
    | None => JSMap.get k m0
    end.
Proof.
  induction responses as [|r responses IH]; intros m0; [done|].
  cbn [fold_left]. rewrite IH, filter_cons.
  destruct (decide (FollowUp.questionId r = k)) as [<-|Hne].
  - destruct (filter _ responses) as [|r' l] eqn:Hf.
    + simpl. apply JSMap_get_set_eq.
    + rewrite last_cons_cons.
      destruct (last (r' :: l)) eqn:Hl; [done|].
      by apply last_None in Hl.
  - destruct (last _); [done|]. by apply JSMap_get_set_ne.
Qed.

Lemma check_get (m1 m2 : JSMap.t FollowUp.UserResponse) question :
  JSMap.get (FollowUp.fq_id question) m1
  = JSMap.get (FollowUp.fq_id question) m2 →
  FollowUp.check m1 question = FollowUp.check m2 question.
Proof. unfold FollowUp.check. by intros ->. Qed.

Lemma validate_get questions responses1 responses2 :
  (∀ question, question ∈ questions →
     JSMap.get (FollowUp.fq_id question) (FollowUp.responseMap responses1)
     = JSMap.get (FollowUp.fq_id question) (FollowUp.responseMap responses2)) →
  FollowUp.validateResponses questions responses1
  = FollowUp.validateResponses questions responses2.
Proof.
  intros Hget. unfold FollowUp.validateResponses. cbv zeta.
  assert (Heq : flat_map (FollowUp.check (FollowUp.responseMap responses1))
                  questions
                = flat_map (FollowUp.check (FollowUp.responseMap responses2))
                    questions).
  { induction questions as [|q questions IH]; [done|].
    cbn [flat_map]. rewrite IH.
    - f_equal. apply check_get, Hget. left.
    - intros question Hin. apply Hget. by right. }
  by rewrite Heq.
Qed.

(** X23. [validateResponses] reports at most one error per question.
    Responses to questions that were not asked are ignored, and of
    several responses to one question only the last counts.  Only a
    text answer to a single-choice question with options is compared with
    the options: an answered question of any other type is accepted
    whatever the answer is. *)
Theorem validateResponses_checks questions responses :
  length (FollowUp.validateResponses questions responses).2
    ≤ length questions
  ∧ ((FollowUp.validateResponses questions responses).1 = true
     ↔ (FollowUp.validateResponses questions responses).2 = [])
  ∧ (∀ r, (∀ question, question ∈ questions →
             FollowUp.fq_id question ≠ FollowUp.questionId r) →
       FollowUp.validateResponses questions (responses ++ [r])
       = FollowUp.validateResponses questions responses)
  ∧ (∀ r r' responses',
       FollowUp.questionId r = FollowUp.questionId r' →
       FollowUp.validateResponses questions
         (responses ++ r :: responses' ++ [r'])
       = FollowUp.validateResponses questions
           (responses ++ responses' ++ [r']))
  ∧ (∀ question r,
       FollowUp.questionId r = FollowUp.fq_id question →
       FollowUp.fq_type question ≠ FollowUp.single_choice →
       FollowUp.validateResponses [question] (responses ++ [r])
       = (true, [])).
Proof.
  split; [|split; [|split; [|split]]].
  - unfold FollowUp.validateResponses. cbn [snd].
    induction questions as [|q questions IH]; [done|].
    cbn [flat_map]. rewrite length_app. cbn [length].
    assert (length (FollowUp.check (FollowUp.responseMap responses) q) ≤ 1);
      [|lia].
    unfold FollowUp.check.
    destruct (JSMap.get _ _) as [response|].
    + rewrite andb_false_r. cbn [app].
      destruct (FollowUp.fq_type q), (FollowUp.fq_options q),
        (FollowUp.answer response); simpl; try lia.
      case_bool_decide; simpl; lia.
    + rewrite app_nil_r. destruct (_ && _); simpl; lia.
  - unfold FollowUp.validateResponses. cbn [fst snd].
    rewrite bool_decide_eq_true. split.
    + by intros ?%nil_length_inv.
    + by intros ->.
  - intros r Hother. apply validate_get. intros question Hin.
    unfold FollowUp.responseMap. rewrite !get_responseMap.
    rewrite filter_app, filter_cons_False, filter_nil, app_nil_r; [done|].
    intros Heq. by apply (Hother question Hin).
  - intros r r' responses' Hsame. apply validate_get. intros question Hin.
    unfold FollowUp.responseMap. rewrite !get_responseMap.
    repeat (rewrite filter_app || rewrite filter_cons || rewrite filter_nil).
    destruct (decide (FollowUp.questionId r' = FollowUp.fq_id question))
      as [Hk|Hk].
    + rewrite decide_True by congruence.
      rewrite app_comm_cons, !app_assoc, !last_snoc. done.
    + rewrite decide_False by congruence. done.
  - intros question r Hid Htype.
    unfold FollowUp.validateResponses, FollowUp.responseMap.
    cbn [flat_map]. rewrite app_nil_r. unfold FollowUp.check.
    rewrite get_responseMap, filter_app, filter_cons_True, filter_nil by done.
    rewrite last_snoc, andb_false_r. cbn [app].
    destruct (FollowUp.fq_type question); done.
Qed.

End FollowUpFacts.

Lemma validateResponses_checks_witness :
  FollowUp.validateResponses [horizon_question]
    ([] ++ answer_bad :: [] ++ [answer_good])
  = FollowUp.validateResponses [horizon_question] ([] ++ [] ++ [answer_good]).
Proof.
  destruct (validateResponses_checks (H := rendered_numbers)
              [horizon_question] []) as (_ & _ & _ & Hlast & _).
  apply Hlast. reflexivity.
Defined.

(** ** [synthesizeRecommendations] *)

Section ReportDataFacts.
Implicit Types (seen l : list jsstring).

Lemma distinct_from_elem l : ∀ seen x,
  x ∈ Report.distinct_from seen l ↔ x ∈ l ∧ x ∉ seen.
Proof.
  induction l as [|y l IH]; intros seen x; simpl.
  - split; [by intros ?%elem_of_nil|by intros [?%elem_of_nil _]].
  - destruct (decide (y ∈ seen)) as [Hy|Hy].
    + rewrite IH. split.
      * intros [Hx Hs]. split; [by right|done].
      * intros [Hx Hs]. split; [|done].
        apply elem_of_cons in Hx as [->|Hx]; done.
    + split.
      * intros Hx. apply elem_of_cons in Hx as [->|Hx].
        -- split; [left|done].
        -- apply IH in Hx as [Hx Hs]. split; [by right|].
           intros Hin. apply Hs. by right.
      * intros [Hx Hs]. destruct (decide (x = y)) as [->|Hne]; [left|].
        right. apply IH. split.
        -- apply elem_of_cons in Hx as [->|Hx]; done.
        -- intros Hin. apply elem_of_cons in Hin as [->|Hin]; done.
Qed.

Lemma distinct_from_NoDup l : ∀ seen, NoDup (Report.distinct_from seen l).
Proof.
  induction l as [|y l IH]; intros seen; simpl; [apply NoDup_nil_2|].
  destruct (decide (y ∈ seen)); [apply IH|].
  apply NoDup_cons. split; [|apply IH].
  rewrite distinct_from_elem. intros [_ Hy]. apply Hy. left.
Qed.

Lemma distinct_from_sublist l : ∀ seen,
  sublist (Report.distinct_from seen l) l.
Proof.
  induction l as [|y l IH]; intros seen; simpl; [done|].
  destruct (decide (y ∈ seen)).
  - by apply sublist_cons.
  - by apply sublist_skip.
Qed.

Lemma distinct_from_NoDup_id l : ∀ seen,
  NoDup l → (∀ x, x ∈ l → x ∉ seen) → Report.distinct_from seen l = l.
Proof.
  induction l as [|y l IH]; intros seen Hnd Hseen; [done|]. simpl.
  apply NoDup_cons in Hnd as [Hy Hnd].
  rewrite decide_False by (apply Hseen; left). f_equal.
  apply IH; [done|]. intros x Hx. apply not_elem_of_cons. split.
  - intros ->. done.
  - apply Hseen. by right.
Qed.

(** An element of [distinct_from] stands where it first occurs: all
    that occurs before it was seen already or stands before it. *)
Lemma distinct_from_first l : ∀ seen i x,
  Report.distinct_from seen l !! i = Some x →
  ∃ n, l !! n = Some x
       ∧ (x ∉ take n l)
       ∧ (x ∉ seen)
       ∧ ∀ y, y ∈ take n l →
              y ∈ seen ∨ y ∈ take i (Report.distinct_from seen l).
Proof.
  induction l as [|y l IH]; intros seen i x; [done|]. simpl.
  destruct (decide (y ∈ seen)) as [Hy|Hy].
  - intros Hx. destruct (IH seen i x Hx) as (n & Hn & Hfirst & Hseen & Hbefore).
    exists (S n). split; [done|]. split; [|split; [done|]].
    + cbn [take]. apply not_elem_of_cons. split; [|done].
      intros ->. done.
    + intros z Hz. cbn [take] in Hz.
      apply elem_of_cons in Hz as [->|Hz]; [by left|by apply Hbefore].
  - destruct i as [|i].
    + intros [= ->]. exists 0. split; [done|]. split; [|split; [done|]].
      * apply not_elem_of_nil.
      * intros z Hz. by apply elem_of_nil in Hz.
    + cbn [lookup list_lookup]. intros Hx.
      destruct (IH (y :: seen) i x Hx)
        as (n & Hn & Hfirst & Hseen & Hbefore).
      apply not_elem_of_cons in Hseen as [Hxy Hseen].
      exists (S n). split; [done|]. split; [|split; [done|]].
      * cbn [take]. by apply not_elem_of_cons.
      * intros z Hz. cbn [take] in Hz |- *.
        apply elem_of_cons in Hz as [->|Hz]; [right; left|].
        destruct (Hbefore z Hz) as [Hin|Hin].
        -- apply elem_of_cons in Hin as [->|Hin]; [right; left|by left].
        -- right. by right.
Qed.

(** X24. The recommendations of a comprehensive report: at most five,
    without repetition, each taken from some agent's recommendations and
    in the order in which they first occur there: a recommendation of
    the result stands at its first occurrence among all of them, and
    whatever occurs before that stands before it in the result.  When
    the agents give at most five distinct recommendations none is lost,
    when they give five or more the result has five, and when they
    repeat none and give at most five, the result is their
    concatenation. *)
Theorem synthesizeRecommendations_distinct
    (insights : JSMap.t (option (list jsstring))) :
  let all := flat_map (λ data, default [] data) (snd <$> insights) in
  let result := Report.synthesizeRecommendations insights in
  length result ≤ 5
  ∧ NoDup result
  ∧ sublist result all
  ∧ (length (Report.distinct_from [] all) ≤ 5 →
     ∀ x, x ∈ all → x ∈ result)
  ∧ (NoDup all → length all ≤ 5 → result = all)
  ∧ (∀ i x,
       result !! i = Some x →
       ∃ n, all !! n = Some x
            ∧ (x ∉ take n all)
            ∧ ∀ y, y ∈ take n all → y ∈ take i result)
  ∧ (∀ l, NoDup l → l ⊆ all → 5 ≤ length l → length result = 5).
Proof.
  cbv zeta. unfold Report.synthesizeRecommendations.
  assert (Hall : flat_map (λ data : option (list jsstring),
                             match data with
                             | Some recommendations => recommendations
                             | None => []
                             end) (snd <$> insights)
                 = flat_map (λ data, default [] data) (snd <$> insights)).
  { apply flat_map_ext. by intros []. }
  rewrite Hall. set (all := flat_map _ _).
  split; [|split; [|split; [|split; [|split; [|split]]]]].
  - rewrite length_take. lia.
  - eapply sublist_NoDup; [apply distinct_from_NoDup|apply sublist_take].
  - etrans; [apply sublist_take|apply distinct_from_sublist].
  - intros Hlen x Hx. rewrite take_ge by done.
    apply distinct_from_elem. split; [done|apply not_elem_of_nil].
  - intros Hnd Hlen.
    rewrite distinct_from_NoDup_id; [by rewrite take_ge| done |].
    intros x _. apply not_elem_of_nil.
  - intros i x Hx. apply lookup_take_Some in Hx as [Hx Hi].
    destruct (distinct_from_first all [] i x Hx)
      as (n & Hn & Hfirst & _ & Hbefore).
    exists n. split; [done|]. split; [done|].
    intros y Hy. rewrite take_take, Nat.min_l by lia.
    destruct (Hbefore y Hy) as [Hin|Hin]; [|done].
    by apply elem_of_nil in Hin.
  - intros l Hnd Hsub Hlen. rewrite length_take.
    assert (Hle : length l ≤ length (Report.distinct_from [] all)).
    { apply submseteq_length, NoDup_submseteq; [done|].
      intros x Hx. apply distinct_from_elem.
      split; [by apply Hsub|apply not_elem_of_nil]. }
    lia.
Qed.

End ReportDataFacts.

Lemma synthesizeRecommendations_distinct_witness :
  Report.synthesizeRecommendations demo_insights
  = [js "Clean the data"; js "Review outliers"; js "Plan capacity"]
  ∧ ∃ n,
      flat_map (λ data, default [] data) (snd <$> demo_insights) !! n
      = Some (js "Plan capacity")
      ∧ (js "Plan capacity"
         ∉ take n (flat_map (λ data, default [] data)
                     (snd <$> demo_insights)))
      ∧ ∀ y,
          y ∈ take n (flat_map (λ data, default [] data)
                        (snd <$> demo_insights)) →
          y ∈ take 2 (Report.synthesizeRecommendations demo_insights).
Proof.
  split; [vm_compute; reflexivity|].
  destruct (synthesizeRecommendations_distinct demo_insights)
    as (_ & _ & _ & _ & _ & Hfirst & _).
  apply (Hfirst 2 (js "Plan capacity")).
  vm_compute. reflexivity.
Defined.

(** ** The reducer: selection and messages *)

Section SessionFacts.
Context {BusinessUnit LineOfBusiness : Type}.
Context (lobs : BusinessUnit → list LineOfBusiness).
Implicit Types (state : Session.t BusinessUnit LineOfBusiness)
  (log : list Action).

Lemma session_workflow_log state log :
  Session.app (Session.dispatch_all lobs state (Session.Workflow <$> log))
  = dispatch_all (Session.app state) log.
Proof.
  revert state. induction log as [|a log IH]; intros state; [done|].
  cbn [fmap list_fmap Session.dispatch_all fold_left dispatch_all].
  fold (Session.dispatch_all lobs (Session.reducer lobs state
                                     (Session.Workflow a))
          (Session.Workflow <$> log)).
  fold (dispatch_all (appReducer (Session.app state) a) log).
  by rewrite IH.
Qed.

(** Updates find nothing to update in an empty workflow. *)
Lemma updates_on_empty (us : list StepUpdate) (p : bool) ts :
  workflow (dispatch_all (mkApp [] p ts) (UPDATE_WORKFLOW_STEP <$> us)) = []
  ∧ isProcessing (dispatch_all (mkApp [] p ts) (UPDATE_WORKFLOW_STEP <$> us))
    = match us with [] => p | _ => false end.
Proof.
  induction us as [|u us IH] using rev_ind; [done|].
  rewrite fmap_app, dispatch_all_app.
  cbn [fmap list_fmap dispatch_all fold_left].
  destruct IH as [IHw _].
  rewrite update_processing, update_workflow, IHw.
  split; [done|]. by destruct us.
Qed.

(** X25. Changing the selection discards the workflow, and the updates
    of a run that is still going on can no longer show progress: after
    [SET_SELECTED_LOB] the workflow is empty and stays empty under any
    thinking steps and step updates, the processing flag keeps telling
    whether the discarded workflow had an active or pending step, and
    the first step update that arrives turns it off.  [SET_SELECTED_BU]
    selects the first line of business of the unit, or none, and turns
    the flag off at once. *)
Theorem selection_discards_workflow state log :
  forallb keeps_workflow log = true →
  (∀ payload,
     let state' :=
       Session.dispatch_all lobs
         (Session.reducer lobs state (Session.SET_SELECTED_LOB payload))
         (Session.Workflow <$> log) in
     Session.selectedLob state' = payload
     ∧ workflow (Session.app state') = []
     ∧ isProcessing (Session.app state')
       = match updates_of log with
         | [] =>
             existsb in_progress
               (step_status <$> workflow (Session.app state))
         | _ => false
         end)
  ∧ (∀ payload,
       let state' :=
         Session.dispatch_all lobs
           (Session.reducer lobs state (Session.SET_SELECTED_BU payload))
           (Session.Workflow <$> log) in
       Session.selectedBu state' = payload
       ∧ Session.selectedLob state' = (bu ← payload; head (lobs bu))
       ∧ workflow (Session.app state') = []
       ∧ isProcessing (Session.app state') = false).
Proof.
  intros Hkeeps.
  assert (Hsel : ∀ s,
    Session.selectedBu
      (Session.dispatch_all lobs s (Session.Workflow <$> log))
    = Session.selectedBu s
    ∧ Session.selectedLob
        (Session.dispatch_all lobs s (Session.Workflow <$> log))
      = Session.selectedLob s).
  { clear. induction log as [|a log IH]; intros s; [done|].
    cbn [fmap list_fmap Session.dispatch_all fold_left].
    fold (Session.dispatch_all lobs
            (Session.reducer lobs s (Session.Workflow a))
            (Session.Workflow <$> log)).
    destruct (IH (Session.reducer lobs s (Session.Workflow a))) as [-> ->].
    done. }
  split.
  - intros payload. cbv zeta. rewrite session_workflow_log.
    destruct (Hsel (Session.reducer lobs state
                      (Session.SET_SELECTED_LOB payload))) as [_ ->].
    cbn [Session.reducer Session.app Session.selectedLob].
    match goal with
    | |- context [dispatch_all ?r log] =>
        destruct (dispatch_keeps_workflow log r Hkeeps) as [-> ->];
        destruct (updates_on_empty (updates_of log) (isProcessing r)
                    (thinkingSteps r)) as [Hw Hp]
    end.
    cbn [isProcessing thinkingSteps] in Hw, Hp. rewrite Hw, Hp.
    split; [done|]. split; [done|]. by rewrite existsb_fmap.
  - intros payload. cbv zeta. rewrite session_workflow_log.
    destruct (Hsel (Session.reducer lobs state
                      (Session.SET_SELECTED_BU payload))) as [-> ->].
    cbn [Session.reducer Session.app Session.selectedLob Session.selectedBu].
    match goal with
    | |- context [dispatch_all ?r log] =>
        destruct (dispatch_keeps_workflow log r Hkeeps) as [-> ->];
        destruct (updates_on_empty (updates_of log) (isProcessing r)
                    (thinkingSteps r)) as [Hw Hp]
    end.
    cbn [isProcessing thinkingSteps] in Hw, Hp. rewrite Hw, Hp.
    split; [done|]. split; [done|]. split; [done|].
    by destruct (updates_of log).
Qed.

End SessionFacts.

Lemma selection_discards_workflow_witness :
  isProcessing
    (Session.app
       (Session.dispatch_all (λ bu : list nat, bu)
          (Session.reducer (λ bu : list nat, bu) demo_session
             (Session.SET_SELECTED_LOB (Some 7)))
          (Session.Workflow <$> [ADD_THINKING_STEP (js "thinking")])))
  = match updates_of [ADD_THINKING_STEP (js "thinking")] with
    | [] =>
        existsb in_progress
          (step_status <$> workflow (Session.app demo_session))
    | _ => false
    end.
Proof.
  apply (selection_discards_workflow (λ bu : list nat, bu) demo_session
           [ADD_THINKING_STEP (js "thinking")]).
  reflexivity.
Defined.

Section MessagesFacts.
Implicit Types (messages : list Messages.ChatMessage).

Lemma update_last_snoc (f : Messages.ChatMessage → Messages.ChatMessage)
    messages x :
  Messages.update_last f (messages ++ [x]) = messages ++ [f x].
Proof.
  unfold Messages.update_last. rewrite last_snoc, length_app.
  cbn [length]. replace (length messages + 1 - 1) with (length messages + 0)
    by lia.
  by rewrite insert_app_r.
Qed.

(** X26. Updates of the last message are positional.  An added message
    that is not a typing indicator removes every typing indicator and
    keeps the other messages in order.  Streamed chunks add up: two
    chunks in a row give the same messages as the two joined, and on an
    empty list nothing happens.  A submit followed by its reply leaves the
    user's message and the reply written into the indicator; but when a
    second submit comes before the first reply, both replies are written
    into the second indicator and the first reply is lost. *)
Theorem last_message_updates messages :
  (∀ payload,
     Messages.typing payload = false →
     Messages.reducer messages (Messages.ADD_MESSAGE payload)
     = filter (λ m, Messages.typing m = false) messages ++ [payload])
  ∧ (∀ chunk1 chunk2,
       Messages.reducer
         (Messages.reducer messages
            (Messages.STREAM_UPDATE_LAST_MESSAGE chunk1))
         (Messages.STREAM_UPDATE_LAST_MESSAGE chunk2)
       = Messages.reducer messages
           (Messages.STREAM_UPDATE_LAST_MESSAGE (chunk1 ++ chunk2)))
  ∧ (∀ action,
       Messages.reducer [] action
       = match action with
         | Messages.ADD_MESSAGE payload => [payload]
         | _ => []
         end)
  ∧ (∀ id1 id2 text content suggestions agentType,
       Messages.dispatch_all messages
         (Messages.submitted id1 id2 text
          ++ [Messages.replied content suggestions agentType])
       = filter (λ m, Messages.typing m = false) messages
         ++ [Messages.mkChat id1 user text None None None;
             Messages.mkChat id2 assistant content (Some false)
               (Some suggestions) (Some agentType)])
  ∧ (∀ id1 id2 text id3 id4 text' content suggestions agentType content'
       suggestions' agentType',
       Messages.dispatch_all messages
         (Messages.submitted id1 id2 text ++ Messages.submitted id3 id4 text'
          ++ [Messages.replied content suggestions agentType;
              Messages.replied content' suggestions' agentType'])
       = filter (λ m, Messages.typing m = false) messages
         ++ [Messages.mkChat id1 user text None None None;
             Messages.mkChat id3 user text' None None None;
             Messages.mkChat id4 assistant content' (Some false)
               (Some suggestions') (Some agentType')]).
Proof.
  assert (Hadd : ∀ ms payload,
            Messages.typing payload = false →
            Messages.reducer ms (Messages.ADD_MESSAGE payload)
            = filter (λ m, Messages.typing m = false) ms ++ [payload]).
  { intros ms payload Hp. cbn [Messages.reducer]. f_equal.
    apply list_filter_iff. intros m. rewrite Hp.
    destruct (Messages.typing m); simpl; split; done. }
  assert (Hkeep : ∀ ms payload,
            Messages.typing payload = true →
            Messages.reducer ms (Messages.ADD_MESSAGE payload)
            = ms ++ [payload]).
  { intros ms payload Hp. cbn [Messages.reducer]. f_equal.
    rewrite Hp. clear. induction ms as [|m ms IH]; [done|].
    rewrite filter_cons_True by (by rewrite orb_true_r). by rewrite IH. }
  assert (Hclean : ∀ ms : list Messages.ChatMessage,
            filter (λ m, Messages.typing m = false)
              (filter (λ m, Messages.typing m = false) ms)
            = filter (λ m, Messages.typing m = false) ms).
  { intros ms. by rewrite list_filter_filter_r. }
  split; [by apply Hadd|]. split; [|split; [|split]].
  - intros chunk1 chunk2. cbn [Messages.reducer].
    destruct messages as [|m0 ms] using rev_ind; [done|].
    rewrite !update_last_snoc. cbn [Messages.m_id Messages.m_role
      Messages.m_content Messages.m_isTyping Messages.m_suggestions
      Messages.m_agentType]. by rewrite <- app_assoc.
  - by intros [].
  - intros id1 id2 text content suggestions agentType.
    unfold Messages.submitted, Messages.replied, Messages.dispatch_all.
    cbn [app fold_left].
    rewrite (Hadd messages) by done.
    rewrite Hkeep by done.
    cbn [Messages.reducer]. rewrite update_last_snoc.
    by rewrite <- app_assoc.
  - intros id1 id2 text id3 id4 text' content suggestions agentType content'
      suggestions' agentType'.
    unfold Messages.submitted, Messages.replied, Messages.dispatch_all.
    cbn [app fold_left].
    set (u1 := Messages.mkChat id1 user text None None None).
    set (t1 := Messages.mkChat id2 assistant [] (Some true) None None).
    set (u2 := Messages.mkChat id3 user text' None None None).
    set (t2 := Messages.mkChat id4 assistant [] (Some true) None None).
    rewrite (Hadd messages u1) by done.
    rewrite (Hkeep _ t1) by done.
    rewrite (Hadd _ u2) by done.
    rewrite (Hkeep _ t2) by done.
    rewrite !filter_app, Hclean.
    rewrite (filter_cons_True _ u1) by done.
    rewrite (filter_cons_False _ t1) by done.
    rewrite !filter_nil.
    cbn [Messages.reducer]. rewrite !update_last_snoc.
    by rewrite <- !app_assoc.
Qed.

End MessagesFacts.

Lemma last_message_updates_witness :
  Messages.reducer pending_conversation
    (Messages.ADD_MESSAGE
       (Messages.mkChat (js "3") user (js "forecast") None None None))
  = [Messages.mkChat (js "1") user (js "hello") None None None;
     Messages.mkChat (js "3") user (js "forecast") None None None]
  ∧ Messages.dispatch_all pending_conversation
      (Messages.submitted (js "3") (js "4") (js "forecast")
       ++ Messages.submitted (js "5") (js "6") (js "compare")
       ++ [Messages.replied (js "Forecast ready") [] (js "forecasting");
           Messages.replied (js "Comparison ready") [] (js "comparative")])
    = [Messages.mkChat (js "1") user (js "hello") None None None;
       Messages.mkChat (js "3") user (js "forecast") None None None;
       Messages.mkChat (js "5") user (js "compare") None None None;
       Messages.mkChat (js "6") assistant (js "Comparison ready")
         (Some false) (Some []) (Some (js "comparative"))].
Proof.
  destruct (last_message_updates pending_conversation)
    as (Hadd & _ & _ & _ & Hlost).
  split.
  - rewrite Hadd by reflexivity. vm_compute. reflexivity.
  - rewrite Hlost. vm_compute. reflexivity.
Defined.

(** ** The width of the data panel *)

(** X27. [SET_DATA_PANEL_WIDTH] stores a whole number between 20 and 70
    for every payload that is a number, the infinities included: a
    width that is already a whole number in that range is stored as it
    is, smaller payloads give 20 and larger ones 70, and the stored
    width grows with the payload.  Only [NaN] is stored as [NaN]. *)
Theorem panel_width_clamped (payload : Panel.JSValue) :
  (payload ≠ Panel.NaN →
   ∃ w, Panel.setDataPanelWidth payload = Some w ∧ (20 ≤ w ≤ 70)%Z)
  ∧ (∀ w : Z, (20 ≤ w ≤ 70)%Z →
       Panel.setDataPanelWidth (Panel.Finite (QArith_base.inject_Z w))
       = Some w)
  ∧ (∀ q q' w w',
       QArith_base.Qle q q' →
       Panel.setDataPanelWidth (Panel.Finite q) = Some w →
       Panel.setDataPanelWidth (Panel.Finite q') = Some w' →
       (w ≤ w')%Z)
  ∧ (Panel.setDataPanelWidth payload = None ↔ payload = Panel.NaN).
Proof.
  split; [|split; [|split]].
  - intros Hnan. destruct payload as [| |q|]; [done|..]; eexists;
      (split; [reflexivity|]); lia.
  - intros w Hw. cbn [Panel.setDataPanelWidth]. f_equal.
    assert (Hr : Panel.round (QArith_base.inject_Z w) = w).
    { unfold Panel.round, Qround.Qfloor, QArith_base.Qplus,
        QArith_base.inject_Z.
      cbn [QArith_base.Qnum QArith_base.Qden Pos.mul].
      symmetry. apply Z.div_unique with (r := 1%Z); lia. }
    rewrite Hr. lia.
  - intros q q' w w' Hle [= <-] [= <-].
    assert (Hmono : (Panel.round q ≤ Panel.round q')%Z).
    { unfold Panel.round. apply Qround.Qfloor_resp_le.
      by apply QArith_base.Qplus_le_compat; [|apply QArith_base.Qle_refl]. }
    lia.
  - destruct payload; split; done.
Qed.

Lemma panel_width_clamped_witness :
  ∃ w, Panel.setDataPanelWidth
         (Panel.Finite (QArith_base.Qmake 1234 10)) = Some w
       ∧ (20 ≤ w ≤ 70)%Z.
Proof.
  apply (panel_width_clamped (Panel.Finite (QArith_base.Qmake 1234 10))).
  discriminate.
Defined.

(** ** Repeated calls *)

Section RepeatedCalls.
Context `{JSNumber}.
Implicit Types (st : Client.t) (c : Client.Call).

(** X28. Any number of repetitions of an answered call, awaited one
    after the other while its entry is live, are served from the cache:
    the provider is called once, for the first call, and the limiter
    is charged once, so repetitions can never be refused.  The entry is
    live up to and including the instant of its expiry; a repetition
    after that instant is not served from the cache. *)
Theorem repeated_calls_hit_cache c1 (repeats : list Client.Call) st r :
  Client.requestQueue st = [] →
  Client.eligible (Client.call_params c1) = true →
  (Client.await c1 st).1 = Some (Resolved (Fresh r)) →
  Forall (λ c, Client.eligible (Client.call_params c) = true
               ∧ Client.cacheKey (Client.call_params c)
                 = Client.cacheKey (Client.call_params c1)) repeats →
  let st1 := (Client.await c1 st).2 in
  let expiry :=
    (Client.t_set2 (Client.call_tick c1) + APICache.defaultTTL)%Z in
  (Forall (λ c, (Client.call_t_get c ≤ expiry)%Z) repeats →
   Client.sequence (c1 :: repeats) st
   = (Some (Resolved (Fresh r))
        :: replicate (length repeats) (Some (Resolved (FromCache r))),
      st1)
   ∧ Client.providerCalls st1
     = Client.providerCalls st
       ++ [Client.provider_request (Client.call_params c1)]
   ∧ RateLimiter.times Client.identifier (Client.rateLimiter st1)
     = RateLimiter.inside (Client.call_t_check c1)
         (RateLimiter.times Client.identifier (Client.rateLimiter st))
       ++ [Client.t_record (Client.call_tick c1)])
  ∧ (∀ c, c ∈ repeats → (expiry < Client.call_t_get c)%Z →
       ∀ r', (Client.await c st1).1 ≠ Some (Resolved (FromCache r'))).
Proof.
  intros Hidle He1 Hfresh Hrepeats. cbv zeta.
  destruct (await_fresh c1 st r Hidle Hfresh)
    as (key & cache1 & Hkey & Hcache & Hqueue & Hcalls).
  rewrite He1 in Hcache.
  set (st1 := (Client.await c1 st).2) in *.
  set (entry := APICache.mkEntry r (Client.t_set1 (Client.call_tick c1))
                  (Client.t_set2 (Client.call_tick c1)
                   + APICache.defaultTTL)%Z).
  assert (Hentry : JSMap.get key (Client.cache st1) = Some entry).
  { rewrite Hcache. unfold APICache.set. apply JSMap_get_set_eq. }
  split.
  - intros Hlive. split; [|split; [done|]].
    + rewrite sequence_cons. fold st1. rewrite Hfresh.
      assert (Hseq : Client.sequence repeats st1
                     = (replicate (length repeats)
                          (Some (Resolved (FromCache r))), st1)).
      { clear -Hrepeats Hlive Hentry Hkey.
        induction repeats as [|c repeats IH]; [done|].
        apply Forall_cons in Hrepeats as [[He Hk] Hrepeats].
        apply Forall_cons in Hlive as [Hc Hlive].
        rewrite sequence_cons.
        assert (Hhit : Client.await c st1
                       = (Some (Resolved (FromCache r)), st1)).
        { unfold Client.await.
          rewrite (create_cache_hit _ _ _ _ key entry); try done.
          by rewrite Hk. }
        rewrite Hhit. cbn [fst snd]. by rewrite IH. }
      by rewrite Hseq.
    + assert (Hreached : Client.reached_limiter (Client.await c1 st).1)
        by (by rewrite Hfresh).
      destruct (await_reached c1 st Hidle Hreached)
        as (Hout & Hlim & _ & _).
      cbv zeta in Hout, Hlim. fold st1 in Hlim. rewrite Hlim.
      rewrite round_unfold in Hout |- *. cbn [fst snd] in Hout |- *.
      destruct (RateLimiter.canMakeRequest _ _ _).1 eqn:Hcheck.
      * rewrite times_recordRequest, times_canMakeRequest. done.
      * rewrite Hfresh in Hout. done.
  - intros c Hc Hlate r' Hhit.
    eapply Forall_forall in Hrepeats as [He Hk]; [|exact Hc].
    unfold Client.await, Client.createChatCompletion in Hhit.
    unfold Client.cacheKey in Hk, Hkey. rewrite Hk, Hkey in Hhit.
    unfold Client.eligible in He. rewrite He in Hhit.
    unfold APICache.get in Hhit. rewrite Hentry in Hhit.
    cbn [APICache.expires entry] in Hhit.
    destruct (Z.ltb_spec (Client.t_set2 (Client.call_tick c1)
                          + APICache.defaultTTL) (Client.call_t_get c));
      [|lia].
    destruct (RateLimiter.canMakeRequest _ _ _) as [[] r1].
    + rewrite Hqueue in Hhit. cbn [app] in Hhit.
      rewrite processQueue_one in Hhit. cbn [fst snd last] in Hhit.
      destruct (request_spec
                  (Client.mkQueued
                     (Client.mkProviderRequest
                        (default (js "gpt-4o-mini")
                           (Client.p_model (Client.call_params c)))
                        (Client.p_messages (Client.call_params c))
                        (default number_0_7
                           (Client.p_temperature (Client.call_params c)))
                        (default 800%N
                           (Client.p_max_tokens (Client.call_params c))))
                     true key)
                  (Client.call_tick c)
                  (Client.mkClient (JSMap.delete key (Client.cache st1)) r1
                     [] (Client.providerCalls st1))) as [Hans _].
      rewrite Hans in Hhit. unfold Client.provider_answer in Hhit.
      by destruct (Client.reply (Client.call_tick c)).
    + done.
Qed.

End RepeatedCalls.

Lemma repeated_calls_hit_cache_witness :
  Client.providerCalls (Client.await (demo_call 0) Client.new).2
  = Client.providerCalls (@Client.new rendered_numbers)
    ++ [Client.provider_request (Client.call_params (demo_call 0))].
Proof.
  destruct (repeated_calls_hit_cache (demo_call 0) demo_repeats Client.new
              (Client.response_of (demo_completion (js "ok")))) as [Hhits _].
  - reflexivity.
  - reflexivity.
  - vm_compute. reflexivity.
  - unfold demo_repeats. cbn [fmap list_fmap].
    repeat (apply Forall_cons; split; [split; reflexivity|]).
    apply Forall_nil_2.
  - apply Hhits. unfold demo_repeats. cbn [fmap list_fmap].
    repeat (apply Forall_cons; split; [vm_compute; discriminate|]).
    apply Forall_nil_2.
Defined.

(** ** Selection by keyword *)

Section KeywordFacts.
Implicit Types (table : list (jsstring * AgentConfig)) (m : jsstring).

Lemma find_first {A} (P : A → bool) (l : list A) x :
  find P l = Some x →
  ∃ l1 l2, l = l1 ++ x :: l2 ∧ P x = true ∧ Forall (λ y, P y = false) l1.
Proof.
  induction l as [|y l IH]; [done|]. simpl.
  destruct (P y) eqn:Hy.
  - intros [= ->]. exists [], l. by repeat split.
  - intros Hfind. destruct (IH Hfind) as (l1 & l2 & -> & Hx & Hl1).
    exists (y :: l1), l2. split; [done|]. split; [done|].
    by apply Forall_cons.
Qed.

Lemma find_nothing {A} (P : A → bool) (l : list A) :
  find P l = None ↔ Forall (λ y, P y = false) l.
Proof.
  induction l as [|y l IH]; simpl.
  - split; [constructor|done].
  - destruct (P y) eqn:Hy.
    + split; [done|]. intros [Hy' _]%Forall_cons. congruence.
    + rewrite IH. split.
      * intros Hl. by apply Forall_cons.
      * by intros [_ Hl]%Forall_cons.
Qed.

(** X29. Selection by keyword takes the first match in the order of the
    agent table, not in the order of the words of the message: the agent
    returned is not the general one, the keyword is the first of its
    keywords that the message includes, and no keyword of an earlier
    agent other than the general one is included.  Nothing is returned
    exactly when the message includes no keyword of any agent other than
    the general one. *)
Theorem keyword_match_first table m :
  (∀ agentKey agent keyword,
     keyword_match table m = Some (agentKey, agent, keyword) →
     agentKey ≠ js "general"
     ∧ (∃ before after,
          table = before ++ (agentKey, agent) :: after
          ∧ ∀ agentKey' agent' keyword',
              (agentKey', agent') ∈ before →
              agentKey' ≠ js "general" →
              keyword' ∈ agent_keywords agent' →
              includes m keyword' = false)
     ∧ ∃ earlier later,
         agent_keywords agent = earlier ++ keyword :: later
         ∧ includes m keyword = true
         ∧ Forall (λ keyword', includes m keyword' = false) earlier)
  ∧ (keyword_match table m = None
     ↔ ∀ agentKey agent keyword,
         (agentKey, agent) ∈ table →
         agentKey ≠ js "general" →
         keyword ∈ agent_keywords agent →
         includes m keyword = false).
Proof.
  induction table as [|[k a] table [IHsome IHnone]].
  - split; [done|]. split; [|done]. intros _ k a kw Hin.
    by apply elem_of_nil in Hin.
  - split.
    + intros agentKey agent keyword. cbn [keyword_match].
      destruct (decide (k = js "general")) as [->|Hk].
      * intros Hm. destruct (IHsome _ _ _ Hm)
          as (Hne & (before & after & -> & Hbefore) & Hkw).
        split; [done|]. split; [|done].
        exists ((js "general", a) :: before), after. split; [done|].
        intros k' a' kw' [[= -> ->]|Hin]%elem_of_cons Hk' Hkw'; [done|].
        by eapply Hbefore.
      * destruct (find (includes m) (agent_keywords a)) as [kw|] eqn:Hfind.
        -- intros [= <- <- <-]. split; [done|]. split.
           ++ exists [], table. split; [done|].
              intros k' a' kw' Hin. by apply elem_of_nil in Hin.
           ++ destruct (find_first _ _ _ Hfind) as (l1 & l2 & ? & ? & ?).
              by exists l1, l2.
        -- intros Hm. destruct (IHsome _ _ _ Hm)
             as (Hne & (before & after & -> & Hbefore) & Hkw).
           split; [done|]. split; [|done].
           exists ((k, a) :: before), after. split; [done|].
           intros k' a' kw' [[= -> ->]|Hin]%elem_of_cons Hk' Hkw'.
           ++ apply find_nothing in Hfind.
              by eapply Forall_forall in Hfind.
           ++ by eapply Hbefore.
    + cbn [keyword_match].
      destruct (decide (k = js "general")) as [->|Hk].
      * rewrite IHnone. split.
        -- intros Hall k' a' kw' [[= -> ->]|Hin]%elem_of_cons Hk' Hkw';
             [done|]. by eapply Hall.
        -- intros Hall k' a' kw' Hin. apply Hall. by right.
      * destruct (find (includes m) (agent_keywords a)) as [kw|] eqn:Hfind.
        -- split; [done|]. intros Hall.
           destruct (find_first _ _ _ Hfind) as (l1 & l2 & Hl & Hkw & _).
           rewrite (Hall k a kw) in Hkw; [done|left|done|].
           rewrite Hl. apply elem_of_app. right. left.
        -- rewrite IHnone. apply find_nothing in Hfind. split.
           ++ intros Hall k' a' kw' [[= -> ->]|Hin]%elem_of_cons Hk' Hkw'.
              ** by eapply Forall_forall in Hfind.
              ** by eapply Hall.
           ++ intros Hall k' a' kw' Hin. apply Hall. by right.
Qed.

End KeywordFacts.

Lemma keyword_match_first_witness :
  js "forecasting" ≠ js "general".
Proof.
  apply (proj1 (keyword_match_first MultiAgentChatHandler.AGENTS
                  (js "simulate the trend"))
           (js "forecasting")
           (mkAgent (js "Forecasting Agent") (js "📈") (js "Future Predictor")
              (js <$> ["forecast"; "predict"; "future"; "projection"; "trend";
                       "time series"; "arima"; "prophet"; "prediction"]))
           (js "trend")).
  vm_compute. reflexivity.
Defined.
